(** * Binomial-tree option pricer: [option_tree] of bTreeOptionCalc.py

    A shallow embedding of the pricing function and the properties of the
    grids it returns.

    Modelling conventions.
    - Python numbers (the [int] literals 0, 1, 100 and the [float] values)
      are real numbers: arithmetic is exact, so rounding, overflow and
      underflow of IEEE doubles are outside the model.  The module
      [Doubles] repeats the forward pass of the stock tree on binary64
      values, for what exact arithmetic cannot show.
    - Python exceptions are results of an error monad.  The function
      contains no [raise]; the exceptions it can produce are the built-in
      ones of [/], [**] and list indexing.
    - Lists are immutable values; [a[i][j] = v] is an update of the outer
      list at [i].  Every row of a tree is a fresh list in the source, so
      no two rows alias.
    - [print] appends to the standard output carried by the [world]. *)

From Stdlib Require Import Reals Lra Lia ZArith Bool String List.
From Stdlib Require Floats.
Import ListNotations.
Local Open Scope R_scope.

(** ** The fragment of the Python runtime the function uses *)

Module Py.

(** Built-in exceptions reachable from the operators of [option_tree]. *)
Inductive exn : Set :=
| ZeroDivisionError
| IndexError.

Inductive result (A : Type) : Type :=
| Ok (a : A)
| Raise (e : exn).
Arguments Ok {A} a.
Arguments Raise {A} e.

Definition bind {A B} (c : result A) (k : A -> result B) : result B :=
  match c with
  | Ok a => k a
  | Raise e => Raise e
  end.

(** [a / b] *)
Definition truediv (a b : R) : result R :=
  if Req_dec_T b 0 then Raise ZeroDivisionError else Ok (a / b).

(** [x ** n] for an integer exponent [n] *)
Definition pow (x : R) (n : Z) : result R :=
  if (n <? 0)%Z then
    if Req_dec_T x 0 then Raise ZeroDivisionError else Ok (powerRZ x n)
  else Ok (powerRZ x n).

(** [max(a, b)]: the first argument is kept unless the second is
    strictly greater. *)
Definition max (a b : R) : R :=
  if Rlt_dec a b then b else a.

(** [range(n)] *)
Definition range (n : Z) : list Z :=
  List.map Z.of_nat (seq 0 (Z.to_nat n)).

(** [range(start, stop, -1)] *)
Definition range_desc (start stop : Z) : list Z :=
  List.map (fun k => (start - Z.of_nat k)%Z) (seq 0 (Z.to_nat (start - stop))).

(** Index normalisation of [list]: a negative index counts from the
    end; what is still out of range raises [IndexError]. *)
Definition index {A} (l : list A) (i : Z) : result nat :=
  let n := Z.of_nat (List.length l) in
  let k := if (i <? 0)%Z then (i + n)%Z else i in
  if ((k <? 0) || (n <=? k))%Z then Raise IndexError
  else Ok (Z.to_nat k).

Fixpoint replace {A} (l : list A) (k : nat) (v : A) : list A :=
  match l, k with
  | [], _ => []
  | _ :: t, O => v :: t
  | h :: t, S k' => h :: replace t k' v
  end.

(** [l[i]] *)
Definition getitem {A} (l : list A) (i : Z) : result A :=
  bind (index l i) (fun k =>
    match nth_error l k with
    | Some a => Ok a
    | None => Raise IndexError
    end).

(** [l[i] = v] *)
Definition setitem {A} (l : list A) (i : Z) (v : A) : result (list A) :=
  bind (index l i) (fun k => Ok (replace l k v)).

(** [for x in xs: body], the loop state threaded through the body. *)
Fixpoint for_each {S} (xs : list Z) (body : Z -> S -> result S) (s : S)
  : result S :=
  match xs with
  | [] => Ok s
  | x :: xs' => bind (body x s) (for_each xs' body)
  end.

End Py.

Import Py.

Declare Scope py_scope.
Delimit Scope py_scope with py.
Notation "x <- c ;; k" := (bind c (fun x => k))
  (at level 61, c at next level, right associativity) : py_scope.
Local Open Scope py_scope.

(** ** Module state: the constants of the script and standard output *)

Record globals : Type := {
  STOCK_PRICE : R;
  EX_PRICE : R;
  RISK_FREE_PCT : R;
  TIME_STEPS : Z;
  TIME_TO_MATURITY : R;
  VOLATILITY : R;
  DELTA_TIME_STEP : R;
  UPTICK : R;
  DOWNTICK : R
}.

(** The values the script binds at load time. *)
Definition script_globals : globals :=
  let time_to_maturity := 6 / 12 in
  let delta_time_step := time_to_maturity / 101 in
  let uptick := exp (30 / 100 * sqrt delta_time_step) in
  {| STOCK_PRICE := 40;
     EX_PRICE := 40;
     RISK_FREE_PCT := 4;
     TIME_STEPS := 101;
     TIME_TO_MATURITY := time_to_maturity;
     VOLATILITY := 30;
     DELTA_TIME_STEP := delta_time_step;
     UPTICK := uptick;
     DOWNTICK := 1 / uptick |}.

Record world : Type := {
  env : globals;
  stdout : list (string * R)
}.

(** [print(label, v)] *)
Definition print (label : string) (v : R) (w : world) : world :=
  {| env := env w; stdout := stdout w ++ [(label, v)] |}.

(** ** The trees *)

Definition grid : Type := list (list R).

(** [[[0 for _ in range(step + 1)] for step in range(time_steps + 1)]] *)
Definition new_tree (time_steps : Z) : grid :=
  List.map (fun step => List.map (fun _ => 0) (range (step + 1)))
           (range (time_steps + 1)).

(** [g[i][j]] *)
Definition getitem2 (g : grid) (i j : Z) : result R :=
  row <- getitem g i ;;
  getitem row j.

(** [g[i][j] = v]: the row object [g[i]] is updated in place. *)
Definition setitem2 (g : grid) (i j : Z) (v : R) : result grid :=
  row <- getitem g i ;;
  row' <- setitem row j v ;;
  setitem g i row'.

(** Lines 49-51: the forward pass over the stock tree. *)
Definition fill_stock_tree (stock_price uptick downtick : R) (time_steps : Z)
    (stock_tree : grid) : result grid :=
  for_each (range (time_steps + 1)) (fun step stock_tree =>
    for_each (range (step + 1)) (fun j stock_tree =>
      uj <- pow uptick j ;;
      dk <- pow downtick (step - j) ;;
      setitem2 stock_tree step j (stock_price * uj * dk))
    stock_tree)
  stock_tree.

(** Lines 53-54: the payoff at maturity. *)
Definition fill_terminal (ex_price : R) (time_steps : Z) (stock_tree : grid)
    (option_tree : grid) : result grid :=
  for_each (range (time_steps + 1)) (fun j option_tree =>
    s <- getitem2 stock_tree time_steps j ;;
    setitem2 option_tree time_steps j (max 0 (s - ex_price)))
  option_tree.

(** Lines 56-61: backward induction. *)
Definition induce_back (p discount_factor : R) (time_steps : Z)
    (option_tree : grid) : result grid :=
  for_each (range_desc (time_steps - 1) (-1)) (fun step option_tree =>
    for_each (range (step + 1)) (fun j option_tree =>
      up_value <- getitem2 option_tree (step + 1) (j + 1) ;;
      down_value <- getitem2 option_tree (step + 1) j ;;
      let expected_value := p * up_value + (1 - p) * down_value in
      setitem2 option_tree step j (max 0 (discount_factor * expected_value)))
    option_tree)
  option_tree.

(** The grids and the root value, before the root is printed. *)
Definition option_tree_grids
    (stock_price ex_price uptick downtick risk_free_pct : R)
    (time_steps : Z) (delta_time_step : R) : result (grid * grid * R) :=
  risk_free_rate <- truediv risk_free_pct 100 ;;
  let discount_factor := exp (- risk_free_rate * delta_time_step) in
  let e := exp (risk_free_rate * delta_time_step) in
  p <- truediv (e - downtick) (uptick - downtick) ;;
  let stock_tree := new_tree time_steps in
  let option_tree := new_tree time_steps in
  stock_tree <- fill_stock_tree stock_price uptick downtick time_steps stock_tree ;;
  option_tree <- fill_terminal ex_price time_steps stock_tree option_tree ;;
  option_tree <- induce_back p discount_factor time_steps option_tree ;;
  root <- getitem2 option_tree 0 0 ;;
  Ok (stock_tree, option_tree, root).

(** [option_tree(stock_price, ex_price, uptick, downtick, risk_free_pct,
    time_steps, delta_time_step)], lines 39-64.  An exception leaves the
    world as it was: the only output is the [print] of line 63. *)
Definition option_tree
    (stock_price ex_price uptick downtick risk_free_pct : R)
    (time_steps : Z) (delta_time_step : R) (w : world)
    : result (grid * grid) * world :=
  match option_tree_grids stock_price ex_price uptick downtick risk_free_pct
                          time_steps delta_time_step with
  | Ok (stock_tree, option_tree, root) =>
      (Ok (stock_tree, option_tree),
       print "Option price at the root: "%string root w)
  | Raise e => (Raise e, w)
  end.


(** ** The forward pass on IEEE doubles

    Lines 46-51 once more, on binary64 values instead of real numbers:
    products are rounded to nearest, and a power is the exact power
    rounded to nearest, as C's [pow] returns it wherever the exact power
    is representable or underflows.  A finite base whose power leaves
    the range raises [OverflowError]; a product that leaves it is an
    infinity.  The exponents of line 51 come from [range(step + 1)] and
    are never negative. *)
Module Doubles.
Import Floats.

Inductive exn : Set :=
| IndexError
| OverflowError.

Definition result (A : Type) : Type := (exn + A)%type.

Definition bind {A B} (c : result A) (k : A -> result B) : result B :=
  match c with
  | inr a => k a
  | inl e => inl e
  end.

Declare Scope doubles_scope.
#[local] Notation "x <- c ;; k" := (bind c (fun x => k))
  (at level 61, c at next level, right associativity) : doubles_scope.
#[local] Open Scope doubles_scope.

(** [x ** n] for a float [x] and an integer [n >= 0] *)
Definition pow (x : float) (n : N) : result float :=
  match n with
  | N0 => inr 1%float
  | Npos k =>
      match Prim2SF x with
      | S754_finite s m e =>
          match binary_round prec emax (s && N.odd (Npos k)) (Pos.pow m k)
                             (e * Zpos k) with
          | S754_infinity _ => inl OverflowError
          | r => inr (SF2Prim r)
          end
      | S754_zero s => inr (SF2Prim (S754_zero (s && N.odd (Npos k))))
      | S754_infinity s => inr (SF2Prim (S754_infinity (s && N.odd (Npos k))))
      | S754_nan => inr nan
      end
  end.

(** [l[i]] and [l[i] = v], with the index rules of [Py]. *)
Definition getitem {A} (l : list A) (i : Z) : result A :=
  match Py.getitem l i with
  | Ok a => inr a
  | Raise _ => inl IndexError
  end.

Definition setitem {A} (l : list A) (i : Z) (v : A) : result (list A) :=
  match Py.setitem l i v with
  | Ok l' => inr l'
  | Raise _ => inl IndexError
  end.

Fixpoint for_each {S} (xs : list Z) (body : Z -> S -> result S) (s : S)
  : result S :=
  match xs with
  | [] => inr s
  | x :: xs' => bind (body x s) (for_each xs' body)
  end.

Definition grid : Type := list (list float).

(** Line 46; the integer [0] of the source is the double [0.0]. *)
Definition new_tree (time_steps : Z) : grid :=
  List.map (fun step => List.map (fun _ => 0%float) (range (step + 1)))
           (range (time_steps + 1)).

Definition getitem2 (g : grid) (i j : Z) : result float :=
  row <- getitem g i ;;
  getitem row j.

Definition setitem2 (g : grid) (i j : Z) (v : float) : result grid :=
  row <- getitem g i ;;
  row' <- setitem row j v ;;
  setitem g i row'.

(** Lines 49-51. *)
Definition fill_stock_tree (stock_price uptick downtick : float)
    (time_steps : Z) (stock_tree : grid) : result grid :=
  for_each (range (time_steps + 1)) (fun step stock_tree =>
    for_each (range (step + 1)) (fun j stock_tree =>
      uj <- pow uptick (Z.to_N j) ;;
      dk <- pow downtick (Z.to_N (step - j)) ;;
      setitem2 stock_tree step j (stock_price * uj * dk)%float)
    stock_tree)
  stock_tree.

(** The stock tree of [option_tree] on doubles: lines 46 and 49-51. *)
Definition stock_tree (stock_price uptick downtick : float) (time_steps : Z)
    : result grid :=
  fill_stock_tree stock_price uptick downtick time_steps (new_tree time_steps).

End Doubles.

(** ** Reading the grids at natural-number positions *)

(** Entry [(i, j)] of a grid, for positions known to be in range. *)
Definition cell (g : grid) (i j : nat) : R := nth j (nth i g []) 0.

(** Triangular shape: rows [0..n], row [i] of length [i + 1]. *)
Definition tri (g : grid) (n : nat) : Prop :=
  List.length g = S n /\
  forall i, (i <= n)%nat -> List.length (nth i g []) = S i.

(** The closed form of a stock-tree node. *)
Definition node_price (stock_price uptick downtick : R) (step j : nat) : R :=
  stock_price * uptick ^ j * downtick ^ (step - j).

(** Node [(i, j)] is the clamped discounted expectation of its two
    successors in row [i + 1]. *)
Definition induced (p discount_factor : R) (g : grid) (i j : nat) : Prop :=
  cell g i j =
  max 0 (discount_factor *
         (p * cell g (S i) (S j) + (1 - p) * cell g (S i) j)).

(** The quantities of lines 41-44 as expressions of the arguments. *)
Definition rate (risk_free_pct : R) : R := risk_free_pct / 100.

Definition DF (risk_free_pct delta_time_step : R) : R :=
  exp (- rate risk_free_pct * delta_time_step).

Definition prob (uptick downtick risk_free_pct delta_time_step : R) : R :=
  (exp (rate risk_free_pct * delta_time_step) - downtick) / (uptick - downtick).

(** What a call of [option_tree] leaves on standard output. *)
Definition report (root : R) (w : world) : world :=
  print "Option price at the root: " root w.

(** The world in which the script makes its call. *)
Definition script_world : world :=
  {| env := script_globals; stdout := [] |}.

(** ** The calculated parameters of the script (lines 31-33) *)

(** The exceptions of the script outside [option_tree]: those of the
    operators, [ValueError] of [math.sqrt] and [TypeError] of arithmetic
    on [None]. *)
Inductive error : Set :=
| Builtin (e : exn)
| ValueError
| TypeError.

(** [math.sqrt(x)] *)
Definition math_sqrt (x : R) : error + R :=
  if Rlt_dec x 0 then inl ValueError else inr (sqrt x).

(** Lines 31-33 as a function of the user-defined parameters they read:
    [DELTA_TIME_STEP], [UPTICK] and [DOWNTICK]. *)
Definition calculated_parameters
    (time_to_maturity : R) (time_steps : Z) (volatility : R)
    : error + (R * R * R) :=
  match truediv time_to_maturity (IZR time_steps) with
  | Raise e => inl (Builtin e)
  | Ok delta_time_step =>
      match truediv volatility 100 with
      | Raise e => inl (Builtin e)
      | Ok vol =>
          match math_sqrt delta_time_step with
          | inl e => inl e
          | inr root =>
              let uptick := exp (vol * root) in
              match truediv 1 uptick with
              | Raise e => inl (Builtin e)
              | Ok downtick => inr (delta_time_step, uptick, downtick)
              end
          end
      end
  end.

(** ** Drawing the tree (lines 66-100) *)

(** The calls made on the screen surface are recorded in order.  Only
    what the function computes is kept of a text surface: the font size
    and the number formatted into the label. *)
Definition color : Type := (Z * Z * Z)%type.

Definition white : color := (255, 255, 255)%Z.
Definition blue : color := (0, 0, 255)%Z.

Inductive rendered : Type :=
| stock_price_text (font_size : Z) (value : R)
| option_price_text (font_size : Z) (value : R).

Inductive draw_cmd : Type :=
| line (c : color) (start_pos end_pos : R * R)
| circle (c : color) (center : R * R) (radius : R)
| blit (source : rendered) (dest : R * R).

Definition Surface : Type := list draw_cmd.

(** [font.size(f"S: {value:.2f}")[0]] for the Arial font of a given
    size: the text metrics belong to pygame and are a parameter. *)
Definition font_metrics : Type := Z -> R -> Z.

(** [int(x)]: truncation towards zero. *)
Definition int (x : R) : Z :=
  if Rle_dec 0 x then Int_part x else (- Int_part (- x))%Z.

(** [a // b] on integers. *)
Definition floordiv (a b : Z) : result Z :=
  if (b =? 0)%Z then Raise ZeroDivisionError else Ok (a / b)%Z.

(** [max(a, b)] on integers. *)
Definition max_int (a b : Z) : Z :=
  if (a <? b)%Z then b else a.

(** Lines 70-74: the widest stock label. *)
Definition widest_label (font : font_metrics) (font_size : Z)
    (stock_tree : grid) : Z :=
  fold_left (fun max_text_width row =>
    fold_left (fun max_text_width value =>
      let text_width := font font_size value in
      max_int max_text_width text_width)
    row max_text_width)
  stock_tree 0%Z.

(** Lines 81-100: the body of the inner loop, one node of the tree. *)
Definition draw_node (font_size : Z) (stock_tree option_tree : grid)
    (height : Z) (offset_x offset_y zoom h_dist v_dist node_radius : R)
    (step j : Z) (screen : Surface) : result Surface :=
  let x := offset_x + h_dist * IZR step in
  let y := offset_y + v_dist * IZR (step - 2 * j) + IZR (height / 2) in
  let screen :=
    if (0 <? step)%Z then
      let parent_x := offset_x + h_dist * IZR (step - 1) in
      let parent_y_up :=
        offset_y + v_dist * IZR ((step - 1) - 2 * (j - 1)) + IZR (height / 2) in
      let parent_y_down :=
        offset_y + v_dist * IZR ((step - 1) - 2 * j) + IZR (height / 2) in
      let screen :=
        if (0 <? j)%Z
        then screen ++ [line white (x, y) (parent_x, parent_y_up)]
        else screen in
      if (j <? step)%Z
      then screen ++ [line white (x, y) (parent_x, parent_y_down)]
      else screen
    else screen in
  let screen := screen ++ [circle blue (x, y) node_radius] in
  s <- getitem2 stock_tree step j ;;
  o <- getitem2 option_tree step j ;;
  let text_x := x - 10 * zoom in
  let text_y_stock := y - 20 * zoom in
  let text_y_option := y + 10 * zoom in
  Ok (screen ++ [blit (stock_price_text font_size s) (text_x, text_y_stock);
                 blit (option_price_text font_size o) (text_x, text_y_option)]).

(** [draw_tree(screen, stock_tree, option_tree, height, time_steps,
    offset_x, offset_y, zoom)] *)
Definition draw_tree (font : font_metrics) (screen : Surface)
    (stock_tree option_tree : grid) (height time_steps : Z)
    (offset_x offset_y zoom : R) : result Surface :=
  let font_size := int (12 * zoom) in
  let max_text_width := widest_label font font_size stock_tree in
  let h_dist := IZR (max_int max_text_width 50) * zoom in
  q <- floordiv height (2 * time_steps) ;;
  let v_dist := IZR (max_int 30 q) * zoom in
  let node_radius := max 10 (20 * zoom) in
  for_each (range (time_steps + 1)) (fun step screen =>
    for_each (range (step + 1)) (fun j screen =>
      draw_node font_size stock_tree option_tree height offset_x offset_y
                zoom h_dist v_dist node_radius step j screen)
    screen)
  screen.

(** ** The window loop (lines 102-145) *)

(** The events the loop distinguishes, with the attributes it reads;
    every other event type is [OTHER]. *)
Inductive event : Type :=
| QUIT
| MOUSEBUTTONDOWN (pos : Z * Z)
| MOUSEBUTTONUP
| MOUSEMOTION (pos : Z * Z)
| MOUSEWHEEL (y : Z)
| OTHER.

(** The local variables of [visualize_binomial_tree] that the loop
    updates; [None] is Python's [None]. *)
Record view : Type := {
  running : bool;
  dragging : bool;
  offset_x : Z;
  offset_y : Z;
  last_mouse_x : option Z;
  last_mouse_y : option Z;
  zoom : R
}.

Definition min_zoom : R := 5 / 10.
Definition max_zoom : R := 3.

(** Lines 110-119 and 120: the state before the first event. *)
Definition initial_view : view :=
  {| running := true; dragging := false; offset_x := 0; offset_y := 0;
     last_mouse_x := None; last_mouse_y := None; zoom := 1 |}.

(** [min(a, b)]: the first argument is kept unless the second is
    strictly smaller. *)
Definition min (a b : R) : R :=
  if Rlt_dec b a then b else a.

(** Lines 123-135: the [if]/[elif] chain on the event type.  [None] is
    the [TypeError] of subtracting [None] from an integer. *)
Definition dispatch (v : view) (e : event) : option view :=
  match e with
  | QUIT =>
      Some {| running := false; dragging := dragging v;
              offset_x := offset_x v; offset_y := offset_y v;
              last_mouse_x := last_mouse_x v; last_mouse_y := last_mouse_y v;
              zoom := zoom v |}
  | MOUSEBUTTONDOWN pos =>
      Some {| running := running v; dragging := true;
              offset_x := offset_x v; offset_y := offset_y v;
              last_mouse_x := Some (fst pos); last_mouse_y := Some (snd pos);
              zoom := zoom v |}
  | MOUSEBUTTONUP =>
      Some {| running := running v; dragging := false;
              offset_x := offset_x v; offset_y := offset_y v;
              last_mouse_x := last_mouse_x v; last_mouse_y := last_mouse_y v;
              zoom := zoom v |}
  | MOUSEMOTION pos =>
      if dragging v then
        match last_mouse_x v, last_mouse_y v with
        | Some mx, Some my =>
            let dx := (fst pos - mx)%Z in
            let dy := (snd pos - my)%Z in
            Some {| running := running v; dragging := dragging v;
                    offset_x := (offset_x v + dx)%Z;
                    offset_y := (offset_y v + dy)%Z;
                    last_mouse_x := Some (fst pos);
                    last_mouse_y := Some (snd pos);
                    zoom := zoom v |}
        | _, _ => None
        end
      else Some v
  | MOUSEWHEEL _ => Some v
  | OTHER => Some v
  end.

(** Lines 136-138: the separate [if] on [MOUSEWHEEL]. *)
Definition wheel (v : view) (e : event) : view :=
  match e with
  | MOUSEWHEEL y =>
      let zoom := zoom v + IZR y * (1 / 10) in
      let zoom := max min_zoom (min max_zoom zoom) in
      {| running := running v; dragging := dragging v;
         offset_x := offset_x v; offset_y := offset_y v;
         last_mouse_x := last_mouse_x v; last_mouse_y := last_mouse_y v;
         zoom := zoom |}
  | _ => v
  end.

(** One iteration of [for event in pygame.event.get()]. *)
Definition handle_event (v : view) (e : event) : option view :=
  match dispatch v e with
  | Some v' => Some (wheel v' e)
  | None => None
  end.

(** The whole [for] loop over one batch of events. *)
Fixpoint handle_events (v : view) (events : list event) : option view :=
  match events with
  | [] => Some v
  | e :: events' =>
      match handle_event v e with
      | Some v' => handle_events v' events'
      | None => None
      end
  end.

(** What the window loop has come to after a finite number of batches
    returned by [pygame.event.get()]: the frames are the contents of the
    screen at each [pygame.display.flip()]. *)
Inductive run : Type :=
| Closed (frames : list Surface)
| Running (v : view) (frames : list Surface)
| Crashed (e : error) (frames : list Surface).

(** Lines 121-143: [while running], one batch of events per iteration;
    [screen.fill] empties the surface before the tree is drawn. *)
Fixpoint main_loop (font : font_metrics) (tree price_tree : grid)
    (height time_steps : Z) (batches : list (list event)) (v : view)
    (frames : list Surface) : run :=
  if running v then
    match batches with
    | [] => Running v frames
    | events :: batches' =>
        match handle_events v events with
        | None => Crashed TypeError frames
        | Some v' =>
            match draw_tree font [] tree price_tree height time_steps
                            (IZR (offset_x v')) (IZR (offset_y v')) (zoom v')
            with
            | Raise e => Crashed (Builtin e) frames
            | Ok screen =>
                main_loop font tree price_tree height time_steps batches' v'
                          (frames ++ [screen])
            end
        end
    end
  else Closed frames.

(** [visualize_binomial_tree(stock_price, ex_price, uptick, downtick,
    risk_free_pct, time_steps, delta_time_step)], lines 102-145, on the
    batches of events that pygame delivers.  Opening and closing the
    window ([pygame.init], [set_mode], [set_caption], [pygame.quit])
    leave no trace in what is modelled. *)
Definition visualize_binomial_tree (font : font_metrics)
    (stock_price ex_price uptick downtick risk_free_pct : R)
    (time_steps : Z) (delta_time_step : R)
    (batches : list (list event)) (w : world) : run * world :=
  let height := 720%Z in
  match option_tree stock_price ex_price uptick downtick risk_free_pct
                    time_steps delta_time_step w with
  | (Raise e, w') => (Crashed (Builtin e) [], w')
  | (Ok (tree, price_tree), w') =>
      (main_loop font tree price_tree height time_steps batches
                 initial_view [], w')
  end.

(** ** Positions on the screen *)

(** The centre of node [(step, j)] for given spacings. *)
Definition node_x (offset_x h_dist : R) (step : Z) : R :=
  offset_x + h_dist * IZR step.

Definition node_y (height : Z) (offset_y v_dist : R) (step j : Z) : R :=
  offset_y + v_dist * IZR (step - 2 * j) + IZR (height / 2).

(** The spacings and the radius that [draw_tree] derives. *)
Definition h_dist_of (font : font_metrics) (stock_tree : grid) (zoom : R) : R :=
  IZR (max_int (widest_label font (int (12 * zoom)) stock_tree) 50) * zoom.

Definition v_dist_of (height time_steps : Z) (zoom : R) : R :=
  IZR (max_int 30 (height / (2 * time_steps))) * zoom.

Definition node_radius_of (zoom : R) : R := max 10 (20 * zoom).

(** What [draw_node] adds to the screen for node [(step, j)] holding the
    stock price [s] and the option value [o]: the edges to the parents,
    the circle and the two labels. *)
Definition node_edges (height : Z) (offset_x offset_y h_dist v_dist : R)
    (step j : Z) : list draw_cmd :=
  (if ((0 <? step) && (0 <? j))%Z
   then [line white
              (node_x offset_x h_dist step, node_y height offset_y v_dist step j)
              (node_x offset_x h_dist (step - 1),
               node_y height offset_y v_dist (step - 1) (j - 1))]
   else [])
  ++
  (if ((0 <? step) && (j <? step))%Z
   then [line white
              (node_x offset_x h_dist step, node_y height offset_y v_dist step j)
              (node_x offset_x h_dist (step - 1),
               node_y height offset_y v_dist (step - 1) j)]
   else []).

Definition node_marks (font_size height : Z)
    (offset_x offset_y zoom h_dist v_dist node_radius : R)
    (step j : Z) (s o : R) : list draw_cmd :=
  [circle blue
          (node_x offset_x h_dist step, node_y height offset_y v_dist step j)
          node_radius;
   blit (stock_price_text font_size s)
        (node_x offset_x h_dist step - 10 * zoom,
         node_y height offset_y v_dist step j - 20 * zoom);
   blit (option_price_text font_size o)
        (node_x offset_x h_dist step - 10 * zoom,
         node_y height offset_y v_dist step j + 10 * zoom)].

Definition node_cmds (font_size height : Z)
    (offset_x offset_y zoom h_dist v_dist node_radius : R)
    (step j : Z) (s o : R) : list draw_cmd :=
  node_edges height offset_x offset_y h_dist v_dist step j
  ++ node_marks font_size height offset_x offset_y zoom h_dist v_dist
                node_radius step j s o.

(** The nodes of rows [0..n] in drawing order. *)
Definition frame_cmds (font_size height : Z)
    (offset_x offset_y zoom h_dist v_dist node_radius : R)
    (stock_tree option_tree : grid) (rows : nat) : list draw_cmd :=
  flat_map (fun step =>
    flat_map (fun j =>
      node_cmds font_size height offset_x offset_y zoom h_dist v_dist
                node_radius (Z.of_nat step) (Z.of_nat j)
                (cell stock_tree step j) (cell option_tree step j))
    (seq 0 (S step)))
  (seq 0 rows).

Definition is_line (c : draw_cmd) : bool :=
  match c with line _ _ _ => true | _ => false end.

Definition is_circle (c : draw_cmd) : bool :=
  match c with circle _ _ _ => true | _ => false end.

Definition is_blit (c : draw_cmd) : bool :=
  match c with blit _ _ => true | _ => false end.

(** How many commands of a frame satisfy a test. *)
Definition count (test : draw_cmd -> bool) (frame : Surface) : nat :=
  List.length (filter test frame).

(** The invariant of the window loop: the zoom factor is within its
    limits, and while a drag is in progress the last mouse position is
    known. *)
Definition view_ok (v : view) : Prop :=
  min_zoom <= zoom v <= max_zoom /\
  (dragging v = true -> last_mouse_x v <> None /\ last_mouse_y v <> None).

(** The frames shown so far. *)
Definition frames_of (r : run) : list Surface :=
  match r with
  | Closed frames => frames
  | Running _ frames => frames
  | Crashed _ frames => frames
  end.


(** ** Proof automation *)

(** [k + 1] on integers as the successor of a natural number. *)
Ltac of_nat_succ k :=
  replace (Z.of_nat k + 1)%Z with (Z.of_nat (Datatypes.S k)) by lia.

(** Case analysis on every [max] of the goal, and on grids of at most
    four rows. *)
Ltac max_cases :=
  unfold max;
  repeat match goal with
         | |- context [Rlt_dec ?a ?b] => destruct (Rlt_dec a b)
         end;
  try lra.

Ltac small_grid :=
  match goal with
  | |- tri _ _ =>
      split; [reflexivity|];
      let i := fresh "i" in let H := fresh "H" in
      intros i H; do 4 (try destruct i as [|i]); try reflexivity; lia
  | |- forall i j, (j <= i <= _)%nat -> _ =>
      let i := fresh "i" in let j := fresh "j" in let H := fresh "H" in
      intros i j H;
      do 4 (try destruct i as [|i]); do 4 (try destruct j as [|j]); try lia;
      unfold cell, node_price; simpl; try lra
  | |- forall j, (j <= _)%nat -> _ =>
      let j := fresh "j" in let H := fresh "H" in
      intros j H; do 4 (try destruct j as [|j]); try lia;
      unfold cell; simpl; max_cases
  | |- forall i j, (i < _)%nat -> (j <= i)%nat -> _ =>
      let i := fresh "i" in let j := fresh "j" in
      let H := fresh "H" in let H' := fresh "H" in
      intros i j H H';
      do 4 (try destruct i as [|i]); do 4 (try destruct j as [|j]); try lia;
      unfold induced, cell; simpl
  end.

(** ** Facts about the runtime fragment *)

(** The indexing and ranges of Python on small inputs. *)
Example range_3 : range 3 = [0; 1; 2]%Z.
Proof. reflexivity. Qed.

Example range_desc_2 : range_desc 2 (-1) = [2; 1; 0]%Z.
Proof. reflexivity. Qed.

Example range_desc_below : range_desc (-2) (-1) = [].
Proof. reflexivity. Qed.

Example getitem_last : getitem [10; 20; 30]%Z (-1) = Ok 30%Z.
Proof. reflexivity. Qed.

Example getitem_past_end : getitem [10; 20; 30]%Z 3 = Raise IndexError.
Proof. reflexivity. Qed.

Example getitem_before_start : getitem [10; 20; 30]%Z (-4) = Raise IndexError.
Proof. reflexivity. Qed.

Example setitem_middle : setitem [10; 20; 30]%Z 1 7%Z = Ok [10; 7; 30]%Z.
Proof. reflexivity. Qed.

Example new_tree_2 : new_tree 2 = [[0]; [0; 0]; [0; 0; 0]].
Proof. reflexivity. Qed.

Lemma index_nat {A} (l : list A) (k : nat) :
  (k < List.length l)%nat -> index l (Z.of_nat k) = Ok k.
Proof.
  intros H. unfold index.
  destruct (Z.ltb_spec (Z.of_nat k) 0); [lia|].
  destruct (Z.ltb_spec (Z.of_nat k) 0); [lia|].
  destruct (Z.leb_spec (Z.of_nat (List.length l)) (Z.of_nat k)); [lia|].
  simpl. now rewrite Nat2Z.id.
Qed.

Lemma index_bound {A} (l : list A) (i : Z) (k : nat) :
  index l i = Ok k -> (k < List.length l)%nat.
Proof.
  unfold index.
  destruct (Z.ltb_spec i 0);
    match goal with |- context [(?a <? 0)%Z] => destruct (Z.ltb_spec a 0) end;
    match goal with |- context [(?a <=? ?b)%Z] => destruct (Z.leb_spec a b) end;
    simpl; intros E; inversion E; subst; lia.
Qed.

Lemma getitem_nat {A} (l : list A) (k : nat) (d : A) :
  (k < List.length l)%nat -> getitem l (Z.of_nat k) = Ok (nth k l d).
Proof.
  intros H. unfold getitem. rewrite index_nat by assumption. simpl.
  now rewrite (nth_error_nth' l d H).
Qed.

Lemma setitem_nat {A} (l : list A) (k : nat) (v : A) :
  (k < List.length l)%nat -> setitem l (Z.of_nat k) v = Ok (replace l k v).
Proof.
  intros H. unfold setitem. now rewrite index_nat by assumption.
Qed.

Lemma replace_length {A} (l : list A) (k : nat) (v : A) :
  List.length (replace l k v) = List.length l.
Proof.
  revert k. induction l as [|h t IH]; intros [|k]; simpl; auto.
Qed.

Lemma nth_replace_eq {A} (l : list A) (k : nat) (v d : A) :
  (k < List.length l)%nat -> nth k (replace l k v) d = v.
Proof.
  revert k. induction l as [|h t IH]; intros [|k]; simpl; intros H;
    try lia; auto. apply IH. lia.
Qed.

Lemma nth_replace_neq {A} (l : list A) (k k' : nat) (v d : A) :
  k' <> k -> nth k' (replace l k v) d = nth k' l d.
Proof.
  revert k k'. induction l as [|h t IH]; intros [|k] [|k']; simpl; intros H;
    try congruence; auto.
Qed.

Lemma pow_nat (x : R) (k : nat) : pow x (Z.of_nat k) = Ok (x ^ k).
Proof.
  unfold pow. destruct (Z.ltb_spec (Z.of_nat k) 0); [lia|].
  now rewrite <- pow_powerRZ.
Qed.

Lemma max_Rmax (a b : R) : max a b = Rmax a b.
Proof.
  unfold max, Rmax. destruct (Rlt_dec a b), (Rle_dec a b); lra.
Qed.

Lemma max_0_nonneg (x : R) : 0 <= max 0 x.
Proof. unfold max. destruct (Rlt_dec 0 x); lra. Qed.

Lemma range_nat (n : nat) : range (Z.of_nat n) = List.map Z.of_nat (seq 0 n).
Proof. unfold range. now rewrite Nat2Z.id. Qed.

Lemma range_nonpos (n : Z) : (n <= 0)%Z -> range n = [].
Proof.
  intros H. unfold range. replace (Z.to_nat n) with 0%nat by lia. reflexivity.
Qed.

Lemma range_desc_nat (n : nat) :
  range_desc (Z.of_nat n - 1) (-1) =
  List.map (fun k => (Z.of_nat n - 1 - Z.of_nat k)%Z) (seq 0 n).
Proof.
  unfold range_desc.
  replace (Z.to_nat (Z.of_nat n - 1 - -1)) with n by lia. reflexivity.
Qed.

Lemma range_desc_empty (start stop : Z) :
  (start <= stop)%Z -> range_desc start stop = [].
Proof.
  intros H. unfold range_desc.
  replace (Z.to_nat (start - stop)) with 0%nat by lia. reflexivity.
Qed.

(** ** Loop rules *)

Section LoopRules.
Context {S : Type} (body : Z -> S -> result S).

Lemma for_each_seq (I : nat -> S -> Prop) (f : nat -> Z) (m a : nat) (s : S) :
  I a s ->
  (forall k t, (a <= k < a + m)%nat -> I k t ->
               exists t', body (f k) t = Ok t' /\ I (Datatypes.S k) t') ->
  exists s', for_each (List.map f (seq a m)) body s = Ok s' /\ I (a + m)%nat s'.
Proof.
  revert a s. induction m as [|m IH]; intros a s H0 Hstep.
  - exists s. rewrite Nat.add_0_r. now split.
  - simpl. destruct (Hstep a s) as (t & Ht & HI); [lia|assumption|].
    rewrite Ht. simpl.
    destruct (IH (Datatypes.S a) t HI) as (s' & Hs' & HI').
    + intros k u Hk. apply Hstep. lia.
    + exists s'. split; [assumption|].
      now replace (a + Datatypes.S m)%nat with (Datatypes.S a + m)%nat by lia.
Qed.

(** [for k in range(n)] with invariant [I k] before iteration [k]. *)
Lemma for_range (I : nat -> S -> Prop) (n : nat) (s : S) :
  I 0%nat s ->
  (forall k t, (k < n)%nat -> I k t ->
               exists t', body (Z.of_nat k) t = Ok t' /\ I (Datatypes.S k) t') ->
  exists s', for_each (range (Z.of_nat n)) body s = Ok s' /\ I n s'.
Proof.
  intros H0 Hstep. rewrite range_nat.
  apply (for_each_seq I Z.of_nat n 0 s H0).
  intros k t Hk. apply Hstep. lia.
Qed.

(** [for x in range(n - 1, -1, -1)]: iteration [k] runs the body at
    [n - 1 - k]. *)
Lemma for_range_desc (I : nat -> S -> Prop) (n : nat) (s : S) :
  I 0%nat s ->
  (forall k t, (k < n)%nat -> I k t ->
               exists t', body (Z.of_nat n - 1 - Z.of_nat k)%Z t = Ok t'
                          /\ I (Datatypes.S k) t') ->
  exists s', for_each (range_desc (Z.of_nat n - 1) (-1)) body s = Ok s'
             /\ I n s'.
Proof.
  intros H0 Hstep. rewrite range_desc_nat.
  apply (for_each_seq I (fun k => (Z.of_nat n - 1 - Z.of_nat k)%Z) n 0 s H0).
  intros k t Hk. apply Hstep. lia.
Qed.
End LoopRules.

(** ** Grids: shape, reads and writes *)

Lemma getitem2_nat (g : grid) (n i j : nat) :
  tri g n -> (j <= i <= n)%nat ->
  getitem2 g (Z.of_nat i) (Z.of_nat j) = Ok (cell g i j).
Proof.
  intros [Hlen Hrow] Hij. unfold getitem2, cell.
  rewrite (getitem_nat g i []) by lia. simpl.
  apply getitem_nat. rewrite Hrow; lia.
Qed.

Lemma setitem2_nat (g : grid) (n i j : nat) (v : R) :
  tri g n -> (j <= i <= n)%nat ->
  exists g',
    setitem2 g (Z.of_nat i) (Z.of_nat j) v = Ok g' /\
    tri g' n /\
    cell g' i j = v /\
    (forall i' j', (i' <> i \/ j' <> j) -> cell g' i' j' = cell g i' j').
Proof.
  intros [Hlen Hrow] Hij.
  exists (replace g i (replace (nth i g []) j v)).
  assert (Hi : (i < List.length g)%nat) by lia.
  assert (Hj : (j < List.length (nth i g []))%nat) by (rewrite Hrow; lia).
  split.
  { unfold setitem2. rewrite (getitem_nat g i []) by assumption. simpl.
    rewrite setitem_nat by assumption. simpl.
    now apply setitem_nat. }
  split.
  { split.
    - now rewrite replace_length.
    - intros i' Hi'. destruct (Nat.eq_dec i' i) as [->|Hne].
      + rewrite nth_replace_eq by assumption.
        rewrite replace_length. now apply Hrow.
      + rewrite nth_replace_neq by assumption. now apply Hrow. }
  split.
  { unfold cell. rewrite nth_replace_eq by assumption.
    now apply nth_replace_eq. }
  intros i' j' Hne. unfold cell.
  destruct (Nat.eq_dec i' i) as [->|Hi'].
  - rewrite nth_replace_eq by assumption.
    apply nth_replace_neq. destruct Hne; congruence.
  - now rewrite nth_replace_neq by assumption.
Qed.

Lemma new_tree_tri (n : nat) : tri (new_tree (Z.of_nat n)) n.
Proof.
  unfold new_tree.
  replace (Z.of_nat n + 1)%Z with (Z.of_nat (Datatypes.S n)) by lia.
  rewrite range_nat. split.
  - now rewrite !length_map, length_seq.
  - intros i Hi.
    rewrite map_map.
    rewrite (nth_indep _ [] ((fun x => List.map (fun _ => 0) (range (Z.of_nat x + 1))) 0%nat))
      by (rewrite length_map, length_seq; lia).
    rewrite (map_nth (fun x => List.map (fun _ => 0) (range (Z.of_nat x + 1)))).
    rewrite seq_nth by lia. simpl.
    replace (Z.of_nat i + 1)%Z with (Z.of_nat (Datatypes.S i)) by lia.
    now rewrite range_nat, !length_map, length_seq.
Qed.

Lemma new_tree_negative (n : Z) : (n < 0)%Z -> new_tree n = [].
Proof.
  intros H. unfold new_tree. now rewrite range_nonpos by lia.
Qed.

(** Two grids of the same triangular shape that agree on every node are
    the same list of lists. *)
Lemma tri_ext (g g' : grid) (n : nat) :
  tri g n -> tri g' n ->
  (forall i j, (j <= i <= n)%nat -> cell g i j = cell g' i j) ->
  g = g'.
Proof.
  intros [Hl Hr] [Hl' Hr'] Hc.
  apply (nth_ext g g' [] []); [congruence|].
  intros i Hi. rewrite Hl in Hi.
  apply (nth_ext _ _ 0 0).
  - rewrite Hr, Hr' by lia. reflexivity.
  - intros j Hj. rewrite Hr in Hj by lia. apply Hc. lia.
Qed.

(** ** The three passes *)

Lemma fill_stock_tree_spec (stock_price uptick downtick : R) (n : nat) (g : grid) :
  tri g n ->
  exists g',
    fill_stock_tree stock_price uptick downtick (Z.of_nat n) g = Ok g' /\
    tri g' n /\
    forall i j, (j <= i <= n)%nat ->
                cell g' i j = node_price stock_price uptick downtick i j.
Proof.
  intros Hg. unfold fill_stock_tree. of_nat_succ n.
  set (P := node_price stock_price uptick downtick).
  destruct (for_range
    (fun step stock_tree =>
       for_each (range (step + 1))
         (fun j stock_tree =>
            uj <- pow uptick j ;;
            dk <- pow downtick (step - j) ;;
            setitem2 stock_tree step j (stock_price * uj * dk)) stock_tree)
    (fun k t => tri t n /\
                forall i j, (i < k)%nat -> (j <= i)%nat -> cell t i j = P i j)
    (Datatypes.S n) g) as (g' & Hrun & Ht & Hc).
  - split; [assumption|]. intros; lia.
  - intros k t Hk [Ht Hc]. of_nat_succ k.
    destruct (for_range
      (fun j stock_tree =>
         uj <- pow uptick j ;;
         dk <- pow downtick (Z.of_nat k - j) ;;
         setitem2 stock_tree (Z.of_nat k) j (stock_price * uj * dk))
      (fun m t' => tri t' n /\
         (forall i j, (i < k)%nat -> (j <= i)%nat -> cell t' i j = P i j) /\
         (forall j, (j < m)%nat -> cell t' k j = P k j))
      (Datatypes.S k) t) as (t' & Hrun' & Ht' & Hold & Hnew).
    + split; [assumption|]. split; [assumption|]. intros; lia.
    + intros m u Hm (Hu & Hold & Hnew).
      rewrite pow_nat. cbn [bind].
      replace (Z.of_nat k - Z.of_nat m)%Z with (Z.of_nat (k - m)) by lia.
      rewrite pow_nat. cbn [bind].
      destruct (setitem2_nat u n k m (stock_price * uptick ^ m * downtick ^ (k - m)) Hu)
        as (u' & Hset & Hu' & Hv & Hrest); [lia|].
      exists u'. split; [assumption|]. split; [assumption|]. split.
      * intros i j Hi Hj. rewrite Hrest by lia. now apply Hold.
      * intros j Hj. destruct (Nat.eq_dec j m) as [->|Hne].
        -- exact Hv.
        -- rewrite Hrest by lia. apply Hnew. lia.
    + exists t'. split; [assumption|]. split; [assumption|].
      intros i j Hi Hj. destruct (Nat.eq_dec i k) as [->|Hne].
      * apply Hnew. lia.
      * apply Hold; lia.
  - exists g'. split; [assumption|]. split; [assumption|].
    intros i j Hij. apply Hc; lia.
Qed.

Lemma fill_terminal_spec (ex_price : R) (n : nat) (stock_tree g : grid) :
  tri stock_tree n -> tri g n ->
  exists g',
    fill_terminal ex_price (Z.of_nat n) stock_tree g = Ok g' /\
    tri g' n /\
    forall j, (j <= n)%nat ->
              cell g' n j = max 0 (cell stock_tree n j - ex_price).
Proof.
  intros Hs Hg. unfold fill_terminal. of_nat_succ n.
  destruct (for_range
    (fun j option_tree =>
       s <- getitem2 stock_tree (Z.of_nat n) j ;;
       setitem2 option_tree (Z.of_nat n) j (max 0 (s - ex_price)))
    (fun m t => tri t n /\
       forall j, (j < m)%nat -> cell t n j = max 0 (cell stock_tree n j - ex_price))
    (Datatypes.S n) g) as (g' & Hrun & Ht & Hc).
  - split; [assumption|]. intros; lia.
  - intros m t Hm [Ht Hc].
    rewrite (getitem2_nat stock_tree n n m Hs) by lia. cbn [bind].
    destruct (setitem2_nat t n n m (max 0 (cell stock_tree n m - ex_price)) Ht)
      as (t' & Hset & Ht' & Hv & Hrest); [lia|].
    exists t'. split; [assumption|]. split; [assumption|].
    intros j Hj. destruct (Nat.eq_dec j m) as [->|Hne].
    + exact Hv.
    + rewrite Hrest by lia. apply Hc. lia.
  - exists g'. split; [assumption|]. split; [assumption|].
    intros j Hj. apply Hc. lia.
Qed.

Lemma induce_back_spec (p discount_factor : R) (n : nat) (g : grid) :
  tri g n ->
  exists g',
    induce_back p discount_factor (Z.of_nat n) g = Ok g' /\
    tri g' n /\
    (forall j, (j <= n)%nat -> cell g' n j = cell g n j) /\
    (forall i j, (i < n)%nat -> (j <= i)%nat -> induced p discount_factor g' i j).
Proof.
  intros Hg. unfold induce_back.
  set (Q := induced p discount_factor).
  destruct (for_range_desc
    (fun step option_tree =>
       for_each (range (step + 1))
         (fun j option_tree =>
            up_value <- getitem2 option_tree (step + 1) (j + 1) ;;
            down_value <- getitem2 option_tree (step + 1) j ;;
            let expected_value := p * up_value + (1 - p) * down_value in
            setitem2 option_tree step j (max 0 (discount_factor * expected_value)))
         option_tree)
    (fun k t => tri t n /\
       (forall j, (j <= n)%nat -> cell t n j = cell g n j) /\
       (forall i j, (n - k <= i < n)%nat -> (j <= i)%nat -> Q t i j))
    n g) as (g' & Hrun & Ht & Hlast & Hrec).
  - split; [assumption|]. split; [reflexivity|]. intros; lia.
  - intros k t Hk (Ht & Hlast & Hrec).
    set (s := (n - 1 - k)%nat).
    replace (Z.of_nat n - 1 - Z.of_nat k)%Z with (Z.of_nat s) by (unfold s; lia).
    of_nat_succ s.
    destruct (for_range
      (fun j option_tree =>
         up_value <- getitem2 option_tree (Z.of_nat (Datatypes.S s)) (j + 1) ;;
         down_value <- getitem2 option_tree (Z.of_nat (Datatypes.S s)) j ;;
         let expected_value := p * up_value + (1 - p) * down_value in
         setitem2 option_tree (Z.of_nat s) j (max 0 (discount_factor * expected_value)))
      (fun m t' => tri t' n /\
         (forall j, (j <= n)%nat -> cell t' n j = cell g n j) /\
         (forall i j, (n - k <= i < n)%nat -> (j <= i)%nat -> Q t' i j) /\
         (forall j, (j < m)%nat -> Q t' s j))
      (Datatypes.S s) t) as (t' & Hrun' & Ht' & Hlast' & Hrec' & Hnew).
    + split; [assumption|]. split; [assumption|]. split; [assumption|].
      intros; lia.
    + intros m u Hm (Hu & Hlast' & Hrec' & Hnew).
      of_nat_succ m.
      rewrite (getitem2_nat u n (Datatypes.S s) (Datatypes.S m) Hu) by (unfold s; lia).
      cbn [bind].
      rewrite (getitem2_nat u n (Datatypes.S s) m Hu) by (unfold s; lia).
      cbn [bind].
      destruct (setitem2_nat u n s m
                  (max 0 (discount_factor *
                          (p * cell u (Datatypes.S s) (Datatypes.S m) +
                           (1 - p) * cell u (Datatypes.S s) m))) Hu)
        as (u' & Hset & Hu' & Hv & Hrest); [unfold s; lia|].
      exists u'. split; [assumption|]. split; [assumption|].
      split; [|split].
      * intros j Hj. rewrite Hrest by (unfold s; lia). now apply Hlast'.
      * intros i j Hi Hj. unfold Q, induced.
        rewrite !Hrest by (unfold s; lia). now apply Hrec'.
      * intros j Hj. unfold Q, induced.
        destruct (Nat.eq_dec j m) as [->|Hne].
        -- rewrite Hv. now rewrite !Hrest by lia.
        -- rewrite !Hrest by lia. apply Hnew. lia.
    + exists t'. split; [assumption|]. split; [assumption|].
      split; [assumption|].
      intros i j Hi Hj. destruct (Nat.eq_dec i s) as [->|Hne].
      * apply Hnew. lia.
      * apply Hrec'; unfold s in *; lia.
  - exists g'. split; [assumption|]. split; [assumption|].
    split; [assumption|]. intros i j Hi Hj. apply Hrec; lia.
Qed.

(** ** The whole function *)

Lemma truediv_100 (x : R) : truediv x 100 = Ok (rate x).
Proof.
  unfold truediv, rate. destruct (Req_dec_T 100 0); [lra|reflexivity].
Qed.

Lemma truediv_prob (uptick downtick risk_free_pct delta_time_step : R) :
  uptick <> downtick ->
  truediv (exp (rate risk_free_pct * delta_time_step) - downtick)
          (uptick - downtick)
  = Ok (prob uptick downtick risk_free_pct delta_time_step).
Proof.
  intros H. unfold truediv, prob.
  destruct (Req_dec_T (uptick - downtick) 0); [lra|reflexivity].
Qed.

(** With [uptick <> downtick] and a non-negative number of steps the
    three passes succeed, and the grids they leave are characterised
    node by node. *)
Lemma option_tree_grids_ok
    (stock_price ex_price uptick downtick risk_free_pct : R) (n : nat)
    (delta_time_step : R) :
  uptick <> downtick ->
  exists sg vg,
    option_tree_grids stock_price ex_price uptick downtick risk_free_pct
                      (Z.of_nat n) delta_time_step
    = Ok (sg, vg, cell vg 0 0) /\
    tri sg n /\ tri vg n /\
    (forall i j, (j <= i <= n)%nat ->
        cell sg i j = node_price stock_price uptick downtick i j) /\
    (forall j, (j <= n)%nat -> cell vg n j = max 0 (cell sg n j - ex_price)) /\
    (forall i j, (i < n)%nat -> (j <= i)%nat ->
        induced (prob uptick downtick risk_free_pct delta_time_step)
                (DF risk_free_pct delta_time_step) vg i j).
Proof.
  intros Hud. unfold option_tree_grids.
  rewrite truediv_100. cbn [bind].
  rewrite truediv_prob by assumption. cbn [bind].
  destruct (fill_stock_tree_spec stock_price uptick downtick n _ (new_tree_tri n))
    as (sg & Hsg & Tsg & Csg).
  rewrite Hsg. cbn [bind].
  destruct (fill_terminal_spec ex_price n sg _ Tsg (new_tree_tri n))
    as (tg & Htg & Ttg & Ctg).
  rewrite Htg. cbn [bind].
  destruct (induce_back_spec (prob uptick downtick risk_free_pct delta_time_step)
              (DF risk_free_pct delta_time_step) n tg Ttg)
    as (vg & Hvg & Tvg & Lvg & Cvg).
  fold (DF risk_free_pct delta_time_step). rewrite Hvg. cbn [bind].
  change 0%Z with (Z.of_nat 0).
  rewrite (getitem2_nat vg n 0 0 Tvg) by lia. cbn [bind].
  exists sg, vg.
  split; [reflexivity|]. split; [assumption|]. split; [assumption|].
  split; [assumption|]. split; [|assumption].
  intros j Hj. rewrite Lvg by assumption. now apply Ctg.
Qed.

Lemma option_tree_ok
    (stock_price ex_price uptick downtick risk_free_pct : R) (n : nat)
    (delta_time_step : R) (w : world) :
  uptick <> downtick ->
  exists sg vg,
    option_tree stock_price ex_price uptick downtick risk_free_pct
                (Z.of_nat n) delta_time_step w
    = (Ok (sg, vg), report (cell vg 0 0) w) /\
    tri sg n /\ tri vg n /\
    (forall i j, (j <= i <= n)%nat ->
        cell sg i j = node_price stock_price uptick downtick i j) /\
    (forall j, (j <= n)%nat -> cell vg n j = max 0 (cell sg n j - ex_price)) /\
    (forall i j, (i < n)%nat -> (j <= i)%nat ->
        induced (prob uptick downtick risk_free_pct delta_time_step)
                (DF risk_free_pct delta_time_step) vg i j).
Proof.
  intros Hud.
  destruct (option_tree_grids_ok stock_price ex_price uptick downtick
              risk_free_pct n delta_time_step Hud) as (sg & vg & Hrun & Hrest).
  exists sg, vg. split; [|exact Hrest].
  unfold option_tree. now rewrite Hrun.
Qed.

(** The two failures. *)
Lemma option_tree_degenerate
    (stock_price ex_price uptick downtick risk_free_pct : R) (time_steps : Z)
    (delta_time_step : R) (w : world) :
  uptick = downtick ->
  option_tree stock_price ex_price uptick downtick risk_free_pct
              time_steps delta_time_step w
  = (Raise ZeroDivisionError, w).
Proof.
  intros ->. unfold option_tree, option_tree_grids.
  rewrite truediv_100. cbn [bind]. unfold truediv.
  destruct (Req_dec_T (downtick - downtick) 0); [reflexivity|lra].
Qed.

Lemma option_tree_negative_steps
    (stock_price ex_price uptick downtick risk_free_pct : R) (time_steps : Z)
    (delta_time_step : R) (w : world) :
  uptick <> downtick -> (time_steps < 0)%Z ->
  option_tree stock_price ex_price uptick downtick risk_free_pct
              time_steps delta_time_step w
  = (Raise IndexError, w).
Proof.
  intros Hud Hneg. unfold option_tree, option_tree_grids.
  rewrite truediv_100. cbn [bind].
  rewrite truediv_prob by assumption. cbn [bind].
  rewrite new_tree_negative by assumption.
  unfold fill_stock_tree, fill_terminal, induce_back.
  rewrite range_nonpos by lia. cbn [for_each bind].
  rewrite range_desc_empty by lia. cbn [for_each bind].
  reflexivity.
Qed.

(** Python indexing at in-range, non-negative positions. *)
Lemma getitem2_Z (g : grid) (n : nat) (i j : Z) :
  tri g n -> (0 <= i <= Z.of_nat n)%Z -> (0 <= j <= i)%Z ->
  getitem2 g i j = Ok (cell g (Z.to_nat i) (Z.to_nat j)).
Proof.
  intros Hg Hi Hj.
  rewrite <- (Z2Nat.id i) at 1 by lia.
  rewrite <- (Z2Nat.id j) at 1 by lia.
  apply (getitem2_nat g n); [assumption|lia].
Qed.


(** The node equations determine the value grid. *)
Lemma induced_unique (p df ex_price : R) (n : nat) (sg vg vg' : grid) :
  (forall j, (j <= n)%nat -> cell vg n j = max 0 (cell sg n j - ex_price)) ->
  (forall j, (j <= n)%nat -> cell vg' n j = max 0 (cell sg n j - ex_price)) ->
  (forall i j, (i < n)%nat -> (j <= i)%nat -> induced p df vg i j) ->
  (forall i j, (i < n)%nat -> (j <= i)%nat -> induced p df vg' i j) ->
  forall i j, (j <= i <= n)%nat -> cell vg i j = cell vg' i j.
Proof.
  intros Ht Ht' Hi Hi'.
  assert (H : forall k i j, (i + k = n)%nat -> (j <= i)%nat ->
                            cell vg i j = cell vg' i j).
  { induction k as [|k IH]; intros i j Hk Hj.
    - replace i with n by lia. rewrite Ht, Ht' by lia. reflexivity.
    - rewrite (Hi i j), (Hi' i j) by lia.
      rewrite (IH (S i) (S j)), (IH (S i) j) by lia. reflexivity. }
  intros i j Hij. apply (H (n - i)%nat); lia.
Qed.

(** A pair of grids that satisfies the node equations is the result. *)
Lemma option_tree_exact
    (stock_price ex_price uptick downtick risk_free_pct : R) (n : nat)
    (delta_time_step : R) (w : world) (sg vg : grid) :
  uptick <> downtick ->
  tri sg n -> tri vg n ->
  (forall i j, (j <= i <= n)%nat ->
      cell sg i j = node_price stock_price uptick downtick i j) ->
  (forall j, (j <= n)%nat -> cell vg n j = max 0 (cell sg n j - ex_price)) ->
  (forall i j, (i < n)%nat -> (j <= i)%nat ->
      induced (prob uptick downtick risk_free_pct delta_time_step)
              (DF risk_free_pct delta_time_step) vg i j) ->
  option_tree stock_price ex_price uptick downtick risk_free_pct
              (Z.of_nat n) delta_time_step w
  = (Ok (sg, vg), report (cell vg 0 0) w).
Proof.
  intros Hud Tsg Tvg Csg Cterm Cind.
  destruct (option_tree_ok stock_price ex_price uptick downtick risk_free_pct
              n delta_time_step w Hud)
    as (sg' & vg' & Hrun & Tsg' & Tvg' & Csg' & Cterm' & Cind').
  assert (Es : sg' = sg).
  { apply (tri_ext sg' sg n Tsg' Tsg). intros i j Hij.
    now rewrite Csg, Csg'. }
  subst sg'.
  assert (Ev : vg' = vg).
  { apply (tri_ext vg' vg n Tvg' Tvg).
    apply (induced_unique (prob uptick downtick risk_free_pct delta_time_step)
             (DF risk_free_pct delta_time_step) ex_price n sg); assumption. }
  subst vg'. exact Hrun.
Qed.

(** ** Concrete runs *)

Lemma rate_0 (delta_time_step : R) : rate 0 * delta_time_step = 0.
Proof. unfold rate. lra. Qed.

Lemma DF_0 (delta_time_step : R) : DF 0 delta_time_step = 1.
Proof.
  unfold DF. replace (- rate 0 * delta_time_step) with 0
    by (unfold rate; lra).
  apply exp_0.
Qed.

Lemma prob_0 (uptick downtick delta_time_step : R) :
  prob uptick downtick 0 delta_time_step = (1 - downtick) / (uptick - downtick).
Proof. unfold prob. now rewrite rate_0, exp_0. Qed.

(** [option_tree(1, 1, 3, 2, 0, 1, 1)]: here [p = -1]. *)
Lemma run_up3_down2 (w : world) :
  option_tree 1 1 3 2 0 1 1 w
  = (Ok ([[1]; [2; 3]], [[0]; [1; 2]]), report 0 w).
Proof.
  change 1%Z with (Z.of_nat 1).
  apply (option_tree_exact 1 1 3 2 0 1 1 w [[1]; [2; 3]] [[0]; [1; 2]]);
    try small_grid.
  - lra.
  - rewrite DF_0, prob_0. max_cases.
Qed.

(** [option_tree(1, 4, 3, 2, 0, 1, 1)]: out of the money at both leaves. *)
Lemma run_strike4 (w : world) :
  option_tree 1 4 3 2 0 1 1 w
  = (Ok ([[1]; [2; 3]], [[0]; [0; 0]]), report 0 w).
Proof.
  change 1%Z with (Z.of_nat 1).
  apply (option_tree_exact 1 4 3 2 0 1 1 w [[1]; [2; 3]] [[0]; [0; 0]]);
    try small_grid.
  - lra.
  - rewrite DF_0, prob_0. max_cases.
Qed.

(** [option_tree(1, 1, -2, -1, 0, 1, 1)]: negative factors. *)
Lemma run_negative_factors (w : world) :
  option_tree 1 1 (-2) (-1) 0 1 1 w
  = (Ok ([[1]; [-1; -2]], [[0]; [0; 0]]), report 0 w).
Proof.
  change 1%Z with (Z.of_nat 1).
  apply (option_tree_exact 1 1 (-2) (-1) 0 1 1 w
           [[1]; [-1; -2]] [[0]; [0; 0]]); try small_grid.
  - lra.
  - rewrite DF_0, prob_0. max_cases.
Qed.

(** ** Integer step counts *)

Lemma option_tree_ok_Z
    (stock_price ex_price uptick downtick risk_free_pct : R) (time_steps : Z)
    (delta_time_step : R) (w : world) :
  uptick <> downtick -> (0 <= time_steps)%Z ->
  exists sg vg,
    option_tree stock_price ex_price uptick downtick risk_free_pct
                time_steps delta_time_step w
    = (Ok (sg, vg), report (cell vg 0 0) w) /\
    tri sg (Z.to_nat time_steps) /\ tri vg (Z.to_nat time_steps) /\
    (forall i j, (j <= i <= Z.to_nat time_steps)%nat ->
        cell sg i j = node_price stock_price uptick downtick i j) /\
    (forall j, (j <= Z.to_nat time_steps)%nat ->
        cell vg (Z.to_nat time_steps) j
        = max 0 (cell sg (Z.to_nat time_steps) j - ex_price)) /\
    (forall i j, (i < Z.to_nat time_steps)%nat -> (j <= i)%nat ->
        induced (prob uptick downtick risk_free_pct delta_time_step)
                (DF risk_free_pct delta_time_step) vg i j).
Proof.
  intros Hud HN.
  pose proof (option_tree_ok stock_price ex_price uptick downtick risk_free_pct
                (Z.to_nat time_steps) delta_time_step w Hud) as H.
  rewrite Z2Nat.id in H by assumption. exact H.
Qed.

Lemma node_price_powerRZ (stock_price uptick downtick : R) (step j : Z) :
  (0 <= j <= step)%Z ->
  node_price stock_price uptick downtick (Z.to_nat step) (Z.to_nat j)
  = stock_price * powerRZ uptick j * powerRZ downtick (step - j).
Proof.
  intros H. unfold node_price.
  rewrite !pow_powerRZ.
  replace (Z.of_nat (Z.to_nat j)) with j by lia.
  replace (Z.of_nat (Z.to_nat step - Z.to_nat j)) with (step - j)%Z by lia.
  reflexivity.
Qed.

Lemma node_price_up (stock_price uptick downtick : R) (step j : nat) :
  0 < stock_price -> 0 < downtick -> downtick < uptick -> (j < step)%nat ->
  node_price stock_price uptick downtick step j
  < node_price stock_price uptick downtick step (S j).
Proof.
  intros HS Hd Hu Hj. unfold node_price.
  replace (step - j)%nat with (S (step - S j)) by lia.
  rewrite <- !tech_pow_Rmult.
  assert (Ha : 0 < uptick ^ j) by (apply pow_lt; lra).
  assert (Hb : 0 < downtick ^ (step - S j)) by (apply pow_lt; lra).
  revert Ha Hb.
  generalize (uptick ^ j) (downtick ^ (step - S j)). intros a b Ha Hb.
  assert (0 < stock_price * a * b)
    by (repeat apply Rmult_lt_0_compat; assumption).
  nra.
Qed.

Lemma node_price_bottom (stock_price uptick downtick : R) (step : nat) :
  0 < stock_price -> 0 < downtick -> downtick < 1 ->
  node_price stock_price uptick downtick (S step) 0
  < node_price stock_price uptick downtick step 0.
Proof.
  intros HS Hd Hd1. unfold node_price. rewrite !Nat.sub_0_r.
  rewrite <- tech_pow_Rmult, pow_O.
  assert (Hb : 0 < downtick ^ step) by (apply pow_lt; lra).
  revert Hb. generalize (downtick ^ step). intros b Hb.
  assert (0 < stock_price * b) by (apply Rmult_lt_0_compat; assumption).
  nra.
Qed.

Lemma node_price_top (stock_price uptick downtick : R) (step : nat) :
  0 < stock_price -> 1 < uptick ->
  node_price stock_price uptick downtick step step
  < node_price stock_price uptick downtick (S step) (S step).
Proof.
  intros HS Hu. unfold node_price. rewrite !Nat.sub_diag.
  rewrite <- tech_pow_Rmult, pow_O.
  assert (Ha : 0 < uptick ^ step) by (apply pow_lt; lra).
  revert Ha. generalize (uptick ^ step). intros a Ha.
  assert (0 < stock_price * a) by (apply Rmult_lt_0_compat; assumption).
  nra.
Qed.

Lemma Rmax_call_put (s k : R) : Rmax 0 (s - k) = Rmax 0 (k - s) -> s = k.
Proof.
  unfold Rmax. destruct (Rle_dec 0 (s - k)), (Rle_dec 0 (k - s)); lra.
Qed.

(** What a returned pair of grids satisfies, read off a call that
    returned. *)
Lemma option_tree_returned
    (stock_price ex_price uptick downtick risk_free_pct : R) (time_steps : Z)
    (delta_time_step : R) (w w' : world) (sg vg : grid) :
  option_tree stock_price ex_price uptick downtick risk_free_pct
              time_steps delta_time_step w
  = (Ok (sg, vg), w') ->
  uptick <> downtick /\ (0 <= time_steps)%Z /\
  w' = report (cell vg 0 0) w /\
  tri sg (Z.to_nat time_steps) /\ tri vg (Z.to_nat time_steps) /\
  (forall i j, (j <= i <= Z.to_nat time_steps)%nat ->
      cell sg i j = node_price stock_price uptick downtick i j) /\
  (forall j, (j <= Z.to_nat time_steps)%nat ->
      cell vg (Z.to_nat time_steps) j
      = max 0 (cell sg (Z.to_nat time_steps) j - ex_price)) /\
  (forall i j, (i < Z.to_nat time_steps)%nat -> (j <= i)%nat ->
      induced (prob uptick downtick risk_free_pct delta_time_step)
              (DF risk_free_pct delta_time_step) vg i j).
Proof.
  intros Hrun.
  destruct (Req_dec_T uptick downtick) as [E|Hud].
  { rewrite option_tree_degenerate in Hrun by assumption. discriminate. }
  destruct (Z_lt_le_dec time_steps 0) as [Hneg|HN].
  { rewrite option_tree_negative_steps in Hrun by assumption. discriminate. }
  destruct (option_tree_ok_Z stock_price ex_price uptick downtick risk_free_pct
              time_steps delta_time_step w Hud HN)
    as (sg' & vg' & Hrun' & Tsg & Tvg & Csg & Cterm & Cind).
  rewrite Hrun' in Hrun. injection Hrun as -> -> <-.
  repeat (split; [assumption || reflexivity|]). assumption.
Qed.



(** ** Properties of the returned grids *)

(** C1.  With [uptick <> downtick] and at least one step, [option_tree]
    returns, and its value grid satisfies the backward-induction
    recurrence: for every [step] from [time_steps - 1] down to [0] and
    every [j] in [0..step],
    [value(step, j) = max(0, DF * (p * value(step+1, j+1) + (1 - p) * value(step+1, j)))]
    with [DF = exp(-r * dt)], [p = (exp(r * dt) - d) / (u - d)] and
    [r = risk_free_pct / 100]; the printed root price is [value(0, 0)]. *)
Theorem backward_induction_recurrence
    (stock_price ex_price uptick downtick risk_free_pct : R) (time_steps : Z)
    (delta_time_step : R) (w : world) :
  uptick <> downtick -> (1 <= time_steps)%Z ->
  exists sg vg root,
    option_tree stock_price ex_price uptick downtick risk_free_pct
                time_steps delta_time_step w
    = (Ok (sg, vg), report root w) /\
    getitem2 vg 0 0 = Ok root /\
    forall step j, (0 <= step <= time_steps - 1)%Z -> (0 <= j <= step)%Z ->
      exists up_value down_value,
        getitem2 vg (step + 1) (j + 1) = Ok up_value /\
        getitem2 vg (step + 1) j = Ok down_value /\
        getitem2 vg step j
        = Ok (Rmax 0 (exp (- (risk_free_pct / 100) * delta_time_step) *
                      ((exp (risk_free_pct / 100 * delta_time_step) - downtick)
                         / (uptick - downtick) * up_value +
                       (1 - (exp (risk_free_pct / 100 * delta_time_step) - downtick)
                              / (uptick - downtick)) * down_value))).
Proof.
  intros Hud HN.
  destruct (option_tree_ok_Z stock_price ex_price uptick downtick risk_free_pct
              time_steps delta_time_step w Hud)
    as (sg & vg & Hrun & Tsg & Tvg & Csg & Cterm & Cind); [lia|].
  exists sg, vg, (cell vg 0 0). split; [exact Hrun|]. split.
  - apply (getitem2_Z vg (Z.to_nat time_steps) 0 0 Tvg); lia.
  - intros step j Hstep Hj.
    exists (cell vg (S (Z.to_nat step)) (S (Z.to_nat j))),
           (cell vg (S (Z.to_nat step)) (Z.to_nat j)).
    rewrite (getitem2_Z vg (Z.to_nat time_steps) (step + 1) (j + 1) Tvg) by lia.
    rewrite (getitem2_Z vg (Z.to_nat time_steps) (step + 1) j Tvg) by lia.
    rewrite (getitem2_Z vg (Z.to_nat time_steps) step j Tvg) by lia.
    replace (Z.to_nat (step + 1)) with (S (Z.to_nat step)) by lia.
    replace (Z.to_nat (j + 1)) with (S (Z.to_nat j)) by lia.
    repeat split. f_equal.
    rewrite <- max_Rmax.
    apply (Cind (Z.to_nat step) (Z.to_nat j)); lia.
Qed.

Lemma backward_induction_recurrence_witness :
  3 <> 2 /\ (1 <= 1)%Z /\
  exists sg vg root,
    option_tree 1 1 3 2 0 1 1 script_world = (Ok (sg, vg), report root script_world) /\
    getitem2 vg 0 0 = Ok root /\
    forall step j, (0 <= step <= 1 - 1)%Z -> (0 <= j <= step)%Z ->
      exists up_value down_value,
        getitem2 vg (step + 1) (j + 1) = Ok up_value /\
        getitem2 vg (step + 1) j = Ok down_value /\
        getitem2 vg step j
        = Ok (Rmax 0 (exp (- (0 / 100) * 1) *
                      ((exp (0 / 100 * 1) - 2) / (3 - 2) * up_value +
                       (1 - (exp (0 / 100 * 1) - 2) / (3 - 2)) * down_value))).
Proof.
  split; [lra|]. split; [lia|].
  apply (backward_induction_recurrence 1 1 3 2 0 1 1 script_world); [lra|lia].
Defined.



(** C3.  With [uptick <> downtick] and [time_steps >= 0], the last row of
    the returned value grid is the clamped call payoff of the last row of
    the returned stock grid:
    [value(N, j) = max(0, price(N, j) - ex_price)] for every [j] in
    [0..N]. *)
Theorem terminal_row_call_payoff
    (stock_price ex_price uptick downtick risk_free_pct : R) (time_steps : Z)
    (delta_time_step : R) (w : world) :
  uptick <> downtick -> (0 <= time_steps)%Z ->
  exists sg vg w',
    option_tree stock_price ex_price uptick downtick risk_free_pct
                time_steps delta_time_step w
    = (Ok (sg, vg), w') /\
    forall j, (0 <= j <= time_steps)%Z ->
      exists price,
        getitem2 sg time_steps j = Ok price /\
        getitem2 vg time_steps j = Ok (Rmax 0 (price - ex_price)).
Proof.
  intros Hud HN.
  destruct (option_tree_ok_Z stock_price ex_price uptick downtick risk_free_pct
              time_steps delta_time_step w Hud HN)
    as (sg & vg & Hrun & Tsg & Tvg & Csg & Cterm & Cind).
  exists sg, vg, (report (cell vg 0 0) w). split; [exact Hrun|].
  intros j Hj.
  exists (cell sg (Z.to_nat time_steps) (Z.to_nat j)).
  rewrite (getitem2_Z sg (Z.to_nat time_steps) time_steps j Tsg) by lia.
  rewrite (getitem2_Z vg (Z.to_nat time_steps) time_steps j Tvg) by lia.
  split; [reflexivity|]. f_equal.
  rewrite <- max_Rmax. apply Cterm. lia.
Qed.

Lemma terminal_row_call_payoff_witness :
  3 <> 2 /\ (0 <= 1)%Z /\
  exists sg vg w',
    option_tree 1 1 3 2 0 1 1 script_world = (Ok (sg, vg), w') /\
    forall j, (0 <= j <= 1)%Z ->
      exists price,
        getitem2 sg 1 j = Ok price /\
        getitem2 vg 1 j = Ok (Rmax 0 (price - 1)).
Proof.
  split; [lra|]. split; [lia|].
  apply (terminal_row_call_payoff 1 1 3 2 0 1 1 script_world); [lra|lia].
Defined.

(** ** Failures *)

(** C4, as stated, fails.  A degenerate lattice ([uptick == downtick])
    ends in a raw [ZeroDivisionError], a negative step count in a raw
    [IndexError], and negative factors are accepted: the grids are
    returned and the root is printed. *)
Lemma no_validation_counterexample :
  option_tree 1 1 2 2 0 1 1 script_world
  = (Raise ZeroDivisionError, script_world) /\
  option_tree 1 1 3 2 0 (-1) 1 script_world
  = (Raise IndexError, script_world) /\
  option_tree 1 1 (-2) (-1) 0 1 1 script_world
  = (Ok ([[1]; [-1; -2]], [[0]; [0; 0]]), report 0 script_world).
Proof.
  split; [|split].
  - now apply option_tree_degenerate.
  - apply option_tree_negative_steps; [lra|lia].
  - apply run_negative_factors.
Qed.

(** C4, amended.  [option_tree] validates nothing and raises no
    [ValidationError]; what a call does is decided by its operators
    alone.  A call that returns grids has [uptick - downtick != 0] and
    [time_steps >= 0], and nothing more is asked of the factors (they may
    be negative or zero).  A call that ends in [ZeroDivisionError] has
    [uptick - downtick == 0]: the error is the raw one of the division
    on line 44.  A call that ends in [IndexError] has
    [uptick - downtick != 0] and [time_steps < 0]: the error is the raw
    one of reading the root on line 63, after the loops.  A call that
    fails prints nothing. *)
Theorem option_tree_unvalidated
    (stock_price ex_price uptick downtick risk_free_pct : R) (time_steps : Z)
    (delta_time_step : R) (w w' : world) (outcome : result (grid * grid)) :
  option_tree stock_price ex_price uptick downtick risk_free_pct
              time_steps delta_time_step w
  = (outcome, w') ->
  match outcome with
  | Raise ZeroDivisionError => uptick - downtick = 0 /\ w' = w
  | Raise IndexError =>
      uptick - downtick <> 0 /\ (time_steps < 0)%Z /\ w' = w
  | Ok (sg, vg) =>
      uptick - downtick <> 0 /\ (0 <= time_steps)%Z /\
      Z.of_nat (List.length sg) = (time_steps + 1)%Z /\
      Z.of_nat (List.length vg) = (time_steps + 1)%Z
  end.
Proof.
  intros Hrun.
  destruct (Req_dec_T uptick downtick) as [E|Hud].
  - rewrite option_tree_degenerate in Hrun by assumption.
    injection Hrun as <- <-. split; [lra|reflexivity].
  - destruct (Z_lt_le_dec time_steps 0) as [Hneg|HN].
    + rewrite option_tree_negative_steps in Hrun by assumption.
      injection Hrun as <- <-.
      split; [lra|]. split; [assumption|reflexivity].
    + destruct (option_tree_ok_Z stock_price ex_price uptick downtick
                  risk_free_pct time_steps delta_time_step w Hud HN)
        as (sg & vg & Hrun' & [Ls _] & [Lv _] & _).
      rewrite Hrun' in Hrun. injection Hrun as <- <-.
      split; [lra|]. split; [assumption|]. split; lia.
Qed.

Lemma option_tree_unvalidated_witness :
  option_tree 1 1 (-2) (-1) 0 1 1 script_world
  = (Ok ([[1]; [-1; -2]], [[0]; [0; 0]]), report 0 script_world) /\
  (-2 - -1 <> 0 /\ (0 <= 1)%Z /\
   Z.of_nat (List.length [[1]; [-1; -2]]) = (1 + 1)%Z /\
   Z.of_nat (List.length [[0]; [0; 0]]) = (1 + 1)%Z).
Proof.
  split; [apply run_negative_factors|].
  exact (option_tree_unvalidated 1 1 (-2) (-1) 0 1 1 script_world
           (report 0 script_world)
           (Ok ([[1]; [-1; -2]], [[0]; [0; 0]]))
           (run_negative_factors script_world)).
Defined.

(** C5, as stated, fails.  [option_tree(1, 1, 3, 2, 0, 1, 1)] has
    [p = -1], outside [0, 1], and both grids are returned. *)
Lemma no_arbitrage_check_counterexample :
  prob 3 2 0 1 = -1 /\
  ~ (0 <= prob 3 2 0 1 <= 1) /\
  option_tree 1 1 3 2 0 1 1 script_world
  = (Ok ([[1]; [2; 3]], [[0]; [1; 2]]), report 0 script_world).
Proof.
  assert (Hp : prob 3 2 0 1 = -1) by (rewrite prob_0; lra).
  split; [exact Hp|]. split.
  - rewrite Hp. lra.
  - apply run_up3_down2.
Qed.

(** C5, amended.  The code never compares [p] with [0] or [1] and raises
    no [ArbitrageError]: a [p] outside [0, 1] is used like any other.
    Whenever a call whose [p] lies outside [0, 1] returns, the grids
    returned are the ones induced with that [p], the terminal row being
    the call payoff and every node before maturity
    [max(0, DF * (p * up + (1 - p) * down))], and the root is printed. *)
Theorem out_of_range_probability_unchecked
    (stock_price ex_price uptick downtick risk_free_pct : R) (time_steps : Z)
    (delta_time_step : R) (w w' : world) (sg vg : grid) :
  ~ (0 <= (exp (risk_free_pct / 100 * delta_time_step) - downtick)
          / (uptick - downtick) <= 1) ->
  option_tree stock_price ex_price uptick downtick risk_free_pct
              time_steps delta_time_step w
  = (Ok (sg, vg), w') ->
  (exists root, getitem2 vg 0 0 = Ok root /\ w' = report root w) /\
  (forall j, (0 <= j <= time_steps)%Z ->
     exists price,
       getitem2 sg time_steps j = Ok price /\
       getitem2 vg time_steps j = Ok (Rmax 0 (price - ex_price))) /\
  (forall step j, (0 <= step <= time_steps - 1)%Z -> (0 <= j <= step)%Z ->
     exists up_value down_value,
       getitem2 vg (step + 1) (j + 1) = Ok up_value /\
       getitem2 vg (step + 1) j = Ok down_value /\
       getitem2 vg step j
       = Ok (Rmax 0 (exp (- (risk_free_pct / 100) * delta_time_step) *
                     ((exp (risk_free_pct / 100 * delta_time_step) - downtick)
                        / (uptick - downtick) * up_value +
                      (1 - (exp (risk_free_pct / 100 * delta_time_step) - downtick)
                             / (uptick - downtick)) * down_value)))).
Proof.
  intros _ Hrun.
  destruct (option_tree_returned _ _ _ _ _ _ _ _ _ _ _ Hrun)
    as (Hud & HN & -> & Tsg & Tvg & Csg & Cterm & Cind).
  split; [|split].
  - exists (cell vg 0 0). split; [|reflexivity].
    apply (getitem2_Z vg (Z.to_nat time_steps) 0 0 Tvg); lia.
  - intros j Hj.
    exists (cell sg (Z.to_nat time_steps) (Z.to_nat j)).
    rewrite (getitem2_Z sg (Z.to_nat time_steps) time_steps j Tsg) by lia.
    rewrite (getitem2_Z vg (Z.to_nat time_steps) time_steps j Tvg) by lia.
    split; [reflexivity|]. f_equal.
    rewrite <- max_Rmax. apply Cterm. lia.
  - intros step j Hstep Hj.
    exists (cell vg (S (Z.to_nat step)) (S (Z.to_nat j))),
           (cell vg (S (Z.to_nat step)) (Z.to_nat j)).
    rewrite (getitem2_Z vg (Z.to_nat time_steps) (step + 1) (j + 1) Tvg) by lia.
    rewrite (getitem2_Z vg (Z.to_nat time_steps) (step + 1) j Tvg) by lia.
    rewrite (getitem2_Z vg (Z.to_nat time_steps) step j Tvg) by lia.
    replace (Z.to_nat (step + 1)) with (S (Z.to_nat step)) by lia.
    replace (Z.to_nat (j + 1)) with (S (Z.to_nat j)) by lia.
    repeat split. f_equal.
    rewrite <- max_Rmax.
    apply (Cind (Z.to_nat step) (Z.to_nat j)); lia.
Qed.

Lemma out_of_range_probability_unchecked_witness :
  ~ (0 <= (exp (0 / 100 * 1) - 2) / (3 - 2) <= 1) /\
  option_tree 1 1 3 2 0 1 1 script_world
  = (Ok ([[1]; [2; 3]], [[0]; [1; 2]]), report 0 script_world) /\
  (exists root,
     getitem2 [[0]; [1; 2]] 0 0 = Ok root /\
     report 0 script_world = report root script_world) /\
  (forall j, (0 <= j <= 1)%Z ->
     exists price,
       getitem2 [[1]; [2; 3]] 1 j = Ok price /\
       getitem2 [[0]; [1; 2]] 1 j = Ok (Rmax 0 (price - 1))) /\
  (forall step j, (0 <= step <= 1 - 1)%Z -> (0 <= j <= step)%Z ->
     exists up_value down_value,
       getitem2 [[0]; [1; 2]] (step + 1) (j + 1) = Ok up_value /\
       getitem2 [[0]; [1; 2]] (step + 1) j = Ok down_value /\
       getitem2 [[0]; [1; 2]] step j
       = Ok (Rmax 0 (exp (- (0 / 100) * 1) *
                     ((exp (0 / 100 * 1) - 2) / (3 - 2) * up_value +
                      (1 - (exp (0 / 100 * 1) - 2) / (3 - 2)) * down_value)))).
Proof.
  assert (H : ~ (0 <= (exp (0 / 100 * 1) - 2) / (3 - 2) <= 1)).
  { replace (0 / 100 * 1) with 0 by lra. rewrite exp_0. lra. }
  split; [exact H|]. split; [apply run_up3_down2|].
  exact (out_of_range_probability_unchecked 1 1 3 2 0 1 1 script_world
           (report 0 script_world) [[1]; [2; 3]] [[0]; [1; 2]] H
           (run_up3_down2 script_world)).
Defined.

(** ** The payoff *)

(** C6, as stated, fails.  [option_tree(1, 4, 3, 2, 0, 1, 1)] uses all
    seven parameters of the function and yields the call payoffs [0; 0]
    at the leaves [2; 3], where the put payoffs are [2; 1]; and no call
    whatever makes a leaf hold a put payoff that differs from the call
    payoff. *)
Lemma put_payoff_counterexample :
  option_tree 1 4 3 2 0 1 1 script_world
  = (Ok ([[1]; [2; 3]], [[0]; [0; 0]]), report 0 script_world) /\
  Rmax 0 (4 - 2) = 2 /\ Rmax 0 (4 - 3) = 1 /\
  ~ exists stock_price ex_price uptick downtick risk_free_pct time_steps
           delta_time_step w sg vg w' j price value,
      option_tree stock_price ex_price uptick downtick risk_free_pct
                  time_steps delta_time_step w = (Ok (sg, vg), w') /\
      (0 <= j <= time_steps)%Z /\
      getitem2 sg time_steps j = Ok price /\
      getitem2 vg time_steps j = Ok value /\
      value = Rmax 0 (ex_price - price) /\
      value <> Rmax 0 (price - ex_price).
Proof.
  split; [apply run_strike4|].
  split; [unfold Rmax; destruct (Rle_dec 0 (4 - 2)); lra|].
  split; [unfold Rmax; destruct (Rle_dec 0 (4 - 3)); lra|].
  intros (S0 & K & u & d & r & N & dt & w & sg & vg & w' & j & price & value
          & Hrun & Hj & Hs & Hv & _ & Hne).
  apply Hne. clear Hne.
  destruct (Req_dec_T u d) as [E|Hud].
  { rewrite option_tree_degenerate in Hrun by assumption. discriminate. }
  destruct (option_tree_ok_Z S0 K u d r N dt w Hud)
    as (sg' & vg' & Hrun' & Tsg & Tvg & _ & Cterm & _); [lia|].
  rewrite Hrun' in Hrun. injection Hrun as -> -> _.
  rewrite (getitem2_Z sg (Z.to_nat N) N j Tsg) in Hs by lia.
  rewrite (getitem2_Z vg (Z.to_nat N) N j Tvg) in Hv by lia.
  injection Hs as <-. injection Hv as <-.
  rewrite <- max_Rmax. apply Cterm. lia.
Qed.

(** C6, amended.  The payoff kind is fixed in the code: [option_tree] has
    no payoff parameter, and for every input with [uptick <> downtick]
    and [time_steps >= 0] each leaf holds the call payoff
    [max(0, price(N, j) - ex_price)]; that value is the put payoff
    [max(0, ex_price - price(N, j))] only where the leaf price equals the
    strike. *)
Theorem payoff_is_call_only
    (stock_price ex_price uptick downtick risk_free_pct : R) (time_steps : Z)
    (delta_time_step : R) (w : world) :
  uptick <> downtick -> (0 <= time_steps)%Z ->
  exists sg vg w',
    option_tree stock_price ex_price uptick downtick risk_free_pct
                time_steps delta_time_step w
    = (Ok (sg, vg), w') /\
    forall j, (0 <= j <= time_steps)%Z ->
      exists price value,
        getitem2 sg time_steps j = Ok price /\
        getitem2 vg time_steps j = Ok value /\
        value = Rmax 0 (price - ex_price) /\
        (value = Rmax 0 (ex_price - price) -> price = ex_price).
Proof.
  intros Hud HN.
  destruct (option_tree_ok_Z stock_price ex_price uptick downtick risk_free_pct
              time_steps delta_time_step w Hud HN)
    as (sg & vg & Hrun & Tsg & Tvg & Csg & Cterm & Cind).
  exists sg, vg, (report (cell vg 0 0) w). split; [exact Hrun|].
  intros j Hj.
  exists (cell sg (Z.to_nat time_steps) (Z.to_nat j)),
         (cell vg (Z.to_nat time_steps) (Z.to_nat j)).
  split; [apply (getitem2_Z sg (Z.to_nat time_steps)); [assumption|lia|lia]|].
  split; [apply (getitem2_Z vg (Z.to_nat time_steps)); [assumption|lia|lia]|].
  assert (E : cell vg (Z.to_nat time_steps) (Z.to_nat j)
              = Rmax 0 (cell sg (Z.to_nat time_steps) (Z.to_nat j) - ex_price)).
  { rewrite <- max_Rmax. apply Cterm. lia. }
  split; [exact E|].
  rewrite E. apply Rmax_call_put.
Qed.

Lemma payoff_is_call_only_witness :
  3 <> 2 /\ (0 <= 1)%Z /\
  exists sg vg w',
    option_tree 1 4 3 2 0 1 1 script_world = (Ok (sg, vg), w') /\
    forall j, (0 <= j <= 1)%Z ->
      exists price value,
        getitem2 sg 1 j = Ok price /\
        getitem2 vg 1 j = Ok value /\
        value = Rmax 0 (price - 4) /\
        (value = Rmax 0 (4 - price) -> price = 4).
Proof.
  split; [lra|]. split; [lia|].
  apply (payoff_is_call_only 1 4 3 2 0 1 1 script_world); [lra|lia].
Defined.

(** ** Invariants of the grids *)

(** C7.  With [uptick <> downtick] and [time_steps >= 0], whenever
    [option_tree] returns, every entry of the value grid it returns is
    [>= 0], in every row and at every level. *)
Theorem value_tree_nonnegative
    (stock_price ex_price uptick downtick risk_free_pct : R) (time_steps : Z)
    (delta_time_step : R) (w w' : world) (sg vg : grid) :
  uptick <> downtick -> (0 <= time_steps)%Z ->
  option_tree stock_price ex_price uptick downtick risk_free_pct
              time_steps delta_time_step w
  = (Ok (sg, vg), w') ->
  forall row, In row vg -> forall v, In v row -> 0 <= v.
Proof.
  intros Hud HN Hrun row Hrow v Hv.
  destruct (option_tree_ok_Z stock_price ex_price uptick downtick risk_free_pct
              time_steps delta_time_step w Hud HN)
    as (sg' & vg' & Hrun' & Tsg & Tvg & Csg & Cterm & Cind).
  rewrite Hrun' in Hrun. injection Hrun as -> -> _.
  destruct (In_nth vg row [] Hrow) as (i & Hi & <-).
  destruct Tvg as [Lv Rv]. rewrite Lv in Hi.
  destruct (In_nth _ v 0 Hv) as (j & Hj & <-).
  rewrite Rv in Hj by lia.
  fold (cell vg i j).
  destruct (Nat.eq_dec i (Z.to_nat time_steps)) as [->|Hne].
  - rewrite Cterm by lia. apply max_0_nonneg.
  - rewrite (Cind i j) by lia. apply max_0_nonneg.
Qed.

Lemma value_tree_nonnegative_witness :
  3 <> 2 /\ (0 <= 1)%Z /\
  option_tree 1 1 3 2 0 1 1 script_world
  = (Ok ([[1]; [2; 3]], [[0]; [1; 2]]), report 0 script_world) /\
  forall row, In row [[0]; [1; 2]] -> forall v, In v row -> 0 <= v.
Proof.
  split; [lra|]. split; [lia|]. split; [apply run_up3_down2|].
  apply (value_tree_nonnegative 1 1 3 2 0 1 1 script_world
           (report 0 script_world) [[1]; [2; 3]] [[0]; [1; 2]]);
    [lra|lia|apply run_up3_down2].
Defined.

(** C8, as stated, fails on the doubles the code computes with.  In
    [option_tree(1.0, K, 1.5, 2**-600, r, 3, dt)] the parameters are
    valid ([1.0 > 0] and [1.5 > 1 > 2**-600 > 0]), but the squares and
    cubes of the down factor underflow to [0.0]: the stock tree is
    [[1.0], [2**-600, 1.5], [0.0, 1.5 * 2**-600, 2.25],
    [0.0, 0.0, 2.25 * 2**-600, 3.375]], so the prices at [(2, 0)],
    [(3, 0)] and [(3, 1)] are all [0.0]: the lowest branch does not
    fall strictly from step 2 to step 3, and row 3 does not rise
    strictly from level 0 to level 1. *)
Section UnderflowingTree.
Import Floats.

Lemma monotone_prices_counterexample :
  (0 <? 1)%float = true /\ (1 <? 1.5)%float = true /\
  (0x1p-600 <? 1)%float = true /\ (0 <? 0x1p-600)%float = true /\
  Doubles.stock_tree 1 1.5 0x1p-600 3
  = inr [[1]; [0x1p-600; 1.5]; [0; 0x1.8p-600; 2.25];
         [0; 0; 0x1.2p-599; 3.375]]%float /\
  Doubles.bind (Doubles.stock_tree 1 1.5 0x1p-600 3)
               (fun g => Doubles.getitem2 g 2 0) = inr 0%float /\
  Doubles.bind (Doubles.stock_tree 1 1.5 0x1p-600 3)
               (fun g => Doubles.getitem2 g 3 0) = inr 0%float /\
  Doubles.bind (Doubles.stock_tree 1 1.5 0x1p-600 3)
               (fun g => Doubles.getitem2 g 3 1) = inr 0%float /\
  (0 <? 0)%float = false.
Proof. repeat split. Qed.

End UnderflowingTree.

(** C8, amended.  In exact arithmetic, that is with every power and
    product of line 51 taken as a real number, for [stock_price > 0] and
    [uptick > 1 > downtick > 0] (and [time_steps >= 0]) the stock grid
    has [price(step, j) < price(step, j + 1)] along every row
    [step > 0], [price(step + 1, 0) < price(step, 0)] down the lowest
    branch and [price(step, step) < price(step + 1, step + 1)] up the
    highest branch.  The doubles that the code stores need not: powers
    and products are rounded and can underflow to [0.0]. *)
Theorem stock_tree_monotone
    (stock_price ex_price uptick downtick risk_free_pct : R) (time_steps : Z)
    (delta_time_step : R) (w : world) :
  0 < stock_price -> 1 < uptick -> downtick < 1 -> 0 < downtick ->
  (0 <= time_steps)%Z ->
  exists sg vg w',
    option_tree stock_price ex_price uptick downtick risk_free_pct
                time_steps delta_time_step w
    = (Ok (sg, vg), w') /\
    (forall step j, (0 < step <= time_steps)%Z -> (0 <= j < step)%Z ->
       exists a b, getitem2 sg step j = Ok a /\
                   getitem2 sg step (j + 1) = Ok b /\ a < b) /\
    (forall step, (0 <= step < time_steps)%Z ->
       exists a b, getitem2 sg step 0 = Ok a /\
                   getitem2 sg (step + 1) 0 = Ok b /\ b < a) /\
    (forall step, (0 <= step < time_steps)%Z ->
       exists a b, getitem2 sg step step = Ok a /\
                   getitem2 sg (step + 1) (step + 1) = Ok b /\ a < b).
Proof.
  intros HS Hu Hd1 Hd HN.
  assert (Hud : uptick <> downtick) by lra.
  destruct (option_tree_ok_Z stock_price ex_price uptick downtick risk_free_pct
              time_steps delta_time_step w Hud HN)
    as (sg & vg & Hrun & Tsg & Tvg & Csg & Cterm & Cind).
  exists sg, vg, (report (cell vg 0 0) w). split; [exact Hrun|].
  split; [|split].
  - intros step j Hstep Hj.
    exists (cell sg (Z.to_nat step) (Z.to_nat j)),
           (cell sg (Z.to_nat step) (S (Z.to_nat j))).
    rewrite (getitem2_Z sg (Z.to_nat time_steps) step j Tsg) by lia.
    rewrite (getitem2_Z sg (Z.to_nat time_steps) step (j + 1) Tsg) by lia.
    replace (Z.to_nat (j + 1)) with (S (Z.to_nat j)) by lia.
    split; [reflexivity|]. split; [reflexivity|].
    rewrite !Csg by lia. apply node_price_up; try lra. lia.
  - intros step Hstep.
    exists (cell sg (Z.to_nat step) 0), (cell sg (S (Z.to_nat step)) 0).
    rewrite (getitem2_Z sg (Z.to_nat time_steps) step 0 Tsg) by lia.
    rewrite (getitem2_Z sg (Z.to_nat time_steps) (step + 1) 0 Tsg) by lia.
    replace (Z.to_nat (step + 1)) with (S (Z.to_nat step)) by lia.
    split; [reflexivity|]. split; [reflexivity|].
    rewrite !Csg by lia. now apply node_price_bottom.
  - intros step Hstep.
    exists (cell sg (Z.to_nat step) (Z.to_nat step)),
           (cell sg (S (Z.to_nat step)) (S (Z.to_nat step))).
    rewrite (getitem2_Z sg (Z.to_nat time_steps) step step Tsg) by lia.
    rewrite (getitem2_Z sg (Z.to_nat time_steps) (step + 1) (step + 1) Tsg) by lia.
    replace (Z.to_nat (step + 1)) with (S (Z.to_nat step)) by lia.
    split; [reflexivity|]. split; [reflexivity|].
    rewrite !Csg by lia. now apply node_price_top.
Qed.

Lemma stock_tree_monotone_witness :
  0 < 1 /\ 1 < 2 /\ 1 / 2 < 1 /\ 0 < 1 / 2 /\ (0 <= 2)%Z /\
  exists sg vg w',
    option_tree 1 1 2 (1 / 2) 0 2 1 script_world = (Ok (sg, vg), w') /\
    (forall step j, (0 < step <= 2)%Z -> (0 <= j < step)%Z ->
       exists a b, getitem2 sg step j = Ok a /\
                   getitem2 sg step (j + 1) = Ok b /\ a < b) /\
    (forall step, (0 <= step < 2)%Z ->
       exists a b, getitem2 sg step 0 = Ok a /\
                   getitem2 sg (step + 1) 0 = Ok b /\ b < a) /\
    (forall step, (0 <= step < 2)%Z ->
       exists a b, getitem2 sg step step = Ok a /\
                   getitem2 sg (step + 1) (step + 1) = Ok b /\ a < b).
Proof.
  split; [lra|]. split; [lra|]. split; [lra|]. split; [lra|]. split; [lia|].
  apply (stock_tree_monotone 1 1 2 (1 / 2) 0 2 1 script_world); lra || lia.
Defined.

(** ** The one-node tree *)

(** C9.  For [time_steps = 0] (with [uptick <> downtick]) the stock grid
    is the single node [stock_price], the value grid is the single node
    [max(0, stock_price - ex_price)], which is also the printed root, and
    the backward-induction loop ranges over the empty sequence
    [range(-1, -1, -1)]: it leaves its grid untouched. *)
Theorem single_node_tree
    (stock_price ex_price uptick downtick risk_free_pct : R)
    (delta_time_step : R) (w : world) :
  uptick <> downtick ->
  option_tree stock_price ex_price uptick downtick risk_free_pct
              0 delta_time_step w
  = (Ok ([[stock_price]], [[Rmax 0 (stock_price - ex_price)]]),
     report (Rmax 0 (stock_price - ex_price)) w) /\
  range_desc (0 - 1) (-1) = [] /\
  forall p discount_factor g, induce_back p discount_factor 0 g = Ok g.
Proof.
  intros Hud. split; [|split].
  - change 0%Z with (Z.of_nat 0).
    apply (option_tree_exact stock_price ex_price uptick downtick risk_free_pct
             0 delta_time_step w
             [[stock_price]] [[Rmax 0 (stock_price - ex_price)]]).
    + assumption.
    + split; [reflexivity|]. intros i Hi.
      replace i with 0%nat by lia. reflexivity.
    + split; [reflexivity|]. intros i Hi.
      replace i with 0%nat by lia. reflexivity.
    + intros i j Hij. replace i with 0%nat by lia. replace j with 0%nat by lia.
      unfold cell, node_price. simpl. lra.
    + intros j Hj. replace j with 0%nat by lia.
      unfold cell. simpl. now rewrite max_Rmax.
    + intros i j Hi. lia.
  - reflexivity.
  - intros p discount_factor g. reflexivity.
Qed.

Lemma single_node_tree_witness :
  3 <> 2 /\
  option_tree 5 4 3 2 0 0 1 script_world
  = (Ok ([[5]], [[Rmax 0 (5 - 4)]]), report (Rmax 0 (5 - 4)) script_world) /\
  range_desc (0 - 1) (-1) = [] /\
  forall p discount_factor g, induce_back p discount_factor 0 g = Ok g.
Proof.
  split; [lra|].
  apply (single_node_tree 5 4 3 2 0 1 script_world). lra.
Defined.

(** ** Pricing identities at the nodes *)

Lemma max_0_of_nonneg (x : R) : 0 <= x -> max 0 x = x.
Proof. intros H. unfold max. destruct (Rlt_dec 0 x); lra. Qed.

Lemma max_0_of_nonpos (x : R) : x <= 0 -> max 0 x = 0.
Proof. intros H. unfold max. destruct (Rlt_dec 0 x); lra. Qed.

Lemma max_0_monotone (x y : R) : x <= y -> max 0 x <= max 0 y.
Proof.
  intros H. unfold max. destruct (Rlt_dec 0 x), (Rlt_dec 0 y); lra.
Qed.

Lemma max_0_above (x : R) : x <= max 0 x.
Proof. unfold max. destruct (Rlt_dec 0 x); lra. Qed.

Lemma DF_pos (risk_free_pct delta_time_step : R) :
  0 < DF risk_free_pct delta_time_step.
Proof. unfold DF. apply exp_pos. Qed.

(** The growth factor [e] of line 43 undoes the discount of line 42. *)
Lemma DF_growth (risk_free_pct delta_time_step : R) :
  DF risk_free_pct delta_time_step
  * exp (rate risk_free_pct * delta_time_step) = 1.
Proof.
  unfold DF. rewrite <- exp_plus.
  replace (- rate risk_free_pct * delta_time_step
           + rate risk_free_pct * delta_time_step) with 0 by lra.
  apply exp_0.
Qed.

(** [p] is the weight under which one step of the lattice grows at the
    risk-free rate. *)
Lemma prob_mean (uptick downtick risk_free_pct delta_time_step : R) :
  uptick <> downtick ->
  prob uptick downtick risk_free_pct delta_time_step * uptick
  + (1 - prob uptick downtick risk_free_pct delta_time_step) * downtick
  = exp (rate risk_free_pct * delta_time_step).
Proof.
  intros H. unfold prob. field. lra.
Qed.

Lemma node_price_child_up (stock_price uptick downtick : R) (i j : nat) :
  (j <= i)%nat ->
  node_price stock_price uptick downtick (S i) (S j)
  = uptick * node_price stock_price uptick downtick i j.
Proof.
  intros H. unfold node_price.
  replace (S i - S j)%nat with (i - j)%nat by lia.
  rewrite <- tech_pow_Rmult. ring.
Qed.

Lemma node_price_child_down (stock_price uptick downtick : R) (i j : nat) :
  (j <= i)%nat ->
  node_price stock_price uptick downtick (S i) j
  = downtick * node_price stock_price uptick downtick i j.
Proof.
  intros H. unfold node_price.
  replace (S i - j)%nat with (S (i - j)) by lia.
  rewrite <- tech_pow_Rmult. ring.
Qed.

Lemma node_price_nonneg (stock_price uptick downtick : R) (i j : nat) :
  0 <= stock_price -> 0 <= uptick -> 0 <= downtick ->
  0 <= node_price stock_price uptick downtick i j.
Proof.
  intros HS Hu Hd. unfold node_price.
  repeat apply Rmult_le_pos; try assumption; now apply pow_le.
Qed.

Lemma node_price_martingale
    (stock_price uptick downtick risk_free_pct delta_time_step : R) (i j : nat) :
  uptick <> downtick -> (j <= i)%nat ->
  DF risk_free_pct delta_time_step
  * (prob uptick downtick risk_free_pct delta_time_step
     * node_price stock_price uptick downtick (S i) (S j)
     + (1 - prob uptick downtick risk_free_pct delta_time_step)
       * node_price stock_price uptick downtick (S i) j)
  = node_price stock_price uptick downtick i j.
Proof.
  intros Hud Hj.
  rewrite node_price_child_up, node_price_child_down by assumption.
  pose proof (prob_mean uptick downtick risk_free_pct delta_time_step Hud) as Hm.
  pose proof (DF_growth risk_free_pct delta_time_step) as Hg.
  set (P := prob uptick downtick risk_free_pct delta_time_step) in *.
  set (D := DF risk_free_pct delta_time_step) in *.
  set (X := node_price stock_price uptick downtick i j).
  replace (D * (P * (uptick * X) + (1 - P) * (downtick * X)))
    with (D * (P * uptick + (1 - P) * downtick) * X) by ring.
  rewrite Hm, Hg. ring.
Qed.

(** Facts about any value grid that satisfies the node equations over
    the closed-form prices. *)
Section NodeEquations.
Variables (stock_price ex_price uptick downtick p df : R) (n : nat).
Variables (sg vg : grid).
Hypothesis Csg : forall i j, (j <= i <= n)%nat ->
  cell sg i j = node_price stock_price uptick downtick i j.
Hypothesis Cterm : forall j, (j <= n)%nat ->
  cell vg n j = max 0 (cell sg n j - ex_price).
Hypothesis Cind : forall i j, (i < n)%nat -> (j <= i)%nat ->
  induced p df vg i j.

Lemma cells_nonneg (i j : nat) : (j <= i <= n)%nat -> 0 <= cell vg i j.
Proof.
  intros H. destruct (Nat.eq_dec i n) as [->|Hne].
  - rewrite Cterm by lia. apply max_0_nonneg.
  - rewrite (Cind i j) by lia. apply max_0_nonneg.
Qed.

Lemma cells_unclamped (i j : nat) :
  0 <= p <= 1 -> 0 <= df -> (i < n)%nat -> (j <= i)%nat ->
  cell vg i j = df * (p * cell vg (S i) (S j) + (1 - p) * cell vg (S i) j).
Proof.
  intros Hp Hdf Hi Hj. rewrite (Cind i j) by assumption.
  apply max_0_of_nonneg.
  pose proof (cells_nonneg (S i) (S j)) as H1.
  pose proof (cells_nonneg (S i) j) as H2.
  apply Rmult_le_pos; [assumption|].
  apply Rplus_le_le_0_compat; apply Rmult_le_pos; try lra;
    [apply H1|apply H2]; lia.
Qed.

Lemma cells_zero :
  (forall j, (j <= n)%nat ->
     node_price stock_price uptick downtick n j <= ex_price) ->
  forall i j, (j <= i <= n)%nat -> cell vg i j = 0.
Proof.
  intros Hout.
  assert (H : forall k i j, (i + k = n)%nat -> (j <= i)%nat -> cell vg i j = 0).
  { induction k as [|k IH]; intros i j Hk Hj.
    - replace i with n in * by lia. rewrite Cterm by lia.
      apply max_0_of_nonpos. rewrite Csg by lia.
      specialize (Hout j Hj). lra.
    - rewrite (Cind i j) by lia.
      rewrite (IH (S i) (S j)), (IH (S i) j) by lia.
      apply max_0_of_nonpos. lra. }
  intros i j Hij. apply (H (n - i)%nat); lia.
Qed.

Lemma cells_monotone :
  0 <= p <= 1 -> 0 <= df ->
  0 <= stock_price -> 0 <= downtick <= uptick ->
  forall i j, (S j <= i <= n)%nat -> cell vg i j <= cell vg i (S j).
Proof.
  intros Hp Hdf HS Hdu.
  assert (H : forall k i j, (i + k = n)%nat -> (S j <= i)%nat ->
                            cell vg i j <= cell vg i (S j)).
  { induction k as [|k IH]; intros i j Hk Hj.
    - replace i with n in * by lia. rewrite !Cterm by lia.
      apply max_0_monotone. rewrite !Csg by lia.
      unfold node_price.
      replace (n - j)%nat with (S (n - S j)) by lia.
      rewrite <- !tech_pow_Rmult.
      assert (0 <= stock_price * uptick ^ j * downtick ^ (n - S j)).
      { repeat apply Rmult_le_pos; try apply pow_le; lra. }
      nra.
    - rewrite (Cind i j), (Cind i (S j)) by lia.
      apply max_0_monotone.
      pose proof (IH (S i) (S j)) as H1. pose proof (IH (S i) j) as H2.
      apply Rmult_le_compat_l; [assumption|].
      apply Rplus_le_compat; apply Rmult_le_compat_l; try lra;
        [apply H1|apply H2]; lia. }
  intros i j Hij. apply (H (n - i)%nat); lia.
Qed.
End NodeEquations.

Section DiscountedNodes.
Variables (stock_price ex_price uptick downtick : R).
Variables (risk_free_pct delta_time_step : R) (n : nat).
Variables (sg vg : grid).
Hypothesis Hud : uptick <> downtick.
Hypothesis Hp : 0 <= prob uptick downtick risk_free_pct delta_time_step <= 1.
Hypothesis Csg : forall i j, (j <= i <= n)%nat ->
  cell sg i j = node_price stock_price uptick downtick i j.
Hypothesis Cterm : forall j, (j <= n)%nat ->
  cell vg n j = max 0 (cell sg n j - ex_price).
Hypothesis Cind : forall i j, (i < n)%nat -> (j <= i)%nat ->
  induced (prob uptick downtick risk_free_pct delta_time_step)
          (DF risk_free_pct delta_time_step) vg i j.

Lemma cells_lower_bound (i j : nat) :
  (j <= i <= n)%nat ->
  node_price stock_price uptick downtick i j
  - ex_price * DF risk_free_pct delta_time_step ^ (n - i)
  <= cell vg i j.
Proof.
  assert (H : forall k i j, (i + k = n)%nat -> (j <= i)%nat ->
            node_price stock_price uptick downtick i j
            - ex_price * DF risk_free_pct delta_time_step ^ k
            <= cell vg i j).
  { induction k as [|k IH]; intros a b Hk Hb.
    - replace a with n in * by lia. rewrite Cterm, Csg by lia.
      rewrite pow_O, Rmult_1_r. apply max_0_above.
    - rewrite (Cind a b) by lia.
      eapply Rle_trans; [|apply max_0_above].
      rewrite <- (node_price_martingale stock_price uptick downtick
                    risk_free_pct delta_time_step a b Hud Hb).
      pose proof (IH (S a) (S b)) as H1. pose proof (IH (S a) b) as H2.
      assert (H1' := H1 ltac:(lia) ltac:(lia)).
      assert (H2' := H2 ltac:(lia) ltac:(lia)).
      pose proof (DF_pos risk_free_pct delta_time_step) as HD.
      rewrite <- tech_pow_Rmult.
      set (P := prob uptick downtick risk_free_pct delta_time_step) in *.
      set (D := DF risk_free_pct delta_time_step) in *.
      revert H1' H2'.
      generalize (node_price stock_price uptick downtick (S a) (S b))
                 (node_price stock_price uptick downtick (S a) b)
                 (cell vg (S a) (S b)) (cell vg (S a) b) (D ^ k).
      intros su sd vu vd dk H1' H2'.
      replace (D * (P * su + (1 - P) * sd) - ex_price * (D * dk))
        with (D * (P * (su - ex_price * dk) + (1 - P) * (sd - ex_price * dk)))
        by ring.
      apply Rmult_le_compat_l; [lra|].
      apply Rplus_le_compat; apply Rmult_le_compat_l; lra. }
  intros Hij. apply (H (n - i)%nat); lia.
Qed.

Lemma cells_upper_bound (i j : nat) :
  0 <= ex_price -> 0 <= stock_price -> 0 <= uptick -> 0 <= downtick ->
  (j <= i <= n)%nat ->
  cell vg i j <= node_price stock_price uptick downtick i j.
Proof.
  intros HK HS Hu Hd.
  assert (H : forall k i j, (i + k = n)%nat -> (j <= i)%nat ->
            cell vg i j <= node_price stock_price uptick downtick i j).
  { induction k as [|k IH]; intros a b Hk Hb.
    - replace a with n in * by lia. rewrite Cterm, Csg by lia.
      pose proof (node_price_nonneg stock_price uptick downtick n b HS Hu Hd).
      unfold max. destruct (Rlt_dec 0 _); lra.
    - rewrite (Cind a b) by lia.
      rewrite <- (node_price_martingale stock_price uptick downtick
                    risk_free_pct delta_time_step a b Hud Hb).
      pose proof (IH (S a) (S b)) as H1. pose proof (IH (S a) b) as H2.
      assert (H1' := H1 ltac:(lia) ltac:(lia)).
      assert (H2' := H2 ltac:(lia) ltac:(lia)).
      pose proof (DF_pos risk_free_pct delta_time_step) as HD.
      pose proof (node_price_nonneg stock_price uptick downtick (S a) (S b)
                    HS Hu Hd) as N1.
      pose proof (node_price_nonneg stock_price uptick downtick (S a) b
                    HS Hu Hd) as N2.
      set (P := prob uptick downtick risk_free_pct delta_time_step) in *.
      set (D := DF risk_free_pct delta_time_step) in *.
      assert (Hle : D * (P * cell vg (S a) (S b) + (1 - P) * cell vg (S a) b)
                    <= D * (P * node_price stock_price uptick downtick (S a) (S b)
                            + (1 - P) * node_price stock_price uptick downtick (S a) b)).
      { apply Rmult_le_compat_l; [lra|].
        apply Rplus_le_compat; apply Rmult_le_compat_l; lra. }
      assert (0 <= D * (P * node_price stock_price uptick downtick (S a) (S b)
                        + (1 - P) * node_price stock_price uptick downtick (S a) b)).
      { apply Rmult_le_pos; [lra|].
        apply Rplus_le_le_0_compat; apply Rmult_le_pos; lra. }
      unfold max. destruct (Rlt_dec 0 _); lra. }
  intros Hij. apply (H (n - i)%nat); lia.
Qed.

Lemma cells_forward (i j : nat) :
  (forall b, (b <= n)%nat ->
     ex_price <= node_price stock_price uptick downtick n b) ->
  (j <= i <= n)%nat ->
  cell vg i j
  = node_price stock_price uptick downtick i j
    - ex_price * DF risk_free_pct delta_time_step ^ (n - i).
Proof.
  intros Hin.
  assert (H : forall k i j, (i + k = n)%nat -> (j <= i)%nat ->
            cell vg i j
            = node_price stock_price uptick downtick i j
              - ex_price * DF risk_free_pct delta_time_step ^ k).
  { induction k as [|k IH]; intros a b Hk Hb.
    - replace a with n in * by lia. rewrite Cterm, Csg by lia.
      rewrite pow_O, Rmult_1_r. apply max_0_of_nonneg.
      specialize (Hin b Hb). lra.
    - pose proof (DF_pos risk_free_pct delta_time_step) as HD.
      rewrite (cells_unclamped ex_price _ _ n sg vg Cterm Cind a b)
        by (try lra; try lia; assumption).
      rewrite (IH (S a) (S b)), (IH (S a) b) by lia.
      rewrite <- (node_price_martingale stock_price uptick downtick
                    risk_free_pct delta_time_step a b Hud Hb).
      rewrite <- tech_pow_Rmult. ring. }
  intros Hij. apply (H (n - i)%nat); lia.
Qed.
End DiscountedNodes.

(** ** Further properties of the grids *)

(** X1.  The closed form of line 51 agrees with walking the lattice: in
    the returned stock grid the two successors of a node are the node
    times [uptick] and the node times [downtick], so an up move followed
    by a down move and a down move followed by an up move meet in the
    same node. *)
Theorem stock_tree_children
    (stock_price ex_price uptick downtick risk_free_pct : R) (time_steps : Z)
    (delta_time_step : R) (w : world) :
  uptick <> downtick -> (1 <= time_steps)%Z ->
  exists sg vg w',
    option_tree stock_price ex_price uptick downtick risk_free_pct
                time_steps delta_time_step w
    = (Ok (sg, vg), w') /\
    forall step j, (0 <= step < time_steps)%Z -> (0 <= j <= step)%Z ->
      exists s,
        getitem2 sg step j = Ok s /\
        getitem2 sg (step + 1) (j + 1) = Ok (uptick * s) /\
        getitem2 sg (step + 1) j = Ok (downtick * s).
Proof.
  intros Hud HN.
  destruct (option_tree_ok_Z stock_price ex_price uptick downtick risk_free_pct
              time_steps delta_time_step w Hud)
    as (sg & vg & Hrun & Tsg & Tvg & Csg & Cterm & Cind); [lia|].
  exists sg, vg, (report (cell vg 0 0) w). split; [exact Hrun|].
  intros step j Hstep Hj.
  exists (cell sg (Z.to_nat step) (Z.to_nat j)).
  rewrite (getitem2_Z sg (Z.to_nat time_steps) step j Tsg) by lia.
  rewrite (getitem2_Z sg (Z.to_nat time_steps) (step + 1) (j + 1) Tsg) by lia.
  rewrite (getitem2_Z sg (Z.to_nat time_steps) (step + 1) j Tsg) by lia.
  replace (Z.to_nat (step + 1)) with (S (Z.to_nat step)) by lia.
  replace (Z.to_nat (j + 1)) with (S (Z.to_nat j)) by lia.
  rewrite !Csg by lia.
  rewrite node_price_child_up, node_price_child_down by lia.
  repeat split.
Qed.

Lemma stock_tree_children_witness :
  3 <> 2 /\ (1 <= 1)%Z /\
  exists sg vg w',
    option_tree 1 1 3 2 0 1 1 script_world = (Ok (sg, vg), w') /\
    forall step j, (0 <= step < 1)%Z -> (0 <= j <= step)%Z ->
      exists s,
        getitem2 sg step j = Ok s /\
        getitem2 sg (step + 1) (j + 1) = Ok (3 * s) /\
        getitem2 sg (step + 1) j = Ok (2 * s).
Proof.
  split; [lra|]. split; [lia|].
  apply (stock_tree_children 1 1 3 2 0 1 1 script_world); [lra|lia].
Defined.

(** X2.  In exact arithmetic the stock grid is a martingale under the
    weights the code uses: at every node before maturity, the discounted
    mean of the two successor prices, weighted with [p] and [1 - p], is
    the price of the node itself.  (On doubles the two sides agree up to
    rounding only.) *)
Theorem stock_tree_martingale
    (stock_price ex_price uptick downtick risk_free_pct : R) (time_steps : Z)
    (delta_time_step : R) (w : world) :
  uptick <> downtick -> (1 <= time_steps)%Z ->
  exists sg vg w',
    option_tree stock_price ex_price uptick downtick risk_free_pct
                time_steps delta_time_step w
    = (Ok (sg, vg), w') /\
    forall step j, (0 <= step < time_steps)%Z -> (0 <= j <= step)%Z ->
      exists s up down,
        getitem2 sg step j = Ok s /\
        getitem2 sg (step + 1) (j + 1) = Ok up /\
        getitem2 sg (step + 1) j = Ok down /\
        DF risk_free_pct delta_time_step
        * (prob uptick downtick risk_free_pct delta_time_step * up
           + (1 - prob uptick downtick risk_free_pct delta_time_step) * down)
        = s.
Proof.
  intros Hud HN.
  destruct (option_tree_ok_Z stock_price ex_price uptick downtick risk_free_pct
              time_steps delta_time_step w Hud)
    as (sg & vg & Hrun & Tsg & Tvg & Csg & Cterm & Cind); [lia|].
  exists sg, vg, (report (cell vg 0 0) w). split; [exact Hrun|].
  intros step j Hstep Hj.
  exists (cell sg (Z.to_nat step) (Z.to_nat j)),
         (cell sg (S (Z.to_nat step)) (S (Z.to_nat j))),
         (cell sg (S (Z.to_nat step)) (Z.to_nat j)).
  rewrite (getitem2_Z sg (Z.to_nat time_steps) step j Tsg) by lia.
  rewrite (getitem2_Z sg (Z.to_nat time_steps) (step + 1) (j + 1) Tsg) by lia.
  rewrite (getitem2_Z sg (Z.to_nat time_steps) (step + 1) j Tsg) by lia.
  replace (Z.to_nat (step + 1)) with (S (Z.to_nat step)) by lia.
  replace (Z.to_nat (j + 1)) with (S (Z.to_nat j)) by lia.
  split; [reflexivity|]. split; [reflexivity|]. split; [reflexivity|].
  rewrite !Csg by lia. apply node_price_martingale; [assumption|lia].
Qed.

Lemma stock_tree_martingale_witness :
  3 <> 2 /\ (1 <= 1)%Z /\
  exists sg vg w',
    option_tree 1 1 3 2 0 1 1 script_world = (Ok (sg, vg), w') /\
    forall step j, (0 <= step < 1)%Z -> (0 <= j <= step)%Z ->
      exists s up down,
        getitem2 sg step j = Ok s /\
        getitem2 sg (step + 1) (j + 1) = Ok up /\
        getitem2 sg (step + 1) j = Ok down /\
        DF 0 1 * (prob 3 2 0 1 * up + (1 - prob 3 2 0 1) * down) = s.
Proof.
  split; [lra|]. split; [lia|].
  apply (stock_tree_martingale 1 1 3 2 0 1 1 script_world); [lra|lia].
Defined.

(** X3.  When [p] lies in [0, 1] the clamp of line 61 never acts: every
    node before maturity holds the plain discounted expectation of its
    two successors, so the grid is the European value and no exercise
    comparison takes place. *)
Theorem clamp_inactive
    (stock_price ex_price uptick downtick risk_free_pct : R) (time_steps : Z)
    (delta_time_step : R) (w : world) :
  uptick <> downtick -> (1 <= time_steps)%Z ->
  0 <= prob uptick downtick risk_free_pct delta_time_step <= 1 ->
  exists sg vg w',
    option_tree stock_price ex_price uptick downtick risk_free_pct
                time_steps delta_time_step w
    = (Ok (sg, vg), w') /\
    forall step j, (0 <= step < time_steps)%Z -> (0 <= j <= step)%Z ->
      exists up_value down_value,
        getitem2 vg (step + 1) (j + 1) = Ok up_value /\
        getitem2 vg (step + 1) j = Ok down_value /\
        getitem2 vg step j
        = Ok (DF risk_free_pct delta_time_step
              * (prob uptick downtick risk_free_pct delta_time_step * up_value
                 + (1 - prob uptick downtick risk_free_pct delta_time_step)
                   * down_value)).
Proof.
  intros Hud HN Hp.
  destruct (option_tree_ok_Z stock_price ex_price uptick downtick risk_free_pct
              time_steps delta_time_step w Hud)
    as (sg & vg & Hrun & Tsg & Tvg & Csg & Cterm & Cind); [lia|].
  exists sg, vg, (report (cell vg 0 0) w). split; [exact Hrun|].
  intros step j Hstep Hj.
  exists (cell vg (S (Z.to_nat step)) (S (Z.to_nat j))),
         (cell vg (S (Z.to_nat step)) (Z.to_nat j)).
  rewrite (getitem2_Z vg (Z.to_nat time_steps) step j Tvg) by lia.
  rewrite (getitem2_Z vg (Z.to_nat time_steps) (step + 1) (j + 1) Tvg) by lia.
  rewrite (getitem2_Z vg (Z.to_nat time_steps) (step + 1) j Tvg) by lia.
  replace (Z.to_nat (step + 1)) with (S (Z.to_nat step)) by lia.
  replace (Z.to_nat (j + 1)) with (S (Z.to_nat j)) by lia.
  split; [reflexivity|]. split; [reflexivity|]. f_equal.
  apply (cells_unclamped ex_price _ _ (Z.to_nat time_steps) sg vg Cterm Cind);
    try assumption; try lia.
  left. apply DF_pos.
Qed.

Lemma clamp_inactive_witness :
  2 <> 1 / 2 /\ (1 <= 1)%Z /\ 0 <= prob 2 (1 / 2) 0 1 <= 1 /\
  exists sg vg w',
    option_tree 1 1 2 (1 / 2) 0 1 1 script_world = (Ok (sg, vg), w') /\
    forall step j, (0 <= step < 1)%Z -> (0 <= j <= step)%Z ->
      exists up_value down_value,
        getitem2 vg (step + 1) (j + 1) = Ok up_value /\
        getitem2 vg (step + 1) j = Ok down_value /\
        getitem2 vg step j
        = Ok (DF 0 1 * (prob 2 (1 / 2) 0 1 * up_value
                        + (1 - prob 2 (1 / 2) 0 1) * down_value)).
Proof.
  assert (Hp : 0 <= prob 2 (1 / 2) 0 1 <= 1) by (rewrite prob_0; lra).
  split; [lra|]. split; [lia|]. split; [exact Hp|].
  apply (clamp_inactive 1 1 2 (1 / 2) 0 1 1 script_world); [lra|lia|exact Hp].
Defined.

(** X4.  No-arbitrage bounds of the call, in exact arithmetic: when [p]
    lies in [0, 1] and the strike, the initial price and both factors
    are non-negative, every node of the value grid lies between the node
    price less the strike discounted over the remaining steps, and the
    node price.  (On doubles the bounds hold up to rounding only.) *)
Theorem call_value_bounds
    (stock_price ex_price uptick downtick risk_free_pct : R) (time_steps : Z)
    (delta_time_step : R) (w : world) :
  uptick <> downtick -> (0 <= time_steps)%Z ->
  0 <= prob uptick downtick risk_free_pct delta_time_step <= 1 ->
  0 <= ex_price -> 0 <= stock_price -> 0 <= uptick -> 0 <= downtick ->
  exists sg vg w',
    option_tree stock_price ex_price uptick downtick risk_free_pct
                time_steps delta_time_step w
    = (Ok (sg, vg), w') /\
    forall step j, (0 <= step <= time_steps)%Z -> (0 <= j <= step)%Z ->
      exists price value,
        getitem2 sg step j = Ok price /\
        getitem2 vg step j = Ok value /\
        price - ex_price * DF risk_free_pct delta_time_step
                           ^ Z.to_nat (time_steps - step)
        <= value <= price.
Proof.
  intros Hud HN Hp HK HS Hu Hd.
  destruct (option_tree_ok_Z stock_price ex_price uptick downtick risk_free_pct
              time_steps delta_time_step w Hud HN)
    as (sg & vg & Hrun & Tsg & Tvg & Csg & Cterm & Cind).
  exists sg, vg, (report (cell vg 0 0) w). split; [exact Hrun|].
  intros step j Hstep Hj.
  exists (cell sg (Z.to_nat step) (Z.to_nat j)),
         (cell vg (Z.to_nat step) (Z.to_nat j)).
  rewrite (getitem2_Z sg (Z.to_nat time_steps) step j Tsg) by lia.
  rewrite (getitem2_Z vg (Z.to_nat time_steps) step j Tvg) by lia.
  split; [reflexivity|]. split; [reflexivity|].
  rewrite Csg by lia.
  replace (Z.to_nat (time_steps - step))
    with (Z.to_nat time_steps - Z.to_nat step)%nat by lia.
  split.
  - apply (cells_lower_bound stock_price ex_price uptick downtick
             risk_free_pct delta_time_step (Z.to_nat time_steps) sg vg);
      try assumption. lia.
  - apply (cells_upper_bound stock_price ex_price uptick downtick
             risk_free_pct delta_time_step (Z.to_nat time_steps) sg vg);
      try assumption. lia.
Qed.

Lemma call_value_bounds_witness :
  2 <> 1 / 2 /\ (0 <= 1)%Z /\ 0 <= prob 2 (1 / 2) 0 1 <= 1 /\
  0 <= 1 /\ 0 <= 1 /\ 0 <= 2 /\ 0 <= 1 / 2 /\
  exists sg vg w',
    option_tree 1 1 2 (1 / 2) 0 1 1 script_world = (Ok (sg, vg), w') /\
    forall step j, (0 <= step <= 1)%Z -> (0 <= j <= step)%Z ->
      exists price value,
        getitem2 sg step j = Ok price /\
        getitem2 vg step j = Ok value /\
        price - 1 * DF 0 1 ^ Z.to_nat (1 - step) <= value <= price.
Proof.
  assert (Hp : 0 <= prob 2 (1 / 2) 0 1 <= 1) by (rewrite prob_0; lra).
  split; [lra|]. split; [lia|]. split; [exact Hp|].
  split; [lra|]. split; [lra|]. split; [lra|]. split; [lra|].
  apply (call_value_bounds 1 1 2 (1 / 2) 0 1 1 script_world);
    try lra; try lia; exact Hp.
Defined.

(** X5.  An option that is out of the money at every leaf is worthless
    throughout: if no terminal price exceeds the strike, every entry of
    the returned value grid is [0] and the printed root is [0], whatever
    [p] is. *)
Theorem out_of_the_money_tree_is_zero
    (stock_price ex_price uptick downtick risk_free_pct : R) (time_steps : Z)
    (delta_time_step : R) (w : world) :
  uptick <> downtick -> (0 <= time_steps)%Z ->
  (forall j, (0 <= j <= time_steps)%Z ->
     stock_price * powerRZ uptick j * powerRZ downtick (time_steps - j)
     <= ex_price) ->
  exists sg vg,
    option_tree stock_price ex_price uptick downtick risk_free_pct
                time_steps delta_time_step w
    = (Ok (sg, vg), report 0 w) /\
    forall row, In row vg -> forall v, In v row -> v = 0.
Proof.
  intros Hud HN Hout.
  destruct (option_tree_ok_Z stock_price ex_price uptick downtick risk_free_pct
              time_steps delta_time_step w Hud HN)
    as (sg & vg & Hrun & Tsg & Tvg & Csg & Cterm & Cind).
  assert (Hz : forall i j, (j <= i <= Z.to_nat time_steps)%nat ->
                           cell vg i j = 0).
  { apply (cells_zero stock_price ex_price uptick downtick _ _
             (Z.to_nat time_steps) sg vg Csg Cterm Cind).
    intros j Hj.
    specialize (Hout (Z.of_nat j) ltac:(lia)).
    rewrite <- (node_price_powerRZ stock_price uptick downtick time_steps
                  (Z.of_nat j)) in Hout by lia.
    now rewrite Nat2Z.id in Hout. }
  exists sg, vg. split.
  - rewrite Hrun. now rewrite Hz by lia.
  - intros row Hrow v Hv.
    destruct (In_nth vg row [] Hrow) as (i & Hi & <-).
    destruct Tvg as [Lv Rv]. rewrite Lv in Hi.
    destruct (In_nth _ v 0 Hv) as (j & Hj & <-).
    rewrite Rv in Hj by lia.
    apply (Hz i j). lia.
Qed.

Lemma out_of_the_money_tree_is_zero_witness :
  3 <> 2 /\ (0 <= 1)%Z /\
  (forall j, (0 <= j <= 1)%Z -> 1 * powerRZ 3 j * powerRZ 2 (1 - j) <= 4) /\
  exists sg vg,
    option_tree 1 4 3 2 0 1 1 script_world
    = (Ok (sg, vg), report 0 script_world) /\
    forall row, In row vg -> forall v, In v row -> v = 0.
Proof.
  assert (H : forall j, (0 <= j <= 1)%Z ->
                        1 * powerRZ 3 j * powerRZ 2 (1 - j) <= 4).
  { intros j Hj. assert (E : j = 0%Z \/ j = 1%Z) by lia.
    destruct E as [-> | ->]; simpl; lra. }
  split; [lra|]. split; [lia|]. split; [exact H|].
  apply (out_of_the_money_tree_is_zero 1 4 3 2 0 1 1 script_world);
    [lra|lia|exact H].
Defined.

(** X6.  In exact arithmetic an option that is in the money at every
    leaf is a forward: if [p] lies in [0, 1] and no terminal price is
    below the strike, every node holds the node price less the strike
    discounted over the remaining steps, and the printed root is
    [stock_price - ex_price * DF^time_steps].  (On doubles the two sides
    agree up to rounding only.) *)
Theorem in_the_money_tree_is_forward
    (stock_price ex_price uptick downtick risk_free_pct : R) (time_steps : Z)
    (delta_time_step : R) (w : world) :
  uptick <> downtick -> (0 <= time_steps)%Z ->
  0 <= prob uptick downtick risk_free_pct delta_time_step <= 1 ->
  (forall j, (0 <= j <= time_steps)%Z ->
     ex_price
     <= stock_price * powerRZ uptick j * powerRZ downtick (time_steps - j)) ->
  exists sg vg,
    option_tree stock_price ex_price uptick downtick risk_free_pct
                time_steps delta_time_step w
    = (Ok (sg, vg),
       report (stock_price
               - ex_price * DF risk_free_pct delta_time_step
                            ^ Z.to_nat time_steps) w) /\
    forall step j, (0 <= step <= time_steps)%Z -> (0 <= j <= step)%Z ->
      exists price,
        getitem2 sg step j = Ok price /\
        getitem2 vg step j
        = Ok (price - ex_price * DF risk_free_pct delta_time_step
                                 ^ Z.to_nat (time_steps - step)).
Proof.
  intros Hud HN Hp Hin.
  destruct (option_tree_ok_Z stock_price ex_price uptick downtick risk_free_pct
              time_steps delta_time_step w Hud HN)
    as (sg & vg & Hrun & Tsg & Tvg & Csg & Cterm & Cind).
  assert (Hf : forall i j, (j <= i <= Z.to_nat time_steps)%nat ->
             cell vg i j
             = node_price stock_price uptick downtick i j
               - ex_price * DF risk_free_pct delta_time_step
                            ^ (Z.to_nat time_steps - i)).
  { intros i j Hij.
    apply (cells_forward stock_price ex_price uptick downtick risk_free_pct
             delta_time_step (Z.to_nat time_steps) sg vg Hud Hp Csg Cterm Cind);
      [|assumption].
    intros b Hb.
    specialize (Hin (Z.of_nat b) ltac:(lia)).
    rewrite <- (node_price_powerRZ stock_price uptick downtick time_steps
                  (Z.of_nat b)) in Hin by lia.
    now rewrite Nat2Z.id in Hin. }
  exists sg, vg. split.
  - rewrite Hrun. rewrite Hf by lia. rewrite Nat.sub_0_r.
    unfold node_price. simpl. now rewrite !Rmult_1_r.
  - intros step j Hstep Hj.
    exists (cell sg (Z.to_nat step) (Z.to_nat j)).
    rewrite (getitem2_Z sg (Z.to_nat time_steps) step j Tsg) by lia.
    rewrite (getitem2_Z vg (Z.to_nat time_steps) step j Tvg) by lia.
    split; [reflexivity|]. f_equal.
    rewrite Hf by lia. rewrite Csg by lia.
    now replace (Z.to_nat (time_steps - step))
      with (Z.to_nat time_steps - Z.to_nat step)%nat by lia.
Qed.

Lemma in_the_money_tree_is_forward_witness :
  2 <> 1 / 2 /\ (0 <= 1)%Z /\ 0 <= prob 2 (1 / 2) 0 1 <= 1 /\
  (forall j, (0 <= j <= 1)%Z ->
     1 / 4 <= 1 * powerRZ 2 j * powerRZ (1 / 2) (1 - j)) /\
  exists sg vg,
    option_tree 1 (1 / 4) 2 (1 / 2) 0 1 1 script_world
    = (Ok (sg, vg), report (1 - 1 / 4 * DF 0 1 ^ Z.to_nat 1) script_world) /\
    forall step j, (0 <= step <= 1)%Z -> (0 <= j <= step)%Z ->
      exists price,
        getitem2 sg step j = Ok price /\
        getitem2 vg step j
        = Ok (price - 1 / 4 * DF 0 1 ^ Z.to_nat (1 - step)).
Proof.
  assert (Hp : 0 <= prob 2 (1 / 2) 0 1 <= 1) by (rewrite prob_0; lra).
  assert (H : forall j, (0 <= j <= 1)%Z ->
                        1 / 4 <= 1 * powerRZ 2 j * powerRZ (1 / 2) (1 - j)).
  { intros j Hj. assert (E : j = 0%Z \/ j = 1%Z) by lia.
    destruct E as [-> | ->]; simpl; lra. }
  split; [lra|]. split; [lia|]. split; [exact Hp|]. split; [exact H|].
  apply (in_the_money_tree_is_forward 1 (1 / 4) 2 (1 / 2) 0 1 1 script_world);
    [lra|lia|exact Hp|exact H].
Defined.

(** X7.  With [p] in [0, 1], a non-negative initial price and
    [0 <= downtick <= uptick], the value grid is non-decreasing along
    every row: a node with more up moves is worth at least as much. *)
Theorem value_monotone_in_level
    (stock_price ex_price uptick downtick risk_free_pct : R) (time_steps : Z)
    (delta_time_step : R) (w : world) :
  uptick <> downtick -> (0 <= time_steps)%Z ->
  0 <= prob uptick downtick risk_free_pct delta_time_step <= 1 ->
  0 <= stock_price -> 0 <= downtick <= uptick ->
  exists sg vg w',
    option_tree stock_price ex_price uptick downtick risk_free_pct
                time_steps delta_time_step w
    = (Ok (sg, vg), w') /\
    forall step j, (0 < step <= time_steps)%Z -> (0 <= j < step)%Z ->
      exists a b,
        getitem2 vg step j = Ok a /\
        getitem2 vg step (j + 1) = Ok b /\
        a <= b.
Proof.
  intros Hud HN Hp HS Hdu.
  destruct (option_tree_ok_Z stock_price ex_price uptick downtick risk_free_pct
              time_steps delta_time_step w Hud HN)
    as (sg & vg & Hrun & Tsg & Tvg & Csg & Cterm & Cind).
  exists sg, vg, (report (cell vg 0 0) w). split; [exact Hrun|].
  intros step j Hstep Hj.
  exists (cell vg (Z.to_nat step) (Z.to_nat j)),
         (cell vg (Z.to_nat step) (S (Z.to_nat j))).
  rewrite (getitem2_Z vg (Z.to_nat time_steps) step j Tvg) by lia.
  rewrite (getitem2_Z vg (Z.to_nat time_steps) step (j + 1) Tvg) by lia.
  replace (Z.to_nat (j + 1)) with (S (Z.to_nat j)) by lia.
  split; [reflexivity|]. split; [reflexivity|].
  apply (cells_monotone stock_price ex_price uptick downtick _ _
           (Z.to_nat time_steps) sg vg Csg Cterm Cind);
    try assumption; try lia.
  left. apply DF_pos.
Qed.

Lemma value_monotone_in_level_witness :
  2 <> 1 / 2 /\ (0 <= 1)%Z /\ 0 <= prob 2 (1 / 2) 0 1 <= 1 /\
  0 <= 1 /\ 0 <= 1 / 2 <= 2 /\
  exists sg vg w',
    option_tree 1 1 2 (1 / 2) 0 1 1 script_world = (Ok (sg, vg), w') /\
    forall step j, (0 < step <= 1)%Z -> (0 <= j < step)%Z ->
      exists a b,
        getitem2 vg step j = Ok a /\
        getitem2 vg step (j + 1) = Ok b /\
        a <= b.
Proof.
  assert (Hp : 0 <= prob 2 (1 / 2) 0 1 <= 1) by (rewrite prob_0; lra).
  split; [lra|]. split; [lia|]. split; [exact Hp|].
  split; [lra|]. split; [lra|].
  apply (value_monotone_in_level 1 1 2 (1 / 2) 0 1 1 script_world);
    try lra; try lia; exact Hp.
Defined.

(** ** The calculated parameters *)

Lemma truediv_ok (a b : R) : b <> 0 -> truediv a b = Ok (a / b).
Proof.
  intros H. unfold truediv. destruct (Req_dec_T b 0); [contradiction|reflexivity].
Qed.

Lemma truediv_zero (a : R) : truediv a 0 = Raise ZeroDivisionError.
Proof.
  unfold truediv. destruct (Req_dec_T 0 0); [reflexivity|lra].
Qed.

Lemma exp_nonzero (x : R) : exp x <> 0.
Proof. pose proof (exp_pos x). lra. Qed.

Lemma exp_gt_1 (x : R) : 0 < x -> 1 < exp x.
Proof. intros H. rewrite <- exp_0. now apply exp_increasing. Qed.

Lemma exp_le (x y : R) : x <= y -> exp x <= exp y.
Proof.
  intros [H | ->]; [left; now apply exp_increasing | right; reflexivity].
Qed.

Lemma calculated_parameters_ok
    (time_to_maturity : R) (time_steps : Z) (volatility : R) :
  time_steps <> 0%Z -> 0 <= time_to_maturity / IZR time_steps ->
  calculated_parameters time_to_maturity time_steps volatility
  = inr (time_to_maturity / IZR time_steps,
         exp (volatility / 100 * sqrt (time_to_maturity / IZR time_steps)),
         1 / exp (volatility / 100 * sqrt (time_to_maturity / IZR time_steps))).
Proof.
  intros HN Hdt. unfold calculated_parameters.
  rewrite truediv_ok by (apply not_0_IZR; assumption).
  rewrite truediv_ok by lra.
  unfold math_sqrt.
  destruct (Rlt_dec (time_to_maturity / IZR time_steps) 0); [lra|].
  cbv zeta. now rewrite truediv_ok by apply exp_nonzero.
Qed.

(** X9.  In exact arithmetic, for a positive maturity, at least one
    step and a positive volatility lines 31-33 yield a proper lattice:
    the step length is [TIME_TO_MATURITY / TIME_STEPS > 0], and
    [UPTICK > 1 > DOWNTICK > 0] with [UPTICK * DOWNTICK = 1].  (On
    doubles [math.exp] rounds: a tiny volatility gives
    [UPTICK = DOWNTICK = 1.0], and the products hold up to rounding
    only.) *)
Theorem calculated_parameters_lattice
    (time_to_maturity : R) (time_steps : Z) (volatility : R) :
  0 < time_to_maturity -> (1 <= time_steps)%Z -> 0 < volatility ->
  exists delta_time_step uptick downtick,
    calculated_parameters time_to_maturity time_steps volatility
    = inr (delta_time_step, uptick, downtick) /\
    delta_time_step * IZR time_steps = time_to_maturity /\
    0 < delta_time_step /\
    1 < uptick /\ 0 < downtick < 1 /\ uptick * downtick = 1.
Proof.
  intros HT HN HV.
  assert (HZ : 0 < IZR time_steps) by (apply IZR_lt; lia).
  assert (Hdt : 0 < time_to_maturity / IZR time_steps)
    by (now apply Rdiv_lt_0_compat).
  exists (time_to_maturity / IZR time_steps),
         (exp (volatility / 100 * sqrt (time_to_maturity / IZR time_steps))),
         (1 / exp (volatility / 100 * sqrt (time_to_maturity / IZR time_steps))).
  split; [apply calculated_parameters_ok; [lia|lra]|].
  split; [field; lra|]. split; [assumption|].
  assert (Ha : 0 < volatility / 100 * sqrt (time_to_maturity / IZR time_steps)).
  { apply Rmult_lt_0_compat; [lra|now apply sqrt_lt_R0]. }
  pose proof (exp_gt_1 _ Ha) as Hu.
  set (u := exp (volatility / 100 * sqrt (time_to_maturity / IZR time_steps))) in *.
  split; [assumption|].
  assert (Hinv : 0 < / u) by (apply Rinv_0_lt_compat; lra).
  assert (Hone : u * / u = 1) by (apply Rinv_r; lra).
  unfold Rdiv. rewrite Rmult_1_l.
  split; [split; [assumption|nra]|assumption].
Qed.

Lemma calculated_parameters_lattice_witness :
  0 < 6 / 12 /\ (1 <= 101)%Z /\ 0 < 30 /\
  exists delta_time_step uptick downtick,
    calculated_parameters (6 / 12) 101 30
    = inr (delta_time_step, uptick, downtick) /\
    delta_time_step * IZR 101 = 6 / 12 /\
    0 < delta_time_step /\
    1 < uptick /\ 0 < downtick < 1 /\ uptick * downtick = 1.
Proof.
  split; [lra|]. split; [lia|]. split; [lra|].
  apply (calculated_parameters_lattice (6 / 12) 101 30); [lra|lia|lra].
Defined.

(** X10.  With zero volatility lines 31-33 bind [UPTICK = DOWNTICK = 1],
    and every call of [option_tree] with these factors ends in
    [ZeroDivisionError] without printing. *)
Theorem zero_volatility_is_degenerate
    (time_to_maturity : R) (time_steps : Z)
    (stock_price ex_price risk_free_pct : R) (w : world) :
  time_steps <> 0%Z -> 0 <= time_to_maturity / IZR time_steps ->
  exists delta_time_step,
    calculated_parameters time_to_maturity time_steps 0
    = inr (delta_time_step, 1, 1) /\
    option_tree stock_price ex_price 1 1 risk_free_pct time_steps
                delta_time_step w
    = (Raise ZeroDivisionError, w).
Proof.
  intros HN Hdt. exists (time_to_maturity / IZR time_steps). split.
  - rewrite calculated_parameters_ok by assumption.
    replace (0 / 100 * sqrt (time_to_maturity / IZR time_steps)) with 0 by lra.
    rewrite exp_0. do 2 f_equal. lra.
  - now apply option_tree_degenerate.
Qed.

Lemma zero_volatility_is_degenerate_witness :
  101%Z <> 0%Z /\ 0 <= 6 / 12 / IZR 101 /\
  exists delta_time_step,
    calculated_parameters (6 / 12) 101 0 = inr (delta_time_step, 1, 1) /\
    option_tree 40 40 1 1 4 101 delta_time_step script_world
    = (Raise ZeroDivisionError, script_world).
Proof.
  split; [lia|]. split; [lra|].
  apply (zero_volatility_is_degenerate (6 / 12) 101 40 40 4 script_world);
    [lia|lra].
Defined.

(** X11.  In exact arithmetic the calculated factors are free of
    arbitrage whenever the interest accrued over one step is no larger
    in size than one volatility step: then [UPTICK <> DOWNTICK] and the
    [p] that [option_tree] derives lies in [0, 1].  (On doubles a tiny
    volatility rounds both factors to [1.0].) *)
Theorem calculated_parameters_no_arbitrage
    (time_to_maturity : R) (time_steps : Z) (volatility risk_free_pct : R) :
  0 < time_to_maturity -> (1 <= time_steps)%Z -> 0 < volatility ->
  - (volatility / 100 * sqrt (time_to_maturity / IZR time_steps))
  <= risk_free_pct / 100 * (time_to_maturity / IZR time_steps)
  <= volatility / 100 * sqrt (time_to_maturity / IZR time_steps) ->
  exists delta_time_step uptick downtick,
    calculated_parameters time_to_maturity time_steps volatility
    = inr (delta_time_step, uptick, downtick) /\
    uptick <> downtick /\
    0 <= prob uptick downtick risk_free_pct delta_time_step <= 1.
Proof.
  intros HT HN HV Hr.
  assert (HZ : 0 < IZR time_steps) by (apply IZR_lt; lia).
  assert (Hdt : 0 < time_to_maturity / IZR time_steps)
    by (now apply Rdiv_lt_0_compat).
  set (dt := time_to_maturity / IZR time_steps) in *.
  set (a := volatility / 100 * sqrt dt) in *.
  exists dt, (exp a), (1 / exp a).
  split; [apply calculated_parameters_ok; [lia|left; exact Hdt]|].
  assert (Ha : 0 < a).
  { apply Rmult_lt_0_compat; [lra|now apply sqrt_lt_R0]. }
  assert (Hd : 1 / exp a = exp (- a)).
  { rewrite exp_Ropp. unfold Rdiv. now rewrite Rmult_1_l. }
  rewrite Hd.
  assert (Hlt : exp (- a) < exp a) by (apply exp_increasing; lra).
  split; [lra|].
  unfold prob, rate.
  assert (H1 : exp (- a) <= exp (risk_free_pct / 100 * dt)) by (apply exp_le; lra).
  assert (H2 : exp (risk_free_pct / 100 * dt) <= exp a) by (apply exp_le; lra).
  split.
  - apply Rmult_le_pos; [lra|]. left. apply Rinv_0_lt_compat. lra.
  - apply (Rmult_le_reg_r (exp a - exp (- a))); [lra|].
    unfold Rdiv. rewrite Rmult_assoc, Rinv_l by lra. lra.
Qed.

Lemma calculated_parameters_no_arbitrage_witness :
  0 < 1 /\ (1 <= 1)%Z /\ 0 < 100 /\
  - (100 / 100 * sqrt (1 / IZR 1)) <= 0 / 100 * (1 / IZR 1)
    <= 100 / 100 * sqrt (1 / IZR 1) /\
  exists delta_time_step uptick downtick,
    calculated_parameters 1 1 100 = inr (delta_time_step, uptick, downtick) /\
    uptick <> downtick /\
    0 <= prob uptick downtick 0 delta_time_step <= 1.
Proof.
  assert (H : - (100 / 100 * sqrt (1 / IZR 1)) <= 0 / 100 * (1 / IZR 1)
              <= 100 / 100 * sqrt (1 / IZR 1)).
  { replace (1 / IZR 1) with 1 by lra. rewrite sqrt_1. lra. }
  split; [lra|]. split; [lia|]. split; [lra|]. split; [exact H|].
  apply (calculated_parameters_no_arbitrage 1 1 100 0); [lra|lia|lra|exact H].
Defined.

(** ** Drawing one frame *)

Lemma floordiv_ok (a b : Z) : b <> 0%Z -> floordiv a b = Ok (a / b)%Z.
Proof.
  intros H. unfold floordiv. destruct (Z.eqb_spec b 0); [contradiction|reflexivity].
Qed.

Lemma draw_node_ok (font_size : Z) (stock_tree option_tree : grid)
    (height : Z) (offset_x offset_y zoom h_dist v_dist node_radius : R)
    (n step j : nat) (screen : Surface) :
  tri stock_tree n -> tri option_tree n -> (j <= step <= n)%nat ->
  draw_node font_size stock_tree option_tree height offset_x offset_y zoom
            h_dist v_dist node_radius (Z.of_nat step) (Z.of_nat j) screen
  = Ok (screen ++
        node_cmds font_size height offset_x offset_y zoom h_dist v_dist
                  node_radius (Z.of_nat step) (Z.of_nat j)
                  (cell stock_tree step j) (cell option_tree step j)).
Proof.
  intros Ts To Hj. unfold draw_node.
  rewrite (getitem2_nat stock_tree n step j Ts Hj). cbn [bind].
  rewrite (getitem2_nat option_tree n step j To Hj). cbn [bind].
  f_equal. unfold node_cmds, node_edges, node_marks, node_x, node_y.
  destruct (0 <? Z.of_nat step)%Z, (0 <? Z.of_nat j)%Z,
           (Z.of_nat j <? Z.of_nat step)%Z; cbn [andb app];
    repeat rewrite <- app_assoc; cbn [app]; reflexivity.
Qed.

Lemma seq_snoc (k : nat) : seq 0 (S k) = seq 0 k ++ [k].
Proof. now rewrite seq_S. Qed.

Lemma flat_map_snoc {A B} (f : A -> list B) (l : list A) (x : A) :
  flat_map f (l ++ [x]) = flat_map f l ++ f x.
Proof. rewrite flat_map_app. simpl. now rewrite app_nil_r. Qed.

(** On triangular grids of [n >= 1] steps the frame is drawn in full,
    after whatever the screen held. *)
Lemma draw_tree_ok (font : font_metrics) (screen : Surface)
    (stock_tree option_tree : grid) (height : Z) (n : nat)
    (offset_x offset_y zoom : R) :
  tri stock_tree n -> tri option_tree n -> (1 <= n)%nat ->
  draw_tree font screen stock_tree option_tree height (Z.of_nat n)
            offset_x offset_y zoom
  = Ok (screen ++
        frame_cmds (int (12 * zoom)) height offset_x offset_y zoom
                   (h_dist_of font stock_tree zoom)
                   (v_dist_of height (Z.of_nat n) zoom)
                   (node_radius_of zoom) stock_tree option_tree (S n)).
Proof.
  intros Ts To Hn. unfold draw_tree.
  rewrite floordiv_ok by lia. cbn [bind].
  fold (h_dist_of font stock_tree zoom).
  fold (v_dist_of height (Z.of_nat n) zoom).
  fold (node_radius_of zoom).
  set (F := frame_cmds (int (12 * zoom)) height offset_x offset_y zoom
              (h_dist_of font stock_tree zoom)
              (v_dist_of height (Z.of_nat n) zoom) (node_radius_of zoom)
              stock_tree option_tree).
  set (N := fun step j =>
              node_cmds (int (12 * zoom)) height offset_x offset_y zoom
                (h_dist_of font stock_tree zoom)
                (v_dist_of height (Z.of_nat n) zoom) (node_radius_of zoom)
                (Z.of_nat step) (Z.of_nat j)
                (cell stock_tree step j) (cell option_tree step j)).
  of_nat_succ n.
  match goal with
  | |- for_each _ ?body _ = _ =>
      destruct (for_range body (fun k s => s = screen ++ F k) (S n) screen)
        as (s' & Hrun & ->)
  end.
  - unfold F, frame_cmds. simpl. now rewrite app_nil_r.
  - intros k t Hk ->. of_nat_succ k.
    match goal with
    | |- exists _, for_each _ ?body _ = _ /\ _ =>
        destruct (for_range body
                    (fun m s => s = (screen ++ F k)
                                    ++ flat_map (N k) (seq 0 m))
                    (S k) (screen ++ F k))
          as (s' & Hrun & ->)
    end.
    + simpl. now rewrite app_nil_r.
    + intros m t Hm ->.
      rewrite (draw_node_ok _ _ _ _ _ _ _ _ _ _ n k m) by (try assumption; lia).
      eexists. split; [reflexivity|].
      rewrite seq_snoc, flat_map_snoc, <- app_assoc. reflexivity.
    + exists ((screen ++ F k) ++ flat_map (N k) (seq 0 (S k))).
      split; [assumption|].
      assert (E : F (S k) = F k ++ flat_map (N k) (seq 0 (S k))).
      { unfold F, frame_cmds. rewrite (seq_snoc k) at 1.
        now rewrite flat_map_snoc. }
      now rewrite E, app_assoc.
  - exact Hrun.
Qed.

Lemma draw_tree_zero_steps (font : font_metrics) (screen : Surface)
    (stock_tree option_tree : grid) (height : Z) (offset_x offset_y zoom : R) :
  draw_tree font screen stock_tree option_tree height 0 offset_x offset_y zoom
  = Raise ZeroDivisionError.
Proof. reflexivity. Qed.

(** The commands of a frame, node by node. *)
Lemma in_frame_cmds (font_size height : Z)
    (offset_x offset_y zoom h_dist v_dist node_radius : R)
    (stock_tree option_tree : grid) (rows : nat) (c : draw_cmd) :
  In c (frame_cmds font_size height offset_x offset_y zoom h_dist v_dist
                   node_radius stock_tree option_tree rows)
  <-> exists step j, (j <= step < rows)%nat /\
        In c (node_cmds font_size height offset_x offset_y zoom h_dist v_dist
                        node_radius (Z.of_nat step) (Z.of_nat j)
                        (cell stock_tree step j) (cell option_tree step j)).
Proof.
  unfold frame_cmds. rewrite in_flat_map. split.
  - intros (step & Hstep & Hc). rewrite in_flat_map in Hc.
    destruct Hc as (j & Hj & Hc). rewrite in_seq in Hstep, Hj.
    exists step, j. split; [lia|assumption].
  - intros (step & j & Hij & Hc). exists step. split; [apply in_seq; lia|].
    rewrite in_flat_map. exists j. split; [apply in_seq; lia|assumption].
Qed.

(** What a successful call of [option_tree] says about its arguments and
    its grids. *)
Lemma option_tree_inv
    (stock_price ex_price uptick downtick risk_free_pct : R) (time_steps : Z)
    (delta_time_step : R) (w w' : world) (sg vg : grid) :
  option_tree stock_price ex_price uptick downtick risk_free_pct
              time_steps delta_time_step w
  = (Ok (sg, vg), w') ->
  uptick <> downtick /\ (0 <= time_steps)%Z /\
  w' = report (cell vg 0 0) w /\
  tri sg (Z.to_nat time_steps) /\ tri vg (Z.to_nat time_steps) /\
  (forall i j, (j <= i <= Z.to_nat time_steps)%nat ->
      cell sg i j = node_price stock_price uptick downtick i j).
Proof.
  intros Hrun.
  destruct (Req_dec_T uptick downtick) as [E|Hud].
  { rewrite option_tree_degenerate in Hrun by assumption. discriminate. }
  destruct (Z_lt_le_dec time_steps 0) as [Hneg|HN].
  { rewrite option_tree_negative_steps in Hrun by assumption. discriminate. }
  destruct (option_tree_ok_Z stock_price ex_price uptick downtick risk_free_pct
              time_steps delta_time_step w Hud HN)
    as (sg' & vg' & Hrun' & Tsg & Tvg & Csg & _).
  rewrite Hrun' in Hrun. injection Hrun as -> -> <-.
  repeat (split; [assumption || reflexivity|]). assumption.
Qed.

Lemma in_node_cmds_line (font_size height : Z)
    (offset_x offset_y zoom h_dist v_dist node_radius : R)
    (step j : nat) (s o : R) (c : color) (p q : R * R) :
  (j <= step)%nat ->
  In (line c p q)
     (node_cmds font_size height offset_x offset_y zoom h_dist v_dist
                node_radius (Z.of_nat step) (Z.of_nat j) s o) ->
  p = (node_x offset_x h_dist (Z.of_nat step),
       node_y height offset_y v_dist (Z.of_nat step) (Z.of_nat j)) /\
  exists j', (0 < step)%nat /\ (j' <= step - 1)%nat /\
    q = (node_x offset_x h_dist (Z.of_nat (step - 1)),
         node_y height offset_y v_dist (Z.of_nat (step - 1)) (Z.of_nat j')).
Proof.
  intros Hj. unfold node_cmds, node_edges, node_marks. rewrite !in_app_iff.
  intros [[H|H]|H].
  - destruct (Z.ltb_spec 0 (Z.of_nat step)); cbn [andb] in H; [|destruct H].
    destruct (Z.ltb_spec 0 (Z.of_nat j)); [|destruct H].
    destruct H as [H|[]]. injection H as _ <- <-. split; [reflexivity|].
    exists (j - 1)%nat. split; [lia|]. split; [lia|].
    replace (Z.of_nat (step - 1)) with (Z.of_nat step - 1)%Z by lia.
    replace (Z.of_nat (j - 1)) with (Z.of_nat j - 1)%Z by lia. reflexivity.
  - destruct (Z.ltb_spec 0 (Z.of_nat step)); cbn [andb] in H; [|destruct H].
    destruct (Z.ltb_spec (Z.of_nat j) (Z.of_nat step)); [|destruct H].
    destruct H as [H|[]]. injection H as _ <- <-. split; [reflexivity|].
    exists j. split; [lia|]. split; [lia|].
    replace (Z.of_nat (step - 1)) with (Z.of_nat step - 1)%Z by lia.
    reflexivity.
  - simpl in H. intuition discriminate.
Qed.

Lemma in_node_cmds_circle (font_size height : Z)
    (offset_x offset_y zoom h_dist v_dist node_radius : R)
    (step j : Z) (s o : R) (c : color) (p : R * R) (r : R) :
  In (circle c p r)
     (node_cmds font_size height offset_x offset_y zoom h_dist v_dist
                node_radius step j s o)
  <-> c = blue /\ r = node_radius /\
      p = (node_x offset_x h_dist step, node_y height offset_y v_dist step j).
Proof.
  unfold node_cmds, node_edges, node_marks. rewrite !in_app_iff. split.
  - intros [[H|H]|H].
    + destruct (_ && _)%bool; simpl in H; intuition discriminate.
    + destruct (_ && _)%bool; simpl in H; intuition discriminate.
    + simpl in H. destruct H as [H|[H|[H|[]]]]; try discriminate.
      injection H as <- <- <-. repeat split.
  - intros (-> & -> & ->). right. left. reflexivity.
Qed.

Lemma in_frame_circle (font_size height : Z)
    (offset_x offset_y zoom h_dist v_dist node_radius : R)
    (stock_tree option_tree : grid) (rows step j : nat) :
  (j <= step < rows)%nat ->
  In (circle blue
             (node_x offset_x h_dist (Z.of_nat step),
              node_y height offset_y v_dist (Z.of_nat step) (Z.of_nat j))
             node_radius)
     (frame_cmds font_size height offset_x offset_y zoom h_dist v_dist
                 node_radius stock_tree option_tree rows).
Proof.
  intros H. apply in_frame_cmds. exists step, j. split; [assumption|].
  apply in_node_cmds_circle. repeat split.
Qed.

(** X12.  Every edge of a frame joins two nodes of that frame: whenever
    [draw_tree] draws the grids returned by [option_tree] for at least
    one step, it succeeds, and both end points of every line it draws
    are centres of circles it draws. *)
Theorem drawn_edges_join_drawn_nodes (font : font_metrics)
    (stock_price ex_price uptick downtick risk_free_pct : R) (time_steps : Z)
    (delta_time_step : R) (w w' : world) (sg vg : grid)
    (height : Z) (offset_x offset_y zoom : R) :
  (1 <= time_steps)%Z ->
  option_tree stock_price ex_price uptick downtick risk_free_pct
              time_steps delta_time_step w
  = (Ok (sg, vg), w') ->
  exists frame,
    draw_tree font [] sg vg height time_steps offset_x offset_y zoom
    = Ok frame /\
    forall c p q, In (line c p q) frame ->
      exists r, In (circle blue p r) frame /\ In (circle blue q r) frame.
Proof.
  intros HN Hrun.
  destruct (option_tree_inv _ _ _ _ _ _ _ _ _ _ _ Hrun)
    as (_ & _ & _ & Tsg & Tvg & _).
  pose proof (draw_tree_ok font [] sg vg height (Z.to_nat time_steps)
                offset_x offset_y zoom Tsg Tvg ltac:(lia)) as Hdraw.
  rewrite Z2Nat.id in Hdraw by lia. cbn [app] in Hdraw.
  eexists. split; [exact Hdraw|].
  intros c p q Hline. exists (node_radius_of zoom).
  apply in_frame_cmds in Hline. destruct Hline as (step & j & Hij & Hline).
  apply in_node_cmds_line in Hline; [|lia].
  destruct Hline as (-> & j' & Hstep & Hj' & ->).
  split; apply in_frame_circle; lia.
Qed.

Lemma drawn_edges_join_drawn_nodes_witness :
  (1 <= 1)%Z /\
  option_tree 1 1 3 2 0 1 1 script_world
  = (Ok ([[1]; [2; 3]], [[0]; [1; 2]]), report 0 script_world) /\
  exists frame,
    draw_tree (fun _ _ => 40%Z) [] [[1]; [2; 3]] [[0]; [1; 2]] 720 1 0 0 1
    = Ok frame /\
    forall c p q, In (line c p q) frame ->
      exists r, In (circle blue p r) frame /\ In (circle blue q r) frame.
Proof.
  split; [lia|]. split; [apply run_up3_down2|].
  apply (drawn_edges_join_drawn_nodes (fun _ _ => 40%Z) 1 1 3 2 0 1 1
           script_world (report 0 script_world));
    [lia|apply run_up3_down2].
Defined.

(** ** Geometry of a frame *)

Lemma max_int_bounds (a b : Z) : (a <= max_int a b)%Z /\ (b <= max_int a b)%Z.
Proof. unfold max_int. destruct (Z.ltb_spec a b); lia. Qed.

Lemma h_dist_of_wide (font : font_metrics) (stock_tree : grid) (zoom : R) :
  0 <= zoom -> 50 * zoom <= h_dist_of font stock_tree zoom.
Proof.
  intros Hz. unfold h_dist_of.
  destruct (max_int_bounds (widest_label font (int (12 * zoom)) stock_tree) 50)
    as [_ H].
  apply IZR_le in H. apply Rmult_le_compat_r; assumption.
Qed.

Lemma v_dist_of_tall (height time_steps : Z) (zoom : R) :
  0 <= zoom -> 30 * zoom <= v_dist_of height time_steps zoom.
Proof.
  intros Hz. unfold v_dist_of.
  destruct (max_int_bounds 30 (height / (2 * time_steps))) as [H _].
  apply IZR_le in H. apply Rmult_le_compat_r; assumption.
Qed.

Lemma node_radius_of_zoomed (zoom : R) :
  1 / 2 <= zoom -> node_radius_of zoom = 20 * zoom.
Proof.
  intros Hz. unfold node_radius_of, max.
  destruct (Rlt_dec 10 (20 * zoom)); lra.
Qed.

Lemma IZR_square_ge_1 (d : Z) : d <> 0%Z -> 1 <= IZR d * IZR d.
Proof.
  intros H. rewrite <- mult_IZR. apply IZR_le. nia.
Qed.

(** Distinct nodes lie more than two radii of [20 * zoom] apart. *)
Lemma centres_apart (height : Z) (offset_x offset_y h_dist v_dist zoom : R)
    (s1 j1 s2 j2 : Z) :
  0 < zoom -> 50 * zoom <= h_dist -> 30 * zoom <= v_dist ->
  (s1 <> s2 \/ j1 <> j2) ->
  (20 * zoom + 20 * zoom) * (20 * zoom + 20 * zoom)
  < (node_x offset_x h_dist s1 - node_x offset_x h_dist s2)
    * (node_x offset_x h_dist s1 - node_x offset_x h_dist s2)
    + (node_y height offset_y v_dist s1 j1 - node_y height offset_y v_dist s2 j2)
      * (node_y height offset_y v_dist s1 j1 - node_y height offset_y v_dist s2 j2).
Proof.
  intros Hz Hh Hv Hne. unfold node_x, node_y.
  destruct (Z.eq_dec s1 s2) as [->|Hs].
  - assert (Hj : (j2 - j1 <> 0)%Z) by (destruct Hne; [congruence|lia]).
    pose proof (IZR_square_ge_1 _ Hj) as Hb.
    replace (offset_y + v_dist * IZR (s2 - 2 * j1) + IZR (height / 2)
             - (offset_y + v_dist * IZR (s2 - 2 * j2) + IZR (height / 2)))
      with (2 * v_dist * IZR (j2 - j1))
      by (rewrite !minus_IZR, !mult_IZR; simpl; ring).
    set (b := IZR (j2 - j1)) in *.
    assert (Hvv : 900 * (zoom * zoom) <= v_dist * v_dist) by nra.
    assert (0 <= (v_dist * v_dist) * (b * b - 1))
      by (apply Rmult_le_pos; nra).
    nra.
  - assert (Hd : (s1 - s2 <> 0)%Z) by lia.
    pose proof (IZR_square_ge_1 _ Hd) as Ha.
    replace (offset_x + h_dist * IZR s1 - (offset_x + h_dist * IZR s2))
      with (h_dist * IZR (s1 - s2)) by (rewrite minus_IZR; ring).
    set (a := IZR (s1 - s2)) in *.
    assert (Hhh : 2500 * (zoom * zoom) <= h_dist * h_dist) by nra.
    assert (0 <= (h_dist * h_dist) * (a * a - 1))
      by (apply Rmult_le_pos; nra).
    match goal with
    | |- _ < _ + ?y * ?y =>
        pose proof (Rle_0_sqr y) as Hy; unfold Rsqr in Hy;
        revert Hy; generalize y; intros Y Hy
    end.
    nra.
Qed.

(** Circles of one frame on triangular grids, at a zoom of at least
    one half. *)
Lemma frame_circles_apart (font : font_metrics) (sg vg : grid)
    (height : Z) (n : nat) (offset_x offset_y zoom : R) (frame : Surface) :
  tri sg n -> tri vg n -> (1 <= n)%nat -> 1 / 2 <= zoom ->
  draw_tree font [] sg vg height (Z.of_nat n) offset_x offset_y zoom
  = Ok frame ->
  forall c1 p1 r1 c2 p2 r2,
    In (circle c1 p1 r1) frame -> In (circle c2 p2 r2) frame -> p1 <> p2 ->
    (r1 + r2) * (r1 + r2)
    < (fst p1 - fst p2) * (fst p1 - fst p2)
      + (snd p1 - snd p2) * (snd p1 - snd p2).
Proof.
  intros Tsg Tvg Hn Hz Hdraw.
  rewrite (draw_tree_ok font [] sg vg height n offset_x offset_y zoom
             Tsg Tvg Hn) in Hdraw.
  cbn [app] in Hdraw. injection Hdraw as <-.
  intros c1 p1 r1 c2 p2 r2 H1 H2 Hne.
  apply in_frame_cmds in H1. destruct H1 as (s1 & j1 & _ & H1).
  apply in_frame_cmds in H2. destruct H2 as (s2 & j2 & _ & H2).
  apply in_node_cmds_circle in H1. destruct H1 as (_ & -> & ->).
  apply in_node_cmds_circle in H2. destruct H2 as (_ & -> & ->).
  rewrite node_radius_of_zoomed by assumption. cbn [fst snd].
  apply centres_apart.
  - lra.
  - apply h_dist_of_wide. lra.
  - apply v_dist_of_tall. lra.
  - destruct (Z.eq_dec (Z.of_nat s1) (Z.of_nat s2)) as [Es|Es];
      [|left; assumption].
    destruct (Z.eq_dec (Z.of_nat j1) (Z.of_nat j2)) as [Ej|Ej];
      [|right; assumption].
    exfalso. apply Hne. now rewrite Es, Ej.
Qed.

(** X13.  At every zoom factor of at least [0.5], the lower end of the
    range the window allows, node circles never overlap.  The circles of
    a frame are exactly the circles of the nodes, one at the position of
    each [(step, j)] with radius [max(10, 20 * zoom)]; and the circles
    of two different nodes [(s1, j1)] and [(s2, j2)] are both drawn and
    their centres are further apart than the sum of their radii. *)
Theorem drawn_nodes_do_not_overlap (font : font_metrics)
    (stock_price ex_price uptick downtick risk_free_pct : R) (time_steps : Z)
    (delta_time_step : R) (w w' : world) (sg vg : grid)
    (height : Z) (offset_x offset_y zoom : R) :
  (1 <= time_steps)%Z -> 1 / 2 <= zoom ->
  option_tree stock_price ex_price uptick downtick risk_free_pct
              time_steps delta_time_step w
  = (Ok (sg, vg), w') ->
  exists frame,
    draw_tree font [] sg vg height time_steps offset_x offset_y zoom
    = Ok frame /\
    (forall c p r, In (circle c p r) frame ->
       exists step j,
         (0 <= step <= time_steps)%Z /\ (0 <= j <= step)%Z /\
         c = blue /\ r = max 10 (20 * zoom) /\
         p = (node_x offset_x (h_dist_of font sg zoom) step,
              node_y height offset_y (v_dist_of height time_steps zoom)
                     step j)) /\
    (forall s1 j1 s2 j2,
       (0 <= s1 <= time_steps)%Z -> (0 <= j1 <= s1)%Z ->
       (0 <= s2 <= time_steps)%Z -> (0 <= j2 <= s2)%Z ->
       (s1 <> s2 \/ j1 <> j2) ->
       In (circle blue
             (node_x offset_x (h_dist_of font sg zoom) s1,
              node_y height offset_y (v_dist_of height time_steps zoom) s1 j1)
             (max 10 (20 * zoom))) frame /\
       In (circle blue
             (node_x offset_x (h_dist_of font sg zoom) s2,
              node_y height offset_y (v_dist_of height time_steps zoom) s2 j2)
             (max 10 (20 * zoom))) frame /\
       (max 10 (20 * zoom) + max 10 (20 * zoom))
       * (max 10 (20 * zoom) + max 10 (20 * zoom))
       < (node_x offset_x (h_dist_of font sg zoom) s1
          - node_x offset_x (h_dist_of font sg zoom) s2)
         * (node_x offset_x (h_dist_of font sg zoom) s1
            - node_x offset_x (h_dist_of font sg zoom) s2)
         + (node_y height offset_y (v_dist_of height time_steps zoom) s1 j1
            - node_y height offset_y (v_dist_of height time_steps zoom) s2 j2)
           * (node_y height offset_y (v_dist_of height time_steps zoom) s1 j1
              - node_y height offset_y (v_dist_of height time_steps zoom)
                       s2 j2)).
Proof.
  intros HN Hz Hrun.
  destruct (option_tree_inv _ _ _ _ _ _ _ _ _ _ _ Hrun)
    as (_ & _ & _ & Tsg & Tvg & _).
  pose proof (draw_tree_ok font [] sg vg height (Z.to_nat time_steps)
                offset_x offset_y zoom Tsg Tvg ltac:(lia)) as Hdraw.
  rewrite Z2Nat.id in Hdraw by lia. cbn [app] in Hdraw.
  eexists. split; [exact Hdraw|]. split.
  - intros c p r Hc.
    apply in_frame_cmds in Hc. destruct Hc as (s1 & j1 & Hij & Hc).
    apply in_node_cmds_circle in Hc. destruct Hc as (-> & -> & ->).
    exists (Z.of_nat s1), (Z.of_nat j1).
    split; [lia|]. split; [lia|]. repeat split.
  - intros s1 j1 s2 j2 Hs1 Hj1 Hs2 Hj2 Hne.
    fold (node_radius_of zoom).
    split; [|split].
    + rewrite <- (Z2Nat.id s1), <- (Z2Nat.id j1) by lia.
      apply in_frame_circle. lia.
    + rewrite <- (Z2Nat.id s2), <- (Z2Nat.id j2) by lia.
      apply in_frame_circle. lia.
    + rewrite node_radius_of_zoomed by assumption.
      apply centres_apart.
      * lra.
      * apply h_dist_of_wide. lra.
      * apply v_dist_of_tall. lra.
      * exact Hne.
Qed.

Lemma drawn_nodes_do_not_overlap_witness :
  (1 <= 1)%Z /\ 1 / 2 <= 1 / 2 /\
  option_tree 1 1 3 2 0 1 1 script_world
  = (Ok ([[1]; [2; 3]], [[0]; [1; 2]]), report 0 script_world) /\
  exists frame,
    draw_tree (fun _ _ => 40%Z) [] [[1]; [2; 3]] [[0]; [1; 2]] 720 1 0 0 (1 / 2)
    = Ok frame /\
    (forall c p r, In (circle c p r) frame ->
       exists step j,
         (0 <= step <= 1)%Z /\ (0 <= j <= step)%Z /\
         c = blue /\ r = max 10 (20 * (1 / 2)) /\
         p = (node_x 0 (h_dist_of (fun _ _ => 40%Z) [[1]; [2; 3]] (1 / 2)) step,
              node_y 720 0 (v_dist_of 720 1 (1 / 2)) step j)) /\
    (forall s1 j1 s2 j2,
       (0 <= s1 <= 1)%Z -> (0 <= j1 <= s1)%Z ->
       (0 <= s2 <= 1)%Z -> (0 <= j2 <= s2)%Z ->
       (s1 <> s2 \/ j1 <> j2) ->
       In (circle blue
             (node_x 0 (h_dist_of (fun _ _ => 40%Z) [[1]; [2; 3]] (1 / 2)) s1,
              node_y 720 0 (v_dist_of 720 1 (1 / 2)) s1 j1)
             (max 10 (20 * (1 / 2)))) frame /\
       In (circle blue
             (node_x 0 (h_dist_of (fun _ _ => 40%Z) [[1]; [2; 3]] (1 / 2)) s2,
              node_y 720 0 (v_dist_of 720 1 (1 / 2)) s2 j2)
             (max 10 (20 * (1 / 2)))) frame /\
       (max 10 (20 * (1 / 2)) + max 10 (20 * (1 / 2)))
       * (max 10 (20 * (1 / 2)) + max 10 (20 * (1 / 2)))
       < (node_x 0 (h_dist_of (fun _ _ => 40%Z) [[1]; [2; 3]] (1 / 2)) s1
          - node_x 0 (h_dist_of (fun _ _ => 40%Z) [[1]; [2; 3]] (1 / 2)) s2)
         * (node_x 0 (h_dist_of (fun _ _ => 40%Z) [[1]; [2; 3]] (1 / 2)) s1
            - node_x 0 (h_dist_of (fun _ _ => 40%Z) [[1]; [2; 3]] (1 / 2)) s2)
         + (node_y 720 0 (v_dist_of 720 1 (1 / 2)) s1 j1
            - node_y 720 0 (v_dist_of 720 1 (1 / 2)) s2 j2)
           * (node_y 720 0 (v_dist_of 720 1 (1 / 2)) s1 j1
              - node_y 720 0 (v_dist_of 720 1 (1 / 2)) s2 j2)).
Proof.
  split; [lia|]. split; [lra|]. split; [apply run_up3_down2|].
  apply (drawn_nodes_do_not_overlap (fun _ _ => 40%Z) 1 1 3 2 0 1 1
           script_world (report 0 script_world));
    [lia|lra|apply run_up3_down2].
Defined.

Lemma in_node_cmds_marks (font_size height : Z)
    (offset_x offset_y zoom h_dist v_dist node_radius : R)
    (step j : Z) (s o : R) (c : draw_cmd) :
  In c (node_marks font_size height offset_x offset_y zoom h_dist v_dist
                   node_radius step j s o) ->
  In c (node_cmds font_size height offset_x offset_y zoom h_dist v_dist
                  node_radius step j s o).
Proof. intros H. unfold node_cmds. apply in_or_app. now right. Qed.

(** X14.  Every node of the tree appears in the frame: for the grids
    returned by [option_tree] and at least one step, [draw_tree] draws,
    for each [(step, j)], a circle at the node's position, the stock
    label showing [stock_price * uptick^j * downtick^(step - j)] and the
    option label showing the value-grid entry, both at fixed offsets
    from the centre scaled by the zoom. *)
Theorem every_node_is_drawn (font : font_metrics)
    (stock_price ex_price uptick downtick risk_free_pct : R) (time_steps : Z)
    (delta_time_step : R) (w w' : world) (sg vg : grid)
    (height : Z) (offset_x offset_y zoom : R) :
  (1 <= time_steps)%Z ->
  option_tree stock_price ex_price uptick downtick risk_free_pct
              time_steps delta_time_step w
  = (Ok (sg, vg), w') ->
  exists frame,
    draw_tree font [] sg vg height time_steps offset_x offset_y zoom
    = Ok frame /\
    forall step j, (0 <= step <= time_steps)%Z -> (0 <= j <= step)%Z ->
      exists value,
        getitem2 vg step j = Ok value /\
        In (circle blue
              (node_x offset_x (h_dist_of font sg zoom) step,
               node_y height offset_y (v_dist_of height time_steps zoom) step j)
              (max 10 (20 * zoom))) frame /\
        In (blit (stock_price_text (int (12 * zoom))
                    (stock_price * powerRZ uptick j
                     * powerRZ downtick (step - j)))
              (node_x offset_x (h_dist_of font sg zoom) step - 10 * zoom,
               node_y height offset_y (v_dist_of height time_steps zoom) step j
               - 20 * zoom)) frame /\
        In (blit (option_price_text (int (12 * zoom)) value)
              (node_x offset_x (h_dist_of font sg zoom) step - 10 * zoom,
               node_y height offset_y (v_dist_of height time_steps zoom) step j
               + 10 * zoom)) frame.
Proof.
  intros HN Hrun.
  destruct (option_tree_inv _ _ _ _ _ _ _ _ _ _ _ Hrun)
    as (_ & _ & _ & Tsg & Tvg & Csg).
  pose proof (draw_tree_ok font [] sg vg height (Z.to_nat time_steps)
                offset_x offset_y zoom Tsg Tvg ltac:(lia)) as Hdraw.
  rewrite Z2Nat.id in Hdraw by lia. cbn [app] in Hdraw.
  eexists. split; [exact Hdraw|].
  intros step j Hstep Hj.
  exists (cell vg (Z.to_nat step) (Z.to_nat j)).
  split; [apply (getitem2_Z vg (Z.to_nat time_steps)); [assumption|lia|lia]|].
  rewrite <- (node_price_powerRZ stock_price uptick downtick step j) by lia.
  rewrite <- (Csg (Z.to_nat step) (Z.to_nat j)) by lia.
  assert (Hs : (Z.to_nat j <= Z.to_nat step < S (Z.to_nat time_steps))%nat)
    by lia.
  assert (Es : step = Z.of_nat (Z.to_nat step)) by lia.
  assert (Ej : j = Z.of_nat (Z.to_nat j)) by lia.
  revert Hs Es Ej. generalize (Z.to_nat step) (Z.to_nat j).
  intros s' j' Hs -> ->.
  repeat split; apply in_frame_cmds; exists s', j';
    (split; [exact Hs|]); apply in_node_cmds_marks; unfold node_marks;
    fold (node_radius_of zoom); simpl; auto.
Qed.

Lemma every_node_is_drawn_witness :
  (1 <= 1)%Z /\
  option_tree 1 1 3 2 0 1 1 script_world
  = (Ok ([[1]; [2; 3]], [[0]; [1; 2]]), report 0 script_world) /\
  exists frame,
    draw_tree (fun _ _ => 40%Z) [] [[1]; [2; 3]] [[0]; [1; 2]] 720 1 0 0 1
    = Ok frame /\
    forall step j, (0 <= step <= 1)%Z -> (0 <= j <= step)%Z ->
      exists value,
        getitem2 [[0]; [1; 2]] step j = Ok value /\
        In (circle blue
              (node_x 0 (h_dist_of (fun _ _ => 40%Z) [[1]; [2; 3]] 1) step,
               node_y 720 0 (v_dist_of 720 1 1) step j)
              (max 10 (20 * 1))) frame /\
        In (blit (stock_price_text (int (12 * 1))
                    (1 * powerRZ 3 j * powerRZ 2 (step - j)))
              (node_x 0 (h_dist_of (fun _ _ => 40%Z) [[1]; [2; 3]] 1) step
               - 10 * 1,
               node_y 720 0 (v_dist_of 720 1 1) step j - 20 * 1)) frame /\
        In (blit (option_price_text (int (12 * 1)) value)
              (node_x 0 (h_dist_of (fun _ _ => 40%Z) [[1]; [2; 3]] 1) step
               - 10 * 1,
               node_y 720 0 (v_dist_of 720 1 1) step j + 10 * 1)) frame.
Proof.
  split; [lia|]. split; [apply run_up3_down2|].
  apply (every_node_is_drawn (fun _ _ => 40%Z) 1 1 3 2 0 1 1
           script_world (report 0 script_world));
    [lia|apply run_up3_down2].
Defined.

(** ** Counting the commands of a frame *)

Lemma count_app (test : draw_cmd -> bool) (a b : Surface) :
  count test (a ++ b) = (count test a + count test b)%nat.
Proof. unfold count. now rewrite filter_app, length_app. Qed.

Lemma count_flat_map {A} (test : draw_cmd -> bool) (f : A -> Surface)
    (l : list A) :
  count test (flat_map f l) = list_sum (List.map (fun x => count test (f x)) l).
Proof.
  induction l as [|x l IH]; [reflexivity|].
  simpl. now rewrite count_app, IH.
Qed.

Lemma list_sum_constant {A} (f : A -> nat) (c : nat) (l : list A) :
  (forall x, In x l -> f x = c) ->
  list_sum (List.map f l) = (c * List.length l)%nat.
Proof.
  induction l as [|x l IH]; intros H; simpl; [lia|].
  rewrite (H x) by now left. rewrite IH by (intros y Hy; apply H; now right).
  lia.
Qed.

Lemma count_node_marks (font_size height : Z)
    (offset_x offset_y zoom h_dist v_dist node_radius : R)
    (step j : Z) (s o : R) :
  count is_circle (node_marks font_size height offset_x offset_y zoom h_dist
                              v_dist node_radius step j s o) = 1%nat /\
  count is_blit (node_marks font_size height offset_x offset_y zoom h_dist
                            v_dist node_radius step j s o) = 2%nat /\
  count is_line (node_marks font_size height offset_x offset_y zoom h_dist
                            v_dist node_radius step j s o) = 0%nat.
Proof. repeat split. Qed.

Lemma count_node_edges (height : Z) (offset_x offset_y h_dist v_dist : R)
    (step j : nat) :
  count is_circle (node_edges height offset_x offset_y h_dist v_dist
                              (Z.of_nat step) (Z.of_nat j)) = 0%nat /\
  count is_blit (node_edges height offset_x offset_y h_dist v_dist
                            (Z.of_nat step) (Z.of_nat j)) = 0%nat /\
  count is_line (node_edges height offset_x offset_y h_dist v_dist
                            (Z.of_nat step) (Z.of_nat j))
  = ((if (0 <? step)%nat && (0 <? j)%nat then 1 else 0)
     + (if (0 <? step)%nat && (j <? step)%nat then 1 else 0))%nat.
Proof.
  unfold node_edges.
  destruct (Z.ltb_spec 0 (Z.of_nat step)), (Nat.ltb_spec 0 step); try lia;
    destruct (Z.ltb_spec 0 (Z.of_nat j)), (Nat.ltb_spec 0 j); try lia;
    destruct (Z.ltb_spec (Z.of_nat j) (Z.of_nat step)),
             (Nat.ltb_spec j step); try lia;
    repeat split.
Qed.

(** Edges leaving the first [m] nodes of row [step]. *)
Lemma row_edges (step m : nat) :
  (0 < step)%nat -> (m <= S step)%nat ->
  list_sum (List.map (fun j =>
              ((if (0 <? step)%nat && (0 <? j)%nat then 1 else 0)
               + (if (0 <? step)%nat && (j <? step)%nat then 1 else 0))%nat)
            (seq 0 m))
  = ((m - 1) + Nat.min m step)%nat.
Proof.
  intros Hs. induction m as [|m IH]; intros Hm; [reflexivity|].
  rewrite seq_snoc, map_app, list_sum_app, IH by lia.
  cbn [List.map list_sum fold_right].
  destruct (Nat.ltb_spec 0 step); [|lia].
  destruct (Nat.ltb_spec 0 m), (Nat.ltb_spec m step); cbn [andb]; lia.
Qed.

Lemma frame_counts (font_size height : Z)
    (offset_x offset_y zoom h_dist v_dist node_radius : R)
    (stock_tree option_tree : grid) (rows : nat) :
  (2 * count is_circle
         (frame_cmds font_size height offset_x offset_y zoom h_dist v_dist
                     node_radius stock_tree option_tree rows)
   = rows * (rows + 1))%nat /\
  (count is_blit
         (frame_cmds font_size height offset_x offset_y zoom h_dist v_dist
                     node_radius stock_tree option_tree rows)
   = rows * (rows + 1))%nat /\
  (count is_line
         (frame_cmds font_size height offset_x offset_y zoom h_dist v_dist
                     node_radius stock_tree option_tree rows)
   = rows * (rows - 1))%nat.
Proof.
  unfold frame_cmds.
  induction rows as [|r (IHc & IHb & IHl)]; [repeat split|].
  rewrite seq_snoc, flat_map_snoc, !count_app.
  rewrite !count_flat_map at 1.
  assert (Hc : list_sum (List.map (fun j =>
                 count is_circle
                   (node_cmds font_size height offset_x offset_y zoom h_dist
                      v_dist node_radius (Z.of_nat r) (Z.of_nat j)
                      (cell stock_tree r j) (cell option_tree r j)))
               (seq 0 (S r))) = S r).
  { rewrite (list_sum_constant _ 1%nat).
    - rewrite length_seq. lia.
    - intros j _. unfold node_cmds. rewrite count_app.
      destruct (count_node_edges height offset_x offset_y h_dist v_dist r j)
        as (-> & _). reflexivity. }
  assert (Hb : list_sum (List.map (fun j =>
                 count is_blit
                   (node_cmds font_size height offset_x offset_y zoom h_dist
                      v_dist node_radius (Z.of_nat r) (Z.of_nat j)
                      (cell stock_tree r j) (cell option_tree r j)))
               (seq 0 (S r))) = (2 * S r)%nat).
  { rewrite (list_sum_constant _ 2%nat).
    - rewrite length_seq. lia.
    - intros j _. unfold node_cmds. rewrite count_app.
      destruct (count_node_edges height offset_x offset_y h_dist v_dist r j)
        as (_ & -> & _). reflexivity. }
  assert (Hl : list_sum (List.map (fun j =>
                 count is_line
                   (node_cmds font_size height offset_x offset_y zoom h_dist
                      v_dist node_radius (Z.of_nat r) (Z.of_nat j)
                      (cell stock_tree r j) (cell option_tree r j)))
               (seq 0 (S r))) = (2 * r)%nat).
  { destruct r as [|r'].
    - reflexivity.
    - rewrite (map_ext _ (fun j =>
          ((if (0 <? S r')%nat && (0 <? j)%nat then 1 else 0)
           + (if (0 <? S r')%nat && (j <? S r')%nat then 1 else 0))%nat)).
      + rewrite row_edges by lia. lia.
      + intros j. unfold node_cmds. rewrite count_app.
        destruct (count_node_edges height offset_x offset_y h_dist v_dist
                    (S r') j) as (_ & _ & ->).
        cbn [count_node_marks]. unfold node_marks, count. simpl. lia. }
  rewrite <- !count_flat_map in *.
  rewrite Hc, Hb, Hl. nia.
Qed.

(** X15.  A frame holds the whole tree and nothing else: for the grids
    returned by [option_tree] with [N >= 1] steps, [draw_tree] on an
    empty screen issues one circle per node, [(N + 1)(N + 2) / 2] in
    all, two labels per node, and one line per edge of the lattice,
    [N (N + 1)] in all. *)
Theorem frame_is_the_whole_tree (font : font_metrics)
    (stock_price ex_price uptick downtick risk_free_pct : R) (time_steps : Z)
    (delta_time_step : R) (w w' : world) (sg vg : grid)
    (height : Z) (offset_x offset_y zoom : R) :
  (1 <= time_steps)%Z ->
  option_tree stock_price ex_price uptick downtick risk_free_pct
              time_steps delta_time_step w
  = (Ok (sg, vg), w') ->
  exists frame,
    draw_tree font [] sg vg height time_steps offset_x offset_y zoom
    = Ok frame /\
    (2 * Z.of_nat (count is_circle frame)
     = (time_steps + 1) * (time_steps + 2))%Z /\
    (Z.of_nat (count is_blit frame)
     = (time_steps + 1) * (time_steps + 2))%Z /\
    (Z.of_nat (count is_line frame) = time_steps * (time_steps + 1))%Z /\
    List.length frame
    = (count is_circle frame + count is_blit frame + count is_line frame)%nat.
Proof.
  intros HN Hrun.
  destruct (option_tree_inv _ _ _ _ _ _ _ _ _ _ _ Hrun)
    as (_ & _ & _ & Tsg & Tvg & _).
  pose proof (draw_tree_ok font [] sg vg height (Z.to_nat time_steps)
                offset_x offset_y zoom Tsg Tvg ltac:(lia)) as Hdraw.
  rewrite Z2Nat.id in Hdraw by lia. cbn [app] in Hdraw.
  eexists. split; [exact Hdraw|].
  match goal with
  | |- context [count is_circle ?f] =>
      destruct (frame_counts (int (12 * zoom)) height offset_x offset_y zoom
                  (h_dist_of font sg zoom) (v_dist_of height time_steps zoom)
                  (node_radius_of zoom) sg vg (S (Z.to_nat time_steps)))
        as (Hc & Hb & Hl);
      set (F := f) in *
  end.
  split; [nia|]. split; [nia|]. split; [nia|].
  clear. unfold count. induction F as [|c F IH]; [reflexivity|].
  destruct c; simpl; rewrite IH; lia.
Qed.

Lemma frame_is_the_whole_tree_witness :
  (1 <= 1)%Z /\
  option_tree 1 1 3 2 0 1 1 script_world
  = (Ok ([[1]; [2; 3]], [[0]; [1; 2]]), report 0 script_world) /\
  exists frame,
    draw_tree (fun _ _ => 40%Z) [] [[1]; [2; 3]] [[0]; [1; 2]] 720 1 0 0 1
    = Ok frame /\
    (2 * Z.of_nat (count is_circle frame) = (1 + 1) * (1 + 2))%Z /\
    (Z.of_nat (count is_blit frame) = (1 + 1) * (1 + 2))%Z /\
    (Z.of_nat (count is_line frame) = 1 * (1 + 1))%Z /\
    List.length frame
    = (count is_circle frame + count is_blit frame + count is_line frame)%nat.
Proof.
  split; [lia|]. split; [apply run_up3_down2|].
  apply (frame_is_the_whole_tree (fun _ _ => 40%Z) 1 1 3 2 0 1 1
           script_world (report 0 script_world));
    [lia|apply run_up3_down2].
Defined.

(** ** Events *)

Lemma clamp_range (z : R) :
  min_zoom <= max min_zoom (min max_zoom z) <= max_zoom.
Proof.
  unfold max, min, min_zoom, max_zoom.
  destruct (Rlt_dec z 3);
    match goal with |- context [Rlt_dec ?a ?b] => destruct (Rlt_dec a b) end;
    lra.
Qed.

Lemma wheel_ok (v : view) (e : event) : view_ok v -> view_ok (wheel v e).
Proof.
  intros [Hz Hd]. destruct e; try (split; assumption).
  split; [apply clamp_range|exact Hd].
Qed.

Lemma dispatch_ok (v : view) (e : event) :
  view_ok v -> exists v', dispatch v e = Some v' /\ view_ok v'.
Proof.
  intros [Hz Hd]. destruct e as [|pos| |pos|y|]; cbn [dispatch].
  - eexists. split; [reflexivity|]. split; assumption.
  - eexists. split; [reflexivity|]. split; [assumption|].
    intros _. split; discriminate.
  - eexists. split; [reflexivity|]. split; [assumption|]. discriminate.
  - destruct (dragging v) eqn:Ed.
    + destruct (Hd eq_refl) as [Hx Hy].
      destruct (last_mouse_x v) as [mx|]; [|contradiction].
      destruct (last_mouse_y v) as [my|]; [|contradiction].
      eexists. split; [reflexivity|]. split; [assumption|].
      intros _. split; discriminate.
    + eexists. split; [reflexivity|]. split; [assumption|].
      rewrite Ed. discriminate.
  - eexists. split; [reflexivity|]. split; assumption.
  - eexists. split; [reflexivity|]. split; assumption.
Qed.

Lemma handle_event_ok (v : view) (e : event) :
  view_ok v -> exists v', handle_event v e = Some v' /\ view_ok v'.
Proof.
  intros Hv. destruct (dispatch_ok v e Hv) as (v' & Hd & Hv').
  exists (wheel v' e). unfold handle_event. rewrite Hd.
  split; [reflexivity|]. now apply wheel_ok.
Qed.

Lemma handle_events_ok (events : list event) (v : view) :
  view_ok v -> exists v', handle_events v events = Some v' /\ view_ok v'.
Proof.
  revert v. induction events as [|e events IH]; intros v Hv.
  - exists v. now split.
  - destruct (handle_event_ok v e Hv) as (v1 & H1 & Hv1).
    cbn [handle_events]. rewrite H1. now apply IH.
Qed.

Lemma initial_view_ok : view_ok initial_view.
Proof.
  split; [unfold min_zoom, max_zoom; simpl; lra|discriminate].
Qed.

(** X16.  Handling events never raises: from the initial state, every
    sequence of events is processed to the end.  The subtraction of the
    last mouse position on a [MOUSEMOTION] is only reached while
    dragging, that is after a [MOUSEBUTTONDOWN] has stored a position,
    so it never meets [None]. *)
Theorem events_never_raise (events : list event) :
  exists v, handle_events initial_view events = Some v.
Proof.
  destruct (handle_events_ok events initial_view initial_view_ok)
    as (v & Hv & _).
  now exists v.
Qed.

(** X17.  The zoom factor never leaves [0.5, 3.0]: whatever events are
    handled from a state whose zoom is within the limits, the zoom of
    the state reached is within the limits. *)
Theorem zoom_stays_in_range (v v' : view) (events : list event) :
  1 / 2 <= zoom v <= 3 ->
  handle_events v events = Some v' ->
  1 / 2 <= zoom v' <= 3.
Proof.
  revert v. induction events as [|e events IH]; intros v Hz Hrun.
  - injection Hrun as <-. exact Hz.
  - cbn [handle_events] in Hrun.
    destruct (handle_event v e) as [v1|] eqn:H1; [|discriminate].
    apply (IH v1); [|assumption].
    unfold handle_event in H1.
    destruct (dispatch v e) as [v2|] eqn:H2; [|discriminate].
    injection H1 as <-.
    assert (Hz2 : zoom v2 = zoom v).
    { destruct e; cbn [dispatch] in H2;
        try (injection H2 as <-; reflexivity).
      destruct (dragging v); [|injection H2 as <-; reflexivity].
      destruct (last_mouse_x v), (last_mouse_y v); try discriminate.
      injection H2 as <-. reflexivity. }
    destruct e; cbn [wheel]; try (rewrite Hz2; exact Hz).
    cbn [zoom].
    pose proof (clamp_range (zoom v2 + IZR y * (1 / 10))) as Hc.
    unfold min_zoom, max_zoom in *. lra.
Qed.

Lemma zoom_stays_in_range_witness :
  1 / 2 <= zoom initial_view <= 3 /\
  handle_events initial_view [MOUSEWHEEL 50; MOUSEWHEEL (-1)]
  = Some (wheel (wheel initial_view (MOUSEWHEEL 50)) (MOUSEWHEEL (-1))) /\
  1 / 2 <= zoom (wheel (wheel initial_view (MOUSEWHEEL 50)) (MOUSEWHEEL (-1)))
        <= 3.
Proof.
  assert (H : 1 / 2 <= zoom initial_view <= 3) by (simpl; lra).
  split; [exact H|]. split; [reflexivity|].
  apply (zoom_stays_in_range initial_view _ [MOUSEWHEEL 50; MOUSEWHEEL (-1)]);
    [exact H|reflexivity].
Defined.

Lemma handle_events_app (v : view) (es fs : list event) :
  handle_events v (es ++ fs)
  = match handle_events v es with
    | Some v' => handle_events v' fs
    | None => None
    end.
Proof.
  revert v. induction es as [|e es IH]; intros v; [reflexivity|].
  cbn [app handle_events]. destruct (handle_event v e); [apply IH|reflexivity].
Qed.

(** Motion with the button up changes nothing. *)
Lemma motion_released (qs : list (Z * Z)) (v : view) :
  dragging v = false ->
  handle_events v (List.map MOUSEMOTION qs) = Some v.
Proof.
  intros Hd. induction qs as [|q qs IH]; [reflexivity|].
  cbn [List.map handle_events]. unfold handle_event. cbn [dispatch].
  rewrite Hd. cbn [wheel]. exact IH.
Qed.

(** Motion with the button down moves the offsets with the mouse. *)
Lemma motion_dragging (ps : list (Z * Z)) (v : view) (mx my : Z) :
  dragging v = true ->
  last_mouse_x v = Some mx -> last_mouse_y v = Some my ->
  exists v',
    handle_events v (List.map MOUSEMOTION ps) = Some v' /\
    offset_x v' = (offset_x v + (fst (last ps (mx, my)) - mx))%Z /\
    offset_y v' = (offset_y v + (snd (last ps (mx, my)) - my))%Z /\
    dragging v' = true /\ zoom v' = zoom v /\ running v' = running v.
Proof.
  revert v mx my. induction ps as [|p ps IH]; intros v mx my Hd Hx Hy.
  - exists v. cbn [List.map handle_events last fst snd].
    repeat split; try assumption; lia.
  - cbn [List.map handle_events]. unfold handle_event. cbn [dispatch].
    rewrite Hd, Hx, Hy. cbn [wheel].
    match goal with
    | |- exists _, handle_events ?v1 _ = _ /\ _ =>
        destruct (IH v1 (fst p) (snd p) eq_refl eq_refl eq_refl)
          as (v' & Hrun & Hox & Hoy & Hd' & Hz & Hr)
    end.
    exists v'. split; [exact Hrun|].
    cbn [offset_x offset_y zoom running] in Hox, Hoy, Hz, Hr.
    assert (Hl : last (p :: ps) (mx, my) = last ps (fst p, snd p)).
    { destruct ps as [|p' ps']; [now destruct p|].
      cbn [last]. clear. revert p'. induction ps' as [|a l IHl]; intros p'.
      - reflexivity.
      - cbn [last] in *. apply IHl. }
    rewrite Hl. repeat split; try assumption; lia.
Qed.

(** X18.  Dragging pans the tree by exactly the displacement of the
    mouse: after a button press at [p0], any motions, a release and any
    further motions, the offsets have moved by the difference between
    the last position reached with the button down and [p0]; motion
    after the release pans nothing, and neither zoom nor the running
    flag is touched. *)
Theorem drag_pans_by_mouse_displacement
    (v : view) (p0 : Z * Z) (ps qs : list (Z * Z)) :
  exists v',
    handle_events v (MOUSEBUTTONDOWN p0 :: List.map MOUSEMOTION ps
                     ++ MOUSEBUTTONUP :: List.map MOUSEMOTION qs)
    = Some v' /\
    offset_x v' = (offset_x v + (fst (last ps p0) - fst p0))%Z /\
    offset_y v' = (offset_y v + (snd (last ps p0) - snd p0))%Z /\
    dragging v' = false /\ zoom v' = zoom v /\ running v' = running v.
Proof.
  cbn [handle_events]. unfold handle_event at 1. cbn [dispatch wheel].
  rewrite handle_events_app.
  match goal with
  | |- exists _, match handle_events ?v1 _ with _ => _ end = _ /\ _ =>
      destruct (motion_dragging ps v1 (fst p0) (snd p0) eq_refl eq_refl eq_refl)
        as (v2 & Hrun & Hox & Hoy & Hd & Hz & Hr)
  end.
  rewrite Hrun. cbn [handle_events]. unfold handle_event at 1.
  cbn [dispatch wheel].
  rewrite motion_released by reflexivity.
  eexists. split; [reflexivity|].
  cbn [offset_x offset_y dragging zoom running] in *.
  replace (fst p0, snd p0) with p0 in * by now destruct p0.
  repeat split; assumption.
Qed.

(** ** The window loop *)

Lemma handle_event_running (v v' : view) (e : event) :
  handle_event v e = Some v' ->
  running v' = match e with QUIT => false | _ => running v end.
Proof.
  unfold handle_event. destruct (dispatch v e) as [v1|] eqn:Hd; [|discriminate].
  intros H. injection H as <-.
  destruct e; cbn [dispatch] in Hd; cbn [wheel];
    try (injection Hd as <-; reflexivity).
  destruct (dragging v); [|injection Hd as <-; reflexivity].
  destruct (last_mouse_x v), (last_mouse_y v); try discriminate.
  injection Hd as <-. reflexivity.
Qed.

Lemma quit_in_or_not (events : list event) :
  In QUIT events \/ ~ In QUIT events.
Proof.
  induction events as [|e events [IH|IH]].
  - right. intros [].
  - left. now right.
  - destruct e; try (right; intros [H|H]; [discriminate|contradiction]).
    left. now left.
Qed.

Lemma handle_events_running (events : list event) (v v' : view) :
  handle_events v events = Some v' ->
  (In QUIT events -> running v' = false) /\
  (~ In QUIT events -> running v' = running v).
Proof.
  revert v. induction events as [|e events IH]; intros v Hrun.
  - injection Hrun as <-. split; [intros []|reflexivity].
  - cbn [handle_events] in Hrun.
    destruct (handle_event v e) as [v1|] eqn:H1; [|discriminate].
    pose proof (handle_event_running v v1 e H1) as Hr1.
    destruct (IH v1 Hrun) as [Hq Hn].
    assert (Hfalse : running v1 = false -> running v' = false).
    { intros Hf. destruct (quit_in_or_not events) as [Hin|Hnin].
      - now apply Hq.
      - rewrite (Hn Hnin). exact Hf. }
    split.
    + intros [->|Hin]; [now apply Hfalse|now apply Hq].
    + intros Hnin. rewrite Hn by (intros Hin; apply Hnin; now right).
      rewrite Hr1. destruct e; try reflexivity.
      exfalso. apply Hnin. now left.
Qed.

(** One iteration of the loop on triangular grids of [n >= 1] steps. *)
Lemma main_loop_step (font : font_metrics) (sg vg : grid) (height : Z)
    (n : nat) (events : list event) (batches : list (list event))
    (v : view) (frames : list Surface) :
  tri sg n -> tri vg n -> (1 <= n)%nat -> view_ok v -> running v = true ->
  exists v' frame,
    handle_events v events = Some v' /\ view_ok v' /\
    draw_tree font [] sg vg height (Z.of_nat n)
              (IZR (offset_x v')) (IZR (offset_y v')) (zoom v') = Ok frame /\
    main_loop font sg vg height (Z.of_nat n) (events :: batches) v frames
    = main_loop font sg vg height (Z.of_nat n) batches v' (frames ++ [frame]).
Proof.
  intros Ts Tv Hn Hv Hr.
  destruct (handle_events_ok events v Hv) as (v' & He & Hv').
  pose proof (draw_tree_ok font [] sg vg height n (IZR (offset_x v'))
                (IZR (offset_y v')) (zoom v') Ts Tv Hn) as Hd.
  eexists v', _. split; [exact He|]. split; [exact Hv'|]. split; [exact Hd|].
  cbn [main_loop]. rewrite Hr, He, Hd. reflexivity.
Qed.

(** The loop never crashes on such grids, and every frame it shows is
    one that [draw_tree] produces at a zoom within the limits. *)
Lemma main_loop_sound (font : font_metrics) (sg vg : grid) (height : Z)
    (n : nat) (P : Surface -> Prop) (batches : list (list event)) :
  tri sg n -> tri vg n -> (1 <= n)%nat ->
  (forall ox oy z frame,
     min_zoom <= z <= max_zoom ->
     draw_tree font [] sg vg height (Z.of_nat n) ox oy z = Ok frame ->
     P frame) ->
  forall v frames,
    view_ok v -> Forall P frames ->
    match main_loop font sg vg height (Z.of_nat n) batches v frames with
    | Crashed _ _ => False
    | r => Forall P (frames_of r)
    end.
Proof.
  intros Ts Tv Hn HP.
  induction batches as [|events batches IH]; intros v frames Hv Hf.
  - cbn [main_loop]. destruct (running v); exact Hf.
  - destruct (running v) eqn:Hr.
    + destruct (main_loop_step font sg vg height n events batches v frames
                  Ts Tv Hn Hv Hr) as (v' & frame & _ & Hv' & Hd & ->).
      apply IH; [assumption|].
      apply Forall_app. split; [assumption|].
      constructor; [|constructor].
      apply (HP _ _ _ _ (proj1 Hv') Hd).
    + cbn [main_loop]. rewrite Hr. exact Hf.
Qed.

(** While no batch holds a [QUIT], the loop shows one frame per batch
    and goes on. *)
Lemma main_loop_open (font : font_metrics) (sg vg : grid) (height : Z)
    (n : nat) (pre rest : list (list event)) :
  tri sg n -> tri vg n -> (1 <= n)%nat ->
  (forall events, In events pre -> ~ In QUIT events) ->
  forall v frames,
    view_ok v -> running v = true ->
    exists v' shown,
      main_loop font sg vg height (Z.of_nat n) (pre ++ rest) v frames
      = main_loop font sg vg height (Z.of_nat n) rest v' (frames ++ shown) /\
      view_ok v' /\ running v' = true /\
      List.length shown = List.length pre.
Proof.
  intros Ts Tv Hn. induction pre as [|events pre IH]; intros Hq v frames Hv Hr.
  - exists v, []. rewrite app_nil_r. cbn [app].
    split; [reflexivity|]. split; [assumption|]. split; [assumption|reflexivity].
  - destruct (main_loop_step font sg vg height n events (pre ++ rest) v frames
                Ts Tv Hn Hv Hr) as (v1 & frame & He & Hv1 & _ & Hstep).
    destruct (handle_events_running events v v1 He) as [_ Hkeep].
    assert (Hr1 : running v1 = true).
    { rewrite Hkeep; [assumption|]. apply Hq. now left. }
    destruct (IH (fun es H => Hq es (or_intror H)) v1 (frames ++ [frame])
                Hv1 Hr1) as (v' & shown & Hrun & Hv' & Hr' & Hlen).
    exists v', (frame :: shown).
    cbn [app]. rewrite Hstep, Hrun, <- app_assoc. cbn [app].
    split; [reflexivity|]. split; [assumption|]. split; [assumption|].
    cbn [List.length]. now rewrite Hlen.
Qed.

(** X19.  The window closes at the first [QUIT], after one more frame:
    for the grids of a successful [option_tree] with at least one step,
    if the batch [b] is the first one that holds a [QUIT], the loop
    shows one frame for every batch up to and including [b], ignores
    every later batch and ends. *)
Theorem window_closes_after_quit (font : font_metrics)
    (stock_price ex_price uptick downtick risk_free_pct : R) (time_steps : Z)
    (delta_time_step : R) (w : world)
    (pre : list (list event)) (b : list event) (post : list (list event)) :
  uptick <> downtick -> (1 <= time_steps)%Z ->
  (forall events, In events pre -> ~ In QUIT events) ->
  In QUIT b ->
  exists frames w',
    visualize_binomial_tree font stock_price ex_price uptick downtick
      risk_free_pct time_steps delta_time_step (pre ++ b :: post) w
    = (Closed frames, w') /\
    List.length frames = S (List.length pre).
Proof.
  intros Hud HN Hpre Hb.
  destruct (option_tree_ok_Z stock_price ex_price uptick downtick risk_free_pct
              time_steps delta_time_step w Hud)
    as (sg & vg & Hrun & Tsg & Tvg & _); [lia|].
  unfold visualize_binomial_tree. rewrite Hrun.
  assert (Hn : (1 <= Z.to_nat time_steps)%nat) by lia.
  assert (E : time_steps = Z.of_nat (Z.to_nat time_steps)) by lia.
  revert Tsg Tvg Hn E. generalize (Z.to_nat time_steps).
  intros n Tsg Tvg Hn ->.
  destruct (main_loop_open font sg vg 720 n pre (b :: post)
              Tsg Tvg Hn Hpre initial_view [] initial_view_ok eq_refl)
    as (v1 & shown & Hloop & Hv1 & Hr1 & Hlen).
  destruct (main_loop_step font sg vg 720 n b post v1
              ([] ++ shown) Tsg Tvg Hn Hv1 Hr1)
    as (v2 & frame & He & _ & _ & Hstep).
  destruct (handle_events_running b v1 v2 He) as [Hquit _].
  exists (([] ++ shown) ++ [frame]), (report (cell vg 0 0) w).
  split.
  - rewrite Hloop, Hstep. f_equal.
    destruct post; cbn [main_loop]; now rewrite (Hquit Hb).
  - cbn [app]. rewrite length_app, Hlen. cbn [List.length]. lia.
Qed.

Lemma window_closes_after_quit_witness :
  3 <> 2 /\ (1 <= 1)%Z /\
  (forall events, In events [[MOUSEWHEEL 1]] -> ~ In QUIT events) /\
  In QUIT [OTHER; QUIT] /\
  exists frames w',
    visualize_binomial_tree (fun _ _ => 40%Z) 1 1 3 2 0 1 1
      ([[MOUSEWHEEL 1]] ++ [OTHER; QUIT] :: [[MOUSEWHEEL 1]]) script_world
    = (Closed frames, w') /\
    List.length frames = S (List.length [[MOUSEWHEEL 1]]).
Proof.
  assert (H : forall events, In events [[MOUSEWHEEL 1]] -> ~ In QUIT events).
  { intros events [<-|[]] [H|[]]. discriminate. }
  assert (Hq : In QUIT [OTHER; QUIT]) by (right; left; reflexivity).
  split; [lra|]. split; [lia|]. split; [exact H|]. split; [exact Hq|].
  apply (window_closes_after_quit (fun _ _ => 40%Z) 1 1 3 2 0 1 1 script_world
           [[MOUSEWHEEL 1]] [OTHER; QUIT] [[MOUSEWHEEL 1]]);
    [lra|lia|exact H|exact Hq].
Defined.

(** X20.  Without a [QUIT] the window stays open: for the grids of a
    successful [option_tree] with at least one step, batches that hold
    no [QUIT] are all processed, one frame is shown per batch, and the
    loop is still running. *)
Theorem window_stays_open_without_quit (font : font_metrics)
    (stock_price ex_price uptick downtick risk_free_pct : R) (time_steps : Z)
    (delta_time_step : R) (w : world) (batches : list (list event)) :
  uptick <> downtick -> (1 <= time_steps)%Z ->
  (forall events, In events batches -> ~ In QUIT events) ->
  exists v frames w',
    visualize_binomial_tree font stock_price ex_price uptick downtick
      risk_free_pct time_steps delta_time_step batches w
    = (Running v frames, w') /\
    running v = true /\
    List.length frames = List.length batches.
Proof.
  intros Hud HN Hq.
  destruct (option_tree_ok_Z stock_price ex_price uptick downtick risk_free_pct
              time_steps delta_time_step w Hud)
    as (sg & vg & Hrun & Tsg & Tvg & _); [lia|].
  unfold visualize_binomial_tree. rewrite Hrun.
  assert (Hn : (1 <= Z.to_nat time_steps)%nat) by lia.
  assert (E : time_steps = Z.of_nat (Z.to_nat time_steps)) by lia.
  revert Tsg Tvg Hn E. generalize (Z.to_nat time_steps).
  intros n Tsg Tvg Hn ->.
  destruct (main_loop_open font sg vg 720 n batches []
              Tsg Tvg Hn Hq initial_view [] initial_view_ok eq_refl)
    as (v1 & shown & Hloop & Hv1 & Hr1 & Hlen).
  rewrite app_nil_r in Hloop.
  exists v1, ([] ++ shown), (report (cell vg 0 0) w). split.
  - rewrite Hloop. cbn [main_loop]. now rewrite Hr1.
  - split; [assumption|]. exact Hlen.
Qed.

Lemma window_stays_open_without_quit_witness :
  3 <> 2 /\ (1 <= 1)%Z /\
  (forall events, In events [[MOUSEWHEEL 1]; []] -> ~ In QUIT events) /\
  exists v frames w',
    visualize_binomial_tree (fun _ _ => 40%Z) 1 1 3 2 0 1 1
      [[MOUSEWHEEL 1]; []] script_world
    = (Running v frames, w') /\
    running v = true /\
    List.length frames = List.length [[MOUSEWHEEL 1]; [] : list event].
Proof.
  assert (H : forall events,
             In events [[MOUSEWHEEL 1]; []] -> ~ In QUIT events).
  { intros events [<-|[<-|[]]]; [intros [H|[]]; discriminate|intros []]. }
  split; [lra|]. split; [lia|]. split; [exact H|].
  apply (window_stays_open_without_quit (fun _ _ => 40%Z) 1 1 3 2 0 1 1
           script_world [[MOUSEWHEEL 1]; []]); [lra|lia|exact H].
Defined.




(** X22.  No frame that the window ever shows has overlapping nodes:
    whatever the arguments and whatever events arrive, in every frame
    shown any two circles with different centres are further apart than
    the sum of their radii.  The limits of the zoom in the event loop
    and the spacings and radius in [draw_tree] fit together. *)
Theorem shown_frames_never_overlap (font : font_metrics)
    (stock_price ex_price uptick downtick risk_free_pct : R) (time_steps : Z)
    (delta_time_step : R) (w : world) (batches : list (list event))
    (frame : Surface) :
  In frame
     (frames_of
        (fst (visualize_binomial_tree font stock_price ex_price uptick
                downtick risk_free_pct time_steps delta_time_step
                batches w))) ->
  forall c1 p1 r1 c2 p2 r2,
    In (circle c1 p1 r1) frame -> In (circle c2 p2 r2) frame -> p1 <> p2 ->
    (r1 + r2) * (r1 + r2)
    < (fst p1 - fst p2) * (fst p1 - fst p2)
      + (snd p1 - snd p2) * (snd p1 - snd p2).
Proof.
  unfold visualize_binomial_tree.
  destruct (Req_dec_T uptick downtick) as [E|Hud].
  { rewrite option_tree_degenerate by assumption. intros []. }
  destruct (Z_lt_le_dec time_steps 0) as [Hneg|HN].
  { rewrite option_tree_negative_steps by assumption. intros []. }
  destruct (option_tree_ok_Z stock_price ex_price uptick downtick risk_free_pct
              time_steps delta_time_step w Hud HN)
    as (sg & vg & Hrun & Tsg & Tvg & _).
  rewrite Hrun. cbn [fst].
  destruct (Z.eq_dec time_steps 0) as [->|Hne].
  - destruct batches as [|b batches]; cbn [main_loop initial_view running].
    + intros [].
    + destruct (handle_events_ok b initial_view initial_view_ok)
        as (v & -> & _).
      rewrite draw_tree_zero_steps. intros [].
  - assert (Hn : (1 <= Z.to_nat time_steps)%nat) by lia.
    assert (E : time_steps = Z.of_nat (Z.to_nat time_steps)) by lia.
    pose proof (main_loop_sound font sg vg 720 (Z.to_nat time_steps)
                  (fun f => forall c1 p1 r1 c2 p2 r2,
                     In (circle c1 p1 r1) f -> In (circle c2 p2 r2) f ->
                     p1 <> p2 ->
                     (r1 + r2) * (r1 + r2)
                     < (fst p1 - fst p2) * (fst p1 - fst p2)
                       + (snd p1 - snd p2) * (snd p1 - snd p2))
                  batches Tsg Tvg Hn) as Hs.
    rewrite <- E in Hs.
    specialize (Hs (fun ox oy z f Hz Hd =>
                      frame_circles_apart font sg vg 720 (Z.to_nat time_steps)
                        ox oy z f Tsg Tvg Hn
                        ltac:(unfold min_zoom in Hz; lra)
                        ltac:(rewrite <- E; exact Hd))
                   initial_view [] initial_view_ok (Forall_nil _)).
    intros Hin.
    destruct (main_loop font sg vg 720 time_steps batches initial_view []);
      cbn [frames_of] in *; try contradiction;
      rewrite Forall_forall in Hs; now apply Hs.
Qed.

Lemma up3_down2_grids_tri :
  tri [[1]; [2; 3]] 1 /\ tri [[0]; [1; 2]] 1.
Proof. split; small_grid. Qed.

Lemma up3_down2_first_frame (font : font_metrics) (w : world) :
  frames_of (fst (visualize_binomial_tree font 1 1 3 2 0 1 1 [[]] w))
  = [frame_cmds (int (12 * 1)) 720 0 0 1
       (h_dist_of font [[1]; [2; 3]] 1) (v_dist_of 720 1 1)
       (node_radius_of 1) [[1]; [2; 3]] [[0]; [1; 2]] 2].
Proof.
  unfold visualize_binomial_tree. rewrite run_up3_down2.
  cbn [fst main_loop running initial_view handle_events offset_x offset_y zoom].
  destruct up3_down2_grids_tri as [Ts Tv].
  change 1%Z with (Z.of_nat 1) at 1.
  rewrite (draw_tree_ok font [] _ _ 720 1 _ _ _ Ts Tv (le_n 1)).
  reflexivity.
Qed.

Lemma shown_frames_never_overlap_witness :
  In (frame_cmds (int (12 * 1)) 720 0 0 1
        (h_dist_of (fun _ _ => 40%Z) [[1]; [2; 3]] 1) (v_dist_of 720 1 1)
        (node_radius_of 1) [[1]; [2; 3]] [[0]; [1; 2]] 2)
     (frames_of
        (fst (visualize_binomial_tree (fun _ _ => 40%Z) 1 1 3 2 0 1 1 [[]]
                script_world))) /\
  forall c1 p1 r1 c2 p2 r2,
    In (circle c1 p1 r1)
       (frame_cmds (int (12 * 1)) 720 0 0 1
          (h_dist_of (fun _ _ => 40%Z) [[1]; [2; 3]] 1) (v_dist_of 720 1 1)
          (node_radius_of 1) [[1]; [2; 3]] [[0]; [1; 2]] 2) ->
    In (circle c2 p2 r2)
       (frame_cmds (int (12 * 1)) 720 0 0 1
          (h_dist_of (fun _ _ => 40%Z) [[1]; [2; 3]] 1) (v_dist_of 720 1 1)
          (node_radius_of 1) [[1]; [2; 3]] [[0]; [1; 2]] 2) ->
    p1 <> p2 ->
    (r1 + r2) * (r1 + r2)
    < (fst p1 - fst p2) * (fst p1 - fst p2)
      + (snd p1 - snd p2) * (snd p1 - snd p2).
Proof.
  assert (H : In (frame_cmds (int (12 * 1)) 720 0 0 1
                    (h_dist_of (fun _ _ => 40%Z) [[1]; [2; 3]] 1)
                    (v_dist_of 720 1 1)
                    (node_radius_of 1) [[1]; [2; 3]] [[0]; [1; 2]] 2)
                 (frames_of
                    (fst (visualize_binomial_tree (fun _ _ => 40%Z)
                            1 1 3 2 0 1 1 [[]] script_world)))).
  { rewrite up3_down2_first_frame. left. reflexivity. }
  split; [exact H|].
  apply (shown_frames_never_overlap (fun _ _ => 40%Z) 1 1 3 2 0 1 1
           script_world [[]] _ H).
Defined.

(** ** Panning and label widths *)







Lemma max_int_fold_row (font : font_metrics) (font_size : Z)
    (row : list R) (acc : Z) :
  (acc <= fold_left (fun m value => max_int m (font font_size value)) row acc)%Z
  /\ forall value, In value row ->
       (font font_size value
        <= fold_left (fun m value => max_int m (font font_size value)) row acc)%Z.
Proof.
  revert acc. induction row as [|x row IH]; intros acc.
  - split; [cbn; lia|intros ? []].
  - cbn [fold_left].
    destruct (IH (max_int acc (font font_size x))) as [Hacc Hin].
    destruct (max_int_bounds acc (font font_size x)) as [Ha Hx].
    split; [lia|].
    intros value [<-|Hv]; [lia|now apply Hin].
Qed.

Lemma widest_label_bounds (font : font_metrics) (font_size : Z)
    (stock_tree : grid) :
  forall row value, In row stock_tree -> In value row ->
    (font font_size value <= widest_label font font_size stock_tree)%Z.
Proof.
  unfold widest_label. generalize 0%Z.
  induction stock_tree as [|r g IH]; intros acc row value Hr Hv.
  - destruct Hr.
  - cbn [fold_left].
    assert (Hmono : forall a,
              (a <= fold_left (fun m row =>
                         fold_left (fun m value =>
                           max_int m (font font_size value)) row m) g a)%Z).
    { clear. induction g as [|r' g' IHg]; intros a; [cbn; lia|].
      cbn [fold_left].
      destruct (max_int_fold_row font font_size r' a) as [H _].
      specialize (IHg (fold_left (fun m value =>
                         max_int m (font font_size value)) r' a)). lia. }
    destruct Hr as [<-|Hr].
    + destruct (max_int_fold_row font font_size r acc) as [_ H].
      specialize (H value Hv). specialize (Hmono (fold_left (fun m value =>
                         max_int m (font font_size value)) r acc)). lia.
    + now apply (IH _ row value).
Qed.

(** X24.  The column spacing follows the widest stock label: the
    horizontal spacing that [draw_tree] uses is at least [50 * zoom] and
    at least the measured width of the label of every entry of the stock
    grid times the zoom, hence at least that width itself once the zoom
    is [1] or more.  Only stock labels are measured; the option labels
    are not. *)
Theorem columns_fit_stock_labels (font : font_metrics) (stock_tree : grid)
    (zoom : R) (row : list R) (value : R) :
  0 <= zoom -> In row stock_tree -> In value row ->
  IZR (font (int (12 * zoom)) value) * zoom <= h_dist_of font stock_tree zoom
  /\ 50 * zoom <= h_dist_of font stock_tree zoom
  /\ (1 <= zoom ->
      IZR (font (int (12 * zoom)) value) <= h_dist_of font stock_tree zoom).
Proof.
  intros Hz Hrow Hv.
  pose proof (widest_label_bounds font (int (12 * zoom)) stock_tree row value
                Hrow Hv) as Hw.
  destruct (max_int_bounds
              (widest_label font (int (12 * zoom)) stock_tree) 50) as [Ha Hb].
  assert (H1 : IZR (font (int (12 * zoom)) value)
               <= IZR (max_int (widest_label font (int (12 * zoom)) stock_tree)
                               50)) by (apply IZR_le; lia).
  assert (H2 : 50 <= IZR (max_int (widest_label font (int (12 * zoom))
                                     stock_tree) 50)) by (apply IZR_le; lia).
  unfold h_dist_of.
  set (W := IZR (max_int (widest_label font (int (12 * zoom)) stock_tree) 50))
    in *.
  split; [apply Rmult_le_compat_r; assumption|].
  split; [apply Rmult_le_compat_r; assumption|].
  intros Hone. nra.
Qed.

Lemma columns_fit_stock_labels_witness :
  0 <= 1 /\ In [2; 3] [[1]; [2; 3]] /\ In 3 [2; 3] /\
  IZR ((fun (_ : Z) (x : R) => if Rle_dec 3 x then 80%Z else 40%Z)
         (int (12 * 1)) 3) * 1
  <= h_dist_of (fun _ x => if Rle_dec 3 x then 80%Z else 40%Z)
               [[1]; [2; 3]] 1 /\
  50 * 1 <= h_dist_of (fun _ x => if Rle_dec 3 x then 80%Z else 40%Z)
                      [[1]; [2; 3]] 1 /\
  (1 <= 1 ->
   IZR ((fun (_ : Z) (x : R) => if Rle_dec 3 x then 80%Z else 40%Z)
          (int (12 * 1)) 3)
   <= h_dist_of (fun _ x => if Rle_dec 3 x then 80%Z else 40%Z)
                [[1]; [2; 3]] 1).
Proof.
  assert (H1 : In [2; 3] [[1]; [2; 3]]) by (right; left; reflexivity).
  assert (H2 : In 3 [2; 3]) by (right; left; reflexivity).
  split; [lra|]. split; [exact H1|]. split; [exact H2|].
  apply (columns_fit_stock_labels
           (fun _ x => if Rle_dec 3 x then 80%Z else 40%Z)
           [[1]; [2; 3]] 1 [2; 3] 3); [lra|exact H1|exact H2].
Defined.
